(** * Session coordination of metchera-meet

    A shallow embedding of the two stateful cores of the repository:

    - [src/app/lib/webrtc.ts], class [WebRTCConnection]: the per-client
      table of peer connections and the queue of early signals;
    - [src/server.js]: the Socket.IO signalling server with its in-memory
      [rooms] and [users] maps.

    JavaScript [Map]s that are iterated ([peers.forEach],
    [Array.from(users.values()).find]) are insertion-ordered association
    lists ([JsMap]); maps that are only looked up are stdpp [gmap]s.
    Calls on external objects ([new Peer], [peer.signal], [peer.destroy],
    [io.to(..).emit], [socket.emit]) are recorded in the list of actions
    each operation returns. *)

From stdpp Require Import base decidable option list strings gmap fin_maps.

(** ** Insertion-ordered maps (the JavaScript [Map]) *)

Module JsMap.
Section defs.
Context {K V : Type} `{EqDecision K}.

(** [m.get(k)] *)
Fixpoint get (k : K) (m : list (K * V)) : option V :=
  match m with
  | [] => None
  | (k', v) :: m' => if decide (k = k') then Some v else get k m'
  end.

(** [m.set(k, v)]: an existing key keeps its position, a new key goes last. *)
Fixpoint set (k : K) (v : V) (m : list (K * V)) : list (K * V) :=
  match m with
  | [] => [(k, v)]
  | (k', v') :: m' =>
      if decide (k = k') then (k, v) :: m' else (k', v') :: set k v m'
  end.

(** [m.delete(k)] *)
Fixpoint delete (k : K) (m : list (K * V)) : list (K * V) :=
  match m with
  | [] => []
  | (k', v') :: m' =>
      if decide (k = k') then delete k m' else (k', v') :: delete k m'
  end.

(** [Array.from(m.values())] *)
Definition values (m : list (K * V)) : list V := m.*2.

End defs.
End JsMap.

(** ** The peer lifecycle manager ([src/app/lib/webrtc.ts]) *)

Module WebRTC.

(** A signal is an opaque negotiation payload ([any] in the source). *)
Definition Signal := string.

(** A [MediaStream] is opaque here; it is only handed to [new Peer]. *)
Definition MediaStream := nat.

(** [interface PeerConnection].  The [Peer.Instance] object is represented
    by its allocation number: two entries hold the same underlying
    connection exactly when their [peer] fields are equal. *)
Record PeerConnection := {
  peerId : string;
  peer : nat;
  initiator : bool;
  destroyed : bool;
}.

(** The fields of [class WebRTCConnection] that the connection table uses.
    [allocated] counts the [Peer] objects constructed so far. *)
Record WebRTCConnection := {
  peers : list (string * PeerConnection);
  pendingSignals : gmap string (list Signal);
  allocated : nat;
}.

(** Calls on the underlying connections, and writes of the [destroyed]
    flag, in program order. *)
Inductive Action :=
| NewPeer (h : nat) (initiator : bool) (stream : MediaStream)
| PeerSignal (h : nat) (signal : Signal)
| PeerDestroy (h : nat)
| MarkDestroyed (peerId : string).

#[global] Instance Action_eq_dec : EqDecision Action.
Proof. solve_decision. Defined.

(** The state the constructor builds. *)
Definition init : WebRTCConnection :=
  {| peers := []; pendingSignals := ∅; allocated := 0 |}.

Definition set_destroyed (pc : PeerConnection) : PeerConnection :=
  {| peerId := peerId pc; peer := peer pc; initiator := initiator pc;
     destroyed := true |}.

(** [hasPeer] *)
Definition hasPeer (id : string) (c : WebRTCConnection) : bool :=
  match JsMap.get id (peers c) with
  | Some pc => negb (destroyed pc)
  | None => false
  end.

(** [applyPendingSignals]: every queued signal is offered to the entry that
    the table holds for [id] at that moment, then the queue is deleted. *)
Definition applyPendingSignals (id : string) (c : WebRTCConnection)
  : WebRTCConnection * list Action :=
  match pendingSignals c !! id with
  | Some signals =>
      ({| peers := peers c;
          pendingSignals := delete id (pendingSignals c);
          allocated := allocated c |},
       flat_map (fun signal =>
                   match JsMap.get id (peers c) with
                   | Some pc =>
                       if destroyed pc then [] else [PeerSignal (peer pc) signal]
                   | None => []
                   end) signals)
  | None => (c, [])
  end.

(** The part of [createPeer] after the check for an existing entry.
    [ctor_ok = false] is the case where [new Peer] throws: the exception is
    rethrown and nothing further happens ([None] as the result). *)
Definition createPeer_new (id : string) (ini : bool) (stream : MediaStream)
  (ctor_ok : bool) (c : WebRTCConnection)
  : WebRTCConnection * list Action * option PeerConnection :=
  if ctor_ok then
    let pc := {| peerId := id; peer := allocated c; initiator := ini;
                 destroyed := false |} in
    let c1 := {| peers := JsMap.set id pc (peers c);
                 pendingSignals := pendingSignals c;
                 allocated := S (allocated c) |} in
    let '(c2, acts) := applyPendingSignals id c1 in
    (c2, NewPeer (allocated c) ini stream :: acts, Some pc)
  else (c, [], None).

(** [createPeer] *)
Definition createPeer (id : string) (ini : bool) (stream : MediaStream)
  (ctor_ok : bool) (c : WebRTCConnection)
  : WebRTCConnection * list Action * option PeerConnection :=
  match JsMap.get id (peers c) with
  | Some existingPeer =>
      if destroyed existingPeer then
        createPeer_new id ini stream ctor_ok
          {| peers := JsMap.delete id (peers c);
             pendingSignals := pendingSignals c;
             allocated := allocated c |}
      else (c, [], Some existingPeer)
  | None => createPeer_new id ini stream ctor_ok c
  end.

(** [handleSignal] *)
Definition handleSignal (signal : Signal) (from : string)
  (c : WebRTCConnection) : WebRTCConnection * list Action :=
  match JsMap.get from (peers c) with
  | Some pc =>
      if destroyed pc then
        ({| peers := peers c;
            pendingSignals :=
              <[from := default [] (pendingSignals c !! from) ++ [signal]]>
                (pendingSignals c);
            allocated := allocated c |}, [])
      else (c, [PeerSignal (peer pc) signal])
  | None =>
      ({| peers := peers c;
          pendingSignals :=
            <[from := default [] (pendingSignals c !! from) ++ [signal]]>
              (pendingSignals c);
          allocated := allocated c |}, [])
  end.

(** [removePeer] *)
Definition removePeer (id : string) (c : WebRTCConnection)
  : WebRTCConnection * list Action :=
  match JsMap.get id (peers c) with
  | Some pc =>
      if destroyed pc then (c, [])
      else
        ({| peers := JsMap.delete id (peers c);
            pendingSignals := delete id (pendingSignals c);
            allocated := allocated c |},
         [MarkDestroyed id; PeerDestroy (peer pc)])
  | None => (c, [])
  end.

(** The [forEach] of [closeAllConnections] over the entries still to visit:
    each entry is marked in the table, then its connection is destroyed. *)
Fixpoint closeLoop (entries table : list (string * PeerConnection))
  : list (string * PeerConnection) * list Action :=
  match entries with
  | [] => (table, [])
  | (id, pc) :: rest =>
      let table1 := JsMap.set id (set_destroyed pc) table in
      let '(table2, acts) := closeLoop rest table1 in
      (table2, MarkDestroyed id :: PeerDestroy (peer pc) :: acts)
  end.

(** [closeAllConnections] *)
Definition closeAllConnections (c : WebRTCConnection)
  : WebRTCConnection * list Action :=
  let '(_, acts) := closeLoop (peers c) (peers c) in
  ({| peers := []; pendingSignals := ∅; allocated := allocated c |}, acts).

(** The ['close'] and ['error'] callbacks that [createPeer] registers on a
    connection made for [id]: they mark whatever entry the table holds for
    [id] when they run.  simple-peer delivers both events from a
    microtask, so they run between two operations, never inside one. *)
Definition onPeerClosed (id : string) (c : WebRTCConnection)
  : WebRTCConnection * list Action :=
  match JsMap.get id (peers c) with
  | Some pc =>
      ({| peers := JsMap.set id (set_destroyed pc) (peers c);
          pendingSignals := pendingSignals c;
          allocated := allocated c |}, [MarkDestroyed id])
  | None => (c, [])
  end.

(** What can happen to a [WebRTCConnection]. *)
Inductive Op :=
| HandleSignal (signal : Signal) (from : string)
| CreatePeer (id : string) (ini : bool) (stream : MediaStream) (ctor_ok : bool)
| RemovePeer (id : string)
| CloseAllConnections
| PeerClosed (id : string)
| PeerErrored (id : string).

Definition step (op : Op) (c : WebRTCConnection)
  : WebRTCConnection * list Action :=
  match op with
  | HandleSignal signal from => handleSignal signal from c
  | CreatePeer id ini stream ok => (createPeer id ini stream ok c).1
  | RemovePeer id => removePeer id c
  | CloseAllConnections => closeAllConnections c
  | PeerClosed id => onPeerClosed id c
  | PeerErrored id => onPeerClosed id c
  end.

(** Running a sequence of operations, with the actions in order. *)
Fixpoint run (ops : list Op) (c : WebRTCConnection)
  : WebRTCConnection * list Action :=
  match ops with
  | [] => (c, [])
  | op :: ops' =>
      let '(c1, a1) := step op c in
      let '(c2, a2) := run ops' c1 in
      (c2, a1 ++ a2)
  end.

Inductive reachable : WebRTCConnection -> Prop :=
| reachable_init : reachable init
| reachable_step op c : reachable c -> reachable (step op c).1.

(** The queue of [id], empty when there is none. *)
Definition queue (id : string) (c : WebRTCConnection) : list Signal :=
  default [] (pendingSignals c !! id).

(** The connections held by the table. *)
Definition handles (c : WebRTCConnection) : list nat :=
  peer <$> JsMap.values (peers c).

(** An entry for [id] that is marked destroyed. *)
Definition stale (id : string) (c : WebRTCConnection) : Prop :=
  exists pc, JsMap.get id (peers c) = Some pc /\ destroyed pc = true.

(** Between [c] and [c'] the entry of [id] went away or was replaced, or
    the queue of [id] was deleted. *)
Definition purged (id : string) (c c' : WebRTCConnection) : Prop :=
  JsMap.get id (peers c') <> JsMap.get id (peers c)
  \/ (is_Some (pendingSignals c !! id) /\ pendingSignals c' !! id = None).

Definition is_createPeer (id : string) (op : Op) : Prop :=
  exists ini stream ok, op = CreatePeer id ini stream ok.

(** Every operation that removes a destroyed entry or its queue is a
    [createPeer] for that peer. *)
Definition purged_only_by_createPeer : Prop :=
  forall c id op,
    reachable c -> stale id c -> purged id c (step op c).1 ->
    is_createPeer id op.

(** No live entry has a queue. *)
Definition queue_free_when_live (c : WebRTCConnection) : Prop :=
  forall id, hasPeer id c = true -> pendingSignals c !! id = None.

(** Every connection in the table was constructed at or after [n], and
    the next one will be. *)
Definition handles_from (n : nat) (c : WebRTCConnection) : Prop :=
  (forall id pc, (id, pc) ∈ peers c -> n <= peer pc) /\ n <= allocated c.

(** Every connection in the table has been constructed already. *)
Definition handles_allocated (c : WebRTCConnection) : Prop :=
  forall id pc, (id, pc) ∈ peers c -> peer pc < allocated c.

(** Two-phase teardown: every write of a [destroyed] flag comes before
    every [destroy()] call. *)
Definition marks_precede_destroys (acts : list Action) : Prop :=
  forall i j h id,
    acts !! i = Some (PeerDestroy h) ->
    acts !! j = Some (MarkDestroyed id) -> j < i.

(** Entry-wise teardown: every [destroy()] call comes right after the write
    of the [destroyed] flag of an entry of [table] that holds the
    connection. *)
Definition each_marked_then_destroyed
  (table : list (string * PeerConnection)) (acts : list Action) : Prop :=
  forall i h,
    acts !! i = Some (PeerDestroy h) ->
    exists j id pc,
      i = S j /\ acts !! j = Some (MarkDestroyed id)
      /\ (id, pc) ∈ table /\ peer pc = h.

(** The arrival of [signals], in order, from peer [X]. *)
Definition arrivals (X : string) (signals : list Signal) : list Op :=
  (fun s => HandleSignal s X) <$> signals.

(** Sample tables: two live connections; a destroyed entry that has a
    queue. *)
Definition two_peers : WebRTCConnection :=
  (run [CreatePeer "alice" true 0 true; CreatePeer "bob" true 0 true] init).1.

Definition stale_with_queue : WebRTCConnection :=
  (run [CreatePeer "bob" true 0 true; PeerClosed "bob";
        HandleSignal "candidate" "bob"] init).1.

(** *** Callbacks and the stream fallback *)

(** What the client sends on its socket. *)
Inductive SocketEmit :=
| SendSignal (signal : Signal) (to : string).

(** The ['signal'] callback that [createPeer] registers on a connection
    made for [id]: the signal is sent on only while the table holds a
    non-destroyed entry for [id]. *)
Definition onPeerSignal (id : string) (signal : Signal) (c : WebRTCConnection)
  : list SocketEmit :=
  match JsMap.get id (peers c) with
  | Some pc => if destroyed pc then [] else [SendSignal signal id]
  | None => []
  end.

(** The ['stream'] callback that [createPeer] registers on a connection
    made for [id]: whether [onStreamCallback] is called.
    [onStreamCallback] says whether a callback is set. *)
Definition onPeerStream (onStreamCallback : bool) (id : string)
  (c : WebRTCConnection) : bool :=
  onStreamCallback &&
  match JsMap.get id (peers c) with
  | Some pc => negb (destroyed pc)
  | None => false
  end.

(** The fallback of [replaceTrackWithScreen] and [stopScreenSharing] for
    the entry [pc], when the track could not be replaced on its sender:
    [removePeer(peerId)] and then [createPeer(peerId, wasInitiator,
    newStream)]. *)
Definition recreatePeer (pc : PeerConnection) (newStream : MediaStream)
  (ctor_ok : bool) (c : WebRTCConnection)
  : WebRTCConnection * list Action * option PeerConnection :=
  let '(c1, a1) := removePeer (peerId pc) c in
  let '(c2, a2, r) := createPeer (peerId pc) (initiator pc) newStream ctor_ok c1 in
  (c2, a1 ++ a2, r).

(** The table has one entry per peer id, stored under that id, and no two
    entries hold the same connection; every connection in it has been
    constructed. *)
Definition table_wf (c : WebRTCConnection) : Prop :=
  NoDup (peers c).*1
  /\ (forall k pc, (k, pc) ∈ peers c -> peerId pc = k)
  /\ NoDup (handles c)
  /\ handles_allocated c.

(** [op] is a [createPeer] for [id] whose constructor succeeds. *)
Definition creates (id : string) (op : Op) : Prop :=
  exists ini stream, op = CreatePeer id ini stream true.

End WebRTC.

(** ** The signalling server ([src/server.js]) *)

Module Server.

(** The object [newUser] of the [join-room] handler, with the media flags
    that [update-media] may add to a roster entry later ([None]: the key is
    absent). *)
Module User.
Record t := {
  id : string;
  socketId : string;
  name : string;
  roomId : string;
  audioEnabled : option bool;
  videoEnabled : option bool;
  isScreenSharing : option bool;
}.
End User.

(** The [updates] object of [update-media], a [Partial<Participant>] on the
    client ([None]: the key is absent).  The handler copies every key of
    the object into the roster entry; the keys that a participant has are
    modelled, others, [roomId] and [socketId] among them, are not. *)
Module Updates.
Record t := {
  id : option string;
  name : option string;
  audioEnabled : option bool;
  videoEnabled : option bool;
  isScreenSharing : option bool;
}.
End Updates.

(** [message.sender] as it arrives, a JSON value or nothing, as far as
    the handler looks at it: its type, its truth, and for an object the
    value of its [name] property ([SenderMissing]: the key is absent).
    An array is an object without a [name] property.  For a number only
    its being zero matters to the handler. *)
Inductive Sender :=
| SenderMissing
| SenderNull
| SenderBoolean (b : bool)
| SenderNumber (n : Z)
| SenderString (s : string)
| SenderObject (name : Sender).

Module ChatMessage.
Record t := {
  id : string;
  sender : Sender;
  text : string;
  timestamp : Z;
}.
End ChatMessage.

Module Room.
Record t := {
  id : string;
  users : list User.t;
  messages : list ChatMessage.t;
}.
End Room.

#[global] Instance User_eq_dec : EqDecision User.t.
Proof. solve_decision. Defined.
#[global] Instance Updates_eq_dec : EqDecision Updates.t.
Proof. solve_decision. Defined.
#[global] Instance Sender_eq_dec : EqDecision Sender.
Proof. solve_decision. Defined.
#[global] Instance ChatMessage_eq_dec : EqDecision ChatMessage.t.
Proof. solve_decision. Defined.
#[global] Instance Room_eq_dec : EqDecision Room.t.
Proof. solve_decision. Defined.

(** The events the server emits, with their payloads. *)
Inductive Event :=
| UserJoined (user : User.t) (users : list User.t)
| RoomInfo (room : Room.t)
| UserLeft (userId : string) (users : list User.t)
| SignalEvent (signal : string) (from : string)
| UpdateMedia (userId : string) (updates : Updates.t)
| NewMessage (message : ChatMessage.t).

#[global] Instance Event_eq_dec : EqDecision Event.
Proof. solve_decision. Defined.

(** [ToRoom r e] is [io.to(roomId).emit(..)]; [ToSocket s e] is
    [socket.emit(..)] and [io.to(targetUser.socketId).emit(..)].
    Socket.IO keeps every socket in a room named by its own id; the ids it
    generates for sockets and the room ids that clients choose are taken to
    be distinct names. *)
Inductive Emit :=
| ToRoom (roomId : string) (e : Event)
| ToSocket (socketId : string) (e : Event).

(** The module-level [rooms] and [users] maps, and the room membership of
    the Socket.IO adapter ([socket.join], [socket.leave]) as pairs of a
    room id and a socket id. *)
Record State := {
  rooms : gmap string Room.t;
  users : list (string * User.t);
  joined : gset (string * string);
}.

Definition init : State := {| rooms := ∅; users := []; joined := ∅ |}.

(** The events that socket [t] gets from a list of emissions, in order,
    with the adapter membership of [st]. *)
Definition receives (st : State) (t : string) (em : Emit) : option Event :=
  match em with
  | ToRoom r e => if decide ((r, t) ∈ joined st) then Some e else None
  | ToSocket s e => if decide (s = t) then Some e else None
  end.

Definition received (st : State) (t : string) (ems : list Emit) : list Event :=
  omap (receives st t) ems.

(** The emission goes to the Socket.IO room [R], as [io.to(R).emit]
    does.  The relay of the signal handler is one, to the room named by
    the socket id of the target; [socket.emit] of the join-room handler
    is none. *)
Definition emits_to (R : string) (em : Emit) : Prop :=
  match em with
  | ToRoom r _ => r = R
  | ToSocket s (SignalEvent _ _) => s = R
  | ToSocket _ _ => False
  end.

(** The events that socket [t] gets when the room named by its own id is
    counted: Socket.IO puts every socket into that room when it connects,
    so an emission to a room reaches the sockets that joined the room and
    the socket of that name.  (A socket that has left the room of its own
    id by a leave-room for it gets less; the statements that use [heard]
    exclude events for a room of that name.) *)
Definition hears (st : State) (t : string) (em : Emit) : option Event :=
  match em with
  | ToRoom r e => if decide ((r, t) ∈ joined st \/ r = t) then Some e else None
  | ToSocket s (SignalEvent sig from) =>
      if decide ((s, t) ∈ joined st \/ s = t)
      then Some (SignalEvent sig from) else None
  | ToSocket s e => if decide (s = t) then Some e else None
  end.

Definition heard (st : State) (t : string) (ems : list Emit) : list Event :=
  omap (hears st t) ems.

(** [room.users.filter((user) => user.id !== userId)] *)
Definition without (userId : string) (us : list User.t) : list User.t :=
  filter (fun u => User.id u <> userId) us.

(** [user.id || uuidv4()]: [uuid] is what [uuidv4()] returns when called. *)
Definition join_id (id : option string) (uuid : string) : string :=
  match id with
  | Some i => if decide (i = "") then uuid else i
  | None => uuid
  end.

(** The [join-room] handler, on socket [s], for a payload
    [{ roomId, user: { id, name } }] ([id = None]: the key is absent).
    With a payload of this shape no statement of the handler throws, so
    its [catch] branch is not taken; the same holds for the other
    handlers, but for [send-message] with a [null] sender. *)
Definition join_room (s roomId : string) (id : option string) (name uuid : string)
  (st : State) : State * list Emit :=
  let newUser :=
    {| User.id := join_id id uuid; User.socketId := s; User.name := name;
       User.roomId := roomId; User.audioEnabled := None;
       User.videoEnabled := None; User.isScreenSharing := None |} in
  let room0 :=
    match rooms st !! roomId with
    | Some room => room
    | None => {| Room.id := roomId; Room.users := []; Room.messages := [] |}
    end in
  let room :=
    {| Room.id := Room.id room0; Room.users := Room.users room0 ++ [newUser];
       Room.messages := Room.messages room0 |} in
  ({| rooms := <[roomId := room]> (rooms st);
      users := JsMap.set s newUser (users st);
      joined := {[ (roomId, s) ]} ∪ joined st |},
   [ToRoom roomId (UserJoined newUser (Room.users room));
    ToSocket s (RoomInfo room)]).

(** The [leave-room] handler, on socket [s]. *)
Definition leave_room (s roomId userId : string) (st : State)
  : State * list Emit :=
  match rooms st !! roomId with
  | None => (st, [])
  | Some room =>
      let room' :=
        {| Room.id := Room.id room;
           Room.users := without userId (Room.users room);
           Room.messages := Room.messages room |} in
      ({| rooms :=
            if decide (length (Room.users room') = 0)
            then delete roomId (rooms st)
            else <[roomId := room']> (rooms st);
          users := JsMap.delete s (users st);
          joined := joined st ∖ {[ (roomId, s) ]} |},
       [ToRoom roomId (UserLeft userId (Room.users room'))])
  end.

(** The [signal] handler, on socket [s]. *)
Definition signal (s : string) (sig to : string) (st : State)
  : State * list Emit :=
  match JsMap.get s (users st) with
  | None => (st, [])
  | Some fromUser =>
      match list_find (fun u => User.id u = to) (JsMap.values (users st)) with
      | Some (_, targetUser) =>
          (st, [ToSocket (User.socketId targetUser)
                  (SignalEvent sig (User.id fromUser))])
      | None => (st, [])
      end
  end.

(** [{ ...room.users[userIndex], ...updates }] *)
Definition merge (u : User.t) (up : Updates.t) : User.t :=
  {| User.id := default (User.id u) (Updates.id up);
     User.socketId := User.socketId u;
     User.name := default (User.name u) (Updates.name up);
     User.roomId := User.roomId u;
     User.audioEnabled :=
       match Updates.audioEnabled up with
       | Some b => Some b | None => User.audioEnabled u end;
     User.videoEnabled :=
       match Updates.videoEnabled up with
       | Some b => Some b | None => User.videoEnabled u end;
     User.isScreenSharing :=
       match Updates.isScreenSharing up with
       | Some b => Some b | None => User.isScreenSharing u end |}.

(** The [update-media] handler. *)
Definition update_media (roomId userId : string) (updates : Updates.t)
  (st : State) : State * list Emit :=
  match rooms st !! roomId with
  | None => (st, [])
  | Some room =>
      match list_find (fun u => User.id u = userId) (Room.users room) with
      | None => (st, [])
      | Some (userIndex, u) =>
          let room' :=
            {| Room.id := Room.id room;
               Room.users := <[userIndex := merge u updates]> (Room.users room);
               Room.messages := Room.messages room |} in
          ({| rooms := <[roomId := room']> (rooms st);
              users := users st;
              joined := joined st |},
           [ToRoom roomId (UpdateMedia userId updates)])
      end
  end.

(** The truth of a value, as [||] tests it. *)
Definition truthy (v : Sender) : bool :=
  match v with
  | SenderMissing | SenderNull => false
  | SenderBoolean b => b
  | SenderNumber n => bool_decide (n <> 0%Z)
  | SenderString s => bool_decide (s <> "")
  | SenderObject _ => true
  end.

(** The sender rewrite of [send-message]:
    [message.sender.name || 'Unknown'] when [typeof message.sender] is
    ['object'].  That holds for [null] too, and reading [null.name]
    throws ([None]). *)
Definition normalize (message : ChatMessage.t) : option ChatMessage.t :=
  match ChatMessage.sender message with
  | SenderNull => None
  | SenderObject name =>
      Some {| ChatMessage.id := ChatMessage.id message;
              ChatMessage.sender :=
                if truthy name then name else SenderString "Unknown";
              ChatMessage.text := ChatMessage.text message;
              ChatMessage.timestamp := ChatMessage.timestamp message |}
  | _ => Some message
  end.

(** The [send-message] handler, for a [message] that is an object.  When
    the sender rewrite throws, the [catch] branch logs the error: nothing
    has been stored by then and nothing is emitted. *)
Definition send_message (roomId : string) (message : ChatMessage.t)
  (st : State) : State * list Emit :=
  match rooms st !! roomId with
  | None => (st, [])
  | Some room =>
      match normalize message with
      | None => (st, [])
      | Some message' =>
          let room' :=
            {| Room.id := Room.id room; Room.users := Room.users room;
               Room.messages := Room.messages room ++ [message'] |} in
          ({| rooms := <[roomId := room']> (rooms st);
              users := users st;
              joined := joined st |},
           [ToRoom roomId (NewMessage message')])
      end
  end.

(** The [disconnect] handler, on socket [s].  Socket.IO has taken the
    socket out of every room before the handler runs. *)
Definition disconnect (s : string) (st : State) : State * list Emit :=
  let joined' := filter (fun p => p.2 <> s) (joined st) in
  match JsMap.get s (users st) with
  | Some user =>
      if decide (User.roomId user = "") then
        ({| rooms := rooms st; users := users st; joined := joined' |}, [])
      else
        match rooms st !! User.roomId user with
        | Some room =>
            let room' :=
              {| Room.id := Room.id room;
                 Room.users := without (User.id user) (Room.users room);
                 Room.messages := Room.messages room |} in
            if decide (length (Room.users room') = 0) then
              ({| rooms := delete (User.roomId user) (rooms st);
                  users := JsMap.delete s (users st);
                  joined := joined' |}, [])
            else
              ({| rooms := <[User.roomId user := room']> (rooms st);
                  users := JsMap.delete s (users st);
                  joined := joined' |},
               [ToRoom (User.roomId user)
                  (UserLeft (User.id user) (Room.users room'))])
        | None =>
            ({| rooms := rooms st;
                users := JsMap.delete s (users st);
                joined := joined' |}, [])
        end
  | None => ({| rooms := rooms st; users := users st; joined := joined' |}, [])
  end.

(** The inbound events, each with the socket it arrives on. *)
Inductive Op :=
| JoinRoom (s roomId : string) (id : option string) (name uuid : string)
| LeaveRoom (s roomId userId : string)
| SignalTo (s : string) (sig to : string)
| UpdateMediaOf (s : string) (roomId userId : string) (updates : Updates.t)
| SendMessage (s : string) (roomId : string) (message : ChatMessage.t)
| Disconnect (s : string).

Definition step (op : Op) (st : State) : State * list Emit :=
  match op with
  | JoinRoom s roomId id name uuid => join_room s roomId id name uuid st
  | LeaveRoom s roomId userId => leave_room s roomId userId st
  | SignalTo s sig to => signal s sig to st
  | UpdateMediaOf _ roomId userId updates => update_media roomId userId updates st
  | SendMessage _ roomId message => send_message roomId message st
  | Disconnect s => disconnect s st
  end.

(** The state after a sequence of events, oldest first. *)
Definition run (ops : list Op) (st : State) : State :=
  fold_left (fun st op => (step op st).1) ops st.

Inductive reachable : State -> Prop :=
| reachable_init : reachable init
| reachable_step op st : reachable st -> reachable (step op st).1.


(** The roster and the chat history of a room; empty when the registry has
    no such room. *)
Definition roster (roomId : string) (st : State) : list User.t :=
  match rooms st !! roomId with
  | Some room => Room.users room
  | None => []
  end.

Definition history (roomId : string) (st : State) : list ChatMessage.t :=
  match rooms st !! roomId with
  | Some room => Room.messages room
  | None => []
  end.

(** [users.get(socket.id)]: the participant bound to a transport. *)
Definition resolveParticipantByTransport (s : string) (st : State)
  : option User.t :=
  JsMap.get s (users st).

(** Transport [t] is bound to participant [X]. *)
Definition bound_to (t X : string) (st : State) : Prop :=
  exists u, JsMap.get t (users st) = Some u /\ User.id u = X.


(** A participant in a room as the history of events tells it, without
    a look at the registry: the transport it joined on, the room, and the
    record of its join. *)
Module Member.
Record t := {
  transport : string;
  roomId : string;
  user : User.t;
}.
End Member.

(** What an event does to the participants that are in rooms: a join adds
    the joiner at the end; a leave-room for an id takes the participants
    with that id out of that room; the disconnect of a transport takes
    out the participants that joined on it, in every room. *)
Definition joins_leaves (op : Op) (ms : list Member.t) : list Member.t :=
  match op with
  | JoinRoom s roomId id name uuid =>
      ms ++ [{| Member.transport := s; Member.roomId := roomId;
                Member.user :=
                  {| User.id := join_id id uuid; User.socketId := s;
                     User.name := name; User.roomId := roomId;
                     User.audioEnabled := None; User.videoEnabled := None;
                     User.isScreenSharing := None |} |}]
  | LeaveRoom _ roomId userId =>
      filter (fun m => ~ (Member.roomId m = roomId
                          /\ User.id (Member.user m) = userId)) ms
  | Disconnect s => filter (fun m => Member.transport m <> s) ms
  | _ => ms
  end.

Definition members_from (ms : list Member.t) (ops : list Op) : list Member.t :=
  fold_left (fun ms op => joins_leaves op ms) ops ms.

(** The participants that joined room [R] during [ops] and have not since
    left, in the order of their joins. *)
Definition joined_not_left (ops : list Op) (R : string) : list User.t :=
  Member.user <$> filter (fun m => Member.roomId m = R) (members_from [] ops).

(** After the events [ops], the roster of room [R] is the list of the
    participants that joined and have not since left, and the registry has
    the room exactly when that list is not empty. *)
Definition roster_tracks_history (ops : list Op) (R : string) : Prop :=
  roster R (run ops init) = joined_not_left ops R
  /\ (is_Some (rooms (run ops init) !! R) <-> joined_not_left ops R <> []).




(** Every signal event is relayed to the transport bound to its target. *)
Definition every_signal_relayed : Prop :=
  forall st s sig to t,
    reachable st ->
    bound_to t to st -> (forall t', bound_to t' to st -> t' = t) ->
    exists from, ToSocket t (SignalEvent sig from) ∈ (signal s sig to st).2.





(** What [merge] leaves alone and what it takes from the update. *)
Definition merged (u : User.t) (up : Updates.t) (u' : User.t) : Prop :=
  User.socketId u' = User.socketId u
  /\ User.roomId u' = User.roomId u
  /\ (Updates.id up = None -> User.id u' = User.id u)
  /\ (Updates.name up = None -> User.name u' = User.name u)
  /\ (Updates.audioEnabled up = None ->
      User.audioEnabled u' = User.audioEnabled u)
  /\ (Updates.videoEnabled up = None ->
      User.videoEnabled u' = User.videoEnabled u)
  /\ (Updates.isScreenSharing up = None ->
      User.isScreenSharing u' = User.isScreenSharing u)
  /\ (forall i, Updates.id up = Some i -> User.id u' = i)
  /\ (forall n, Updates.name up = Some n -> User.name u' = n)
  /\ (forall b, Updates.audioEnabled up = Some b ->
        User.audioEnabled u' = Some b)
  /\ (forall b, Updates.videoEnabled up = Some b ->
        User.videoEnabled u' = Some b)
  /\ (forall b, Updates.isScreenSharing up = Some b ->
        User.isScreenSharing u' = Some b).

(** The rooms of the registry are stored under their own id and have
    someone in them. *)
Definition rooms_wf (st : State) : Prop :=
  forall R room,
    rooms st !! R = Some room -> Room.id room = R /\ Room.users room <> [].

(** The binding table has one entry per transport, stored under the
    transport's id. *)
Definition users_wf (st : State) : Prop :=
  NoDup (users st).*1
  /\ forall k u, (k, u) ∈ users st -> User.socketId u = k.

(** [st'] is [st] after participant [to] has moved from transport [old]
    to transport [new]: the disconnect of [old] and the join on [new], in
    either order. *)
Definition rebound (st : State) (to old new roomId name uuid : string)
  (st' : State) : Prop :=
  st' = (join_room new roomId (Some to) name uuid (disconnect old st).1).1
  \/ (old <> new
      /\ st' = (disconnect old (join_room new roomId (Some to) name uuid st).1).1).

(** The room that an event arriving in state [st] is about, if any: the
    room of its payload; for a disconnect the room of the participant
    bound to the transport; for a signal from a bound transport the room
    named by the socket id of the target, to which the relay emits. *)
Definition room_of (op : Op) (st : State) : option string :=
  match op with
  | JoinRoom _ R _ _ _ | LeaveRoom _ R _ | UpdateMediaOf _ R _ _
  | SendMessage _ R _ => Some R
  | SignalTo s _ to =>
      match JsMap.get s (users st) with
      | Some _ =>
          (fun found => User.socketId found.2)
          <$> list_find (fun u => User.id u = to) (JsMap.values (users st))
      | None => None
      end
  | Disconnect s => User.roomId <$> resolveParticipantByTransport s st
  end.

(** A roster entry, for examples. *)
Definition alice_record : User.t :=
  {| User.id := "alice"; User.socketId := "s1"; User.name := "Alice";
     User.roomId := "abc-def-ghi"; User.audioEnabled := None;
     User.videoEnabled := Some false; User.isScreenSharing := None |}.

(** Sample registries. *)
Definition alice_and_bob : State :=
  run [JoinRoom "s1" "abc-def-ghi" (Some "alice") "Alice" "uuid-1";
       JoinRoom "s2" "abc-def-ghi" (Some "bob") "Bob" "uuid-2"] init.

Definition alice_alone : State :=
  run [JoinRoom "s1" "abc-def-ghi" (Some "alice") "Alice" "uuid-1"] init.

(** A table where participant bob is bound twice: the entry of "s1" is
    still there when bob joins again on "s2". *)
Definition rebound_early : State :=
  run [JoinRoom "s1" "abc-def-ghi" (Some "bob") "Bob" "uuid-1";
       JoinRoom "s2" "abc-def-ghi" (Some "bob") "Bob" "uuid-2";
       JoinRoom "s3" "abc-def-ghi" (Some "alice") "Alice" "uuid-3"] init.

End Server.

(** ** The meeting room component ([src/app/components/MeetingRoom.tsx])
    and the participant list ([ParticipantList]) *)

Module Client.
Import WebRTC.

(** [interface Participant] of [MeetingRoom]; [ParticipantList] has the
    same without [stream]. *)
Module Participant.
Record t := {
  id : string;
  name : string;
  audioEnabled : bool;
  videoEnabled : bool;
  isScreenSharing : bool;
  stream : option MediaStream;
}.
End Participant.

(** *** Signalling *)

(** The listener that the [WebRTCConnection] constructor registers for the
    signal event. *)
Definition classOnSignal (signal : Signal) (from : string)
  (c : WebRTCConnection) : WebRTCConnection * list Action :=
  handleSignal signal from c.

(** The listener [handleSignal] of [MeetingRoom], with the connection
    object and the local stream in place: the signal goes to
    [handleSignal], then a connection is created as non-initiator if the
    sender has none.  An exception of [createPeer] is caught. *)
Definition roomOnSignal (signal : Signal) (from : string)
  (localStream : MediaStream) (ctor_ok : bool) (c : WebRTCConnection)
  : WebRTCConnection * list Action :=
  let '(c1, a1) := handleSignal signal from c in
  if hasPeer from c1 then (c1, a1)
  else
    let '(c2, a2, _) := createPeer from false localStream ctor_ok c1 in
    (c2, a1 ++ a2).

(** One signal event with both listeners installed, in the order of their
    registration. *)
Definition receiveSignal (signal : Signal) (from : string)
  (localStream : MediaStream) (ctor_ok : bool) (c : WebRTCConnection)
  : WebRTCConnection * list Action :=
  let '(c1, a1) := classOnSignal signal from c in
  let '(c2, a2) := roomOnSignal signal from localStream ctor_ok c1 in
  (c2, a1 ++ a2).

(** [handleNewParticipant]: a joined-event for another user creates a
    connection to it as initiator. *)
Definition handleNewParticipant (userId : string) (user : Server.User.t)
  (localStream : MediaStream) (ctor_ok : bool) (c : WebRTCConnection)
  : WebRTCConnection * list Action :=
  if decide (Server.User.id user = userId) then (c, [])
  else (createPeer (Server.User.id user) true localStream ctor_ok c).1.

(** The loop over the existing participants: a connection is created, as
    initiator, to every participant other than oneself that has no live
    one.  [ctor_ok n] is the outcome of [new Peer] for the participant at
    position [n]. *)
Fixpoint connectExisting (participants : list Participant.t) (userId : string)
  (localStream : MediaStream) (ctor_ok : nat -> bool) (c : WebRTCConnection)
  : WebRTCConnection * list Action :=
  match participants with
  | [] => (c, [])
  | participant :: rest =>
      let '(c1, a1) :=
        if decide (Participant.id participant = userId) then (c, [])
        else if hasPeer (Participant.id participant) c then (c, [])
        else
          (createPeer (Participant.id participant) true localStream
             (ctor_ok 0) c).1 in
      let '(c2, a2) :=
        connectExisting rest userId localStream (fun n => ctor_ok (S n)) c1 in
      (c2, a1 ++ a2)
  end.

(** A participant with the flags of a fresh join, for examples. *)
Definition sample (id : string) : Participant.t :=
  {| Participant.id := id; Participant.name := id;
     Participant.audioEnabled := true; Participant.videoEnabled := true;
     Participant.isScreenSharing := false; Participant.stream := None |}.

(** An action of the connect loop: a construction as initiator with the
    local stream, or the replay of a queued signal. *)
Definition connects (localStream : MediaStream) (a : Action) : Prop :=
  (exists h, a = NewPeer h true localStream)
  \/ exists h signal, a = PeerSignal h signal.

(** *** The list of the other participants *)

(** The room-info listener of [MeetingRoom]. *)
Definition roomInfo (userId : string) (room : Server.Room.t)
  : list Participant.t :=
  (fun user =>
     {| Participant.id := Server.User.id user;
        Participant.name := Server.User.name user;
        Participant.audioEnabled := true;
        Participant.videoEnabled := true;
        Participant.isScreenSharing := false;
        Participant.stream := None |})
  <$> filter (fun u => Server.User.id u <> userId) (Server.Room.users room).

(** A roster entry as a participant, with the defaults for absent flags. *)
Definition fromUser (user : Server.User.t) : Participant.t :=
  {| Participant.id := Server.User.id user;
     Participant.name := Server.User.name user;
     Participant.audioEnabled := default true (Server.User.audioEnabled user);
     Participant.videoEnabled := default true (Server.User.videoEnabled user);
     Participant.isScreenSharing :=
       default false (Server.User.isScreenSharing user);
     Participant.stream := None |}.

(** The room-info listener of [ParticipantList]. *)
Definition roomInfoList (currentUserId : string) (room : Server.Room.t)
  : list Participant.t :=
  fromUser
  <$> filter (fun u => Server.User.id u <> currentUserId) (Server.Room.users room).

(** [prev.some(p => p.id === id)] *)
Definition known (id : string) (prev : list Participant.t) : bool :=
  bool_decide (Exists (fun p => Participant.id p = id) prev).

(** The joined-event listener of both components. *)
Definition participantJoined (prev : list Participant.t) (user : Server.User.t)
  : list Participant.t :=
  if known (Server.User.id user) prev then prev else prev ++ [fromUser user].

(** The left-event listener of both components, on the list. *)
Definition participantLeft (prev : list Participant.t) (leftUserId : string)
  : list Participant.t :=
  filter (fun p => Participant.id p <> leftUserId) prev.

(** [{ ...p, ...updates }] *)
Definition merge (p : Participant.t) (up : Server.Updates.t) : Participant.t :=
  {| Participant.id := default (Participant.id p) (Server.Updates.id up);
     Participant.name := default (Participant.name p) (Server.Updates.name up);
     Participant.audioEnabled :=
       default (Participant.audioEnabled p) (Server.Updates.audioEnabled up);
     Participant.videoEnabled :=
       default (Participant.videoEnabled p) (Server.Updates.videoEnabled up);
     Participant.isScreenSharing :=
       default (Participant.isScreenSharing p)
         (Server.Updates.isScreenSharing up);
     Participant.stream := Participant.stream p |}.

(** The update-media listener of [ParticipantList]. *)
Definition updateMediaList (prev : list Participant.t) (userId : string)
  (updates : Server.Updates.t) : list Participant.t :=
  (fun p => if decide (Participant.id p = userId) then merge p updates else p)
  <$> prev.

(** The update-media listener of [MeetingRoom], which skips the updates of
    its own user. *)
Definition updateMedia (userId : string) (prev : list Participant.t)
  (updatedUserId : string) (updates : Server.Updates.t) : list Participant.t :=
  if decide (updatedUserId = userId) then prev
  else updateMediaList prev updatedUserId updates.

(** The list part of [handleRemoteStream]. *)
Definition handleRemoteStream (prev : list Participant.t) (peerId : string)
  (stream : MediaStream) : list Participant.t :=
  (fun p =>
     if decide (Participant.id p = peerId) then
       {| Participant.id := Participant.id p;
          Participant.name := Participant.name p;
          Participant.audioEnabled := Participant.audioEnabled p;
          Participant.videoEnabled := Participant.videoEnabled p;
          Participant.isScreenSharing := Participant.isScreenSharing p;
          Participant.stream := Some stream |}
     else p)
  <$> prev.

(** What a component does with an event of the server. *)
Definition onEvent (userId : string) (prev : list Participant.t)
  (e : Server.Event) : list Participant.t :=
  match e with
  | Server.UserJoined user _ => participantJoined prev user
  | Server.RoomInfo room => roomInfo userId room
  | Server.UserLeft leftUserId _ => participantLeft prev leftUserId
  | Server.UpdateMedia updatedUserId updates =>
      updateMedia userId prev updatedUserId updates
  | _ => prev
  end.

(** A component takes the events in the order it gets them. *)
Definition onEvents (userId : string) (prev : list Participant.t)
  (events : list Server.Event) : list Participant.t :=
  fold_left (onEvent userId) events prev.

(** The ids of a list of participants. *)
Definition ids (ps : list Participant.t) : list string :=
  Participant.id <$> ps.

(** A participant as the room-info listener of [MeetingRoom] makes it. *)
Definition unmuted (p : Participant.t) : Prop :=
  Participant.audioEnabled p = true
  /\ Participant.videoEnabled p = true
  /\ Participant.isScreenSharing p = false
  /\ Participant.stream p = None.

(** The list shows the room: its ids are the ids of the roster entries
    other than the own one. *)
Definition shows (self roomId : string) (ps : list Participant.t)
  (st : Server.State) : Prop :=
  forall i,
    i ∈ ids ps <->
    i <> self /\ i ∈ Server.User.id <$> Server.roster roomId st.

(** The client on transport [t] is in room [roomId] as [self], in no other
    room, and its list shows the room. *)
Definition in_sync (self t roomId : string) (ps : list Participant.t)
  (st : Server.State) : Prop :=
  shows self roomId ps st
  /\ self ∈ Server.User.id <$> Server.roster roomId st
  /\ (roomId, t) ∈ Server.joined st
  /\ forall R, (R, t) ∈ Server.joined st -> R = roomId.

(** An event that arrives at the server in state [st] and is none of the
    client's own joins, leaves or disconnects, does not join or remove
    the id [self] in room [roomId], does not rename a participant, and is
    about no room that is named like the client's socket [t]. *)
Definition foreign (self t roomId : string) (st : Server.State)
  (op : Server.Op) : Prop :=
  match op with
  | Server.JoinRoom s R id _ uuid =>
      s <> t /\ R <> t /\ (R = roomId -> Server.join_id id uuid <> self)
  | Server.LeaveRoom s R userId =>
      s <> t /\ R <> t /\ (R = roomId -> userId <> self)
  | Server.UpdateMediaOf _ R _ updates =>
      R <> t /\ Server.Updates.id updates = None
  | Server.Disconnect s =>
      s <> t
      /\ forall u,
           Server.resolveParticipantByTransport s st = Some u ->
           Server.User.roomId u <> t
           /\ (Server.User.roomId u = roomId -> Server.User.id u <> self)
  | _ => True
  end.

Fixpoint all_foreign (self t roomId : string) (st : Server.State)
  (ops : list Server.Op) : Prop :=
  match ops with
  | [] => True
  | op :: ops' =>
      foreign self t roomId st op
      /\ all_foreign self t roomId (Server.step op st).1 ops'
  end.

(** The list of the client on transport [t] after the server has handled
    [ops]: for each event of the server, the client handles what reaches
    its transport. *)
Fixpoint follow (self t : string) (ps : list Participant.t)
  (st : Server.State) (ops : list Server.Op) : list Participant.t :=
  match ops with
  | [] => ps
  | op :: ops' =>
      follow self t
        (onEvents self ps
           (Server.heard (Server.step op st).1 t (Server.step op st).2))
        (Server.step op st).1 ops'
  end.

(** *** Chat *)

(** The chat-message listener of [MeetingRoom]: a message whose id is in
    the list already is dropped. *)
Definition chatMessage (prev : list Server.ChatMessage.t)
  (message : Server.ChatMessage.t) : list Server.ChatMessage.t :=
  if bool_decide
       (Exists (fun m => Server.ChatMessage.id m = Server.ChatMessage.id message)
          prev)
  then prev else prev ++ [message].

(** The list part of [sendMessage]: the own message is shown at once. *)
Definition sendMessage (prev : list Server.ChatMessage.t)
  (message : Server.ChatMessage.t) : list Server.ChatMessage.t :=
  prev ++ [message].

(** What the chat list does with an event of the server. *)
Definition onChatEvent (prev : list Server.ChatMessage.t) (e : Server.Event)
  : list Server.ChatMessage.t :=
  match e with
  | Server.NewMessage message => chatMessage prev message
  | _ => prev
  end.

(** A chat list takes the events in the order it gets them. *)
Definition onChatEvents (prev : list Server.ChatMessage.t)
  (events : list Server.Event) : list Server.ChatMessage.t :=
  fold_left onChatEvent events prev.

(** The chat list of the client on socket [t] after it has heard what
    the server emits while handling [ops], for a client that sends no
    message itself: a message of its own it shows before the server
    handles it, see [sendMessage]. *)
Fixpoint chatFollow (t : string) (chat : list Server.ChatMessage.t)
  (st : Server.State) (ops : list Server.Op) : list Server.ChatMessage.t :=
  match ops with
  | [] => chat
  | op :: ops' =>
      chatFollow t
        (onChatEvents chat
           (Server.heard (Server.step op st).1 t (Server.step op st).2))
        (Server.step op st).1 ops'
  end.

(** The message that an event at the server adds to the history of room
    [roomId], as the server stores it. *)
Definition sent (roomId : string) (op : Server.Op)
  : list Server.ChatMessage.t :=
  match op with
  | Server.SendMessage _ R message =>
      if decide (R = roomId) then option_list (Server.normalize message)
      else []
  | _ => []
  end.

(** A send-message event that is not the client's own, and whose room is
    not named like the client's socket [t]. *)
Definition others_chat (t : string) (op : Server.Op) : Prop :=
  match op with
  | Server.SendMessage s R _ => s <> t /\ R <> t
  | _ => True
  end.

(** The ids of a list of messages. *)
Definition messageIds (ms : list Server.ChatMessage.t) : list string :=
  Server.ChatMessage.id <$> ms.

End Client.

(** ** The local media of [WebRTCConnection] ([src/app/lib/webrtc.ts]) *)

Module LocalMedia.

Inductive Kind := Audio | Video.

#[global] Instance Kind_eq_dec : EqDecision Kind.
Proof. solve_decision. Defined.

(** A [MediaStreamTrack], as far as the code reads and writes it. *)
Record Track := {
  kind : Kind;
  enabled : bool;
}.

(** [toggleAudio] and [toggleVideo], on [localStream] ([None]: null). *)
Definition setEnabled (k : Kind) (value : bool) (track : Track) : Track :=
  if decide (kind track = k) then {| kind := kind track; enabled := value |}
  else track.

Definition toggleAudio (value : bool) (localStream : option (list Track))
  : option (list Track) :=
  match localStream with
  | Some tracks => Some (setEnabled Audio value <$> tracks)
  | None => None
  end.

Definition toggleVideo (value : bool) (localStream : option (list Track))
  : option (list Track) :=
  match localStream with
  | Some tracks => Some (setEnabled Video value <$> tracks)
  | None => None
  end.

(** The media state of [MeetingRoom]: the stream it got from
    [initLocalStream], which is the [localStream] object of the
    [WebRTCConnection], and its two flags. *)
Record RoomMedia := {
  localStream : option (list Track);
  isMuted : bool;
  isVideoOff : bool;
}.

(** [toggleAudio] of [MeetingRoom]: the new state and the [updates] of the
    update-media event it emits, if any. *)
Definition roomToggleAudio (m : RoomMedia)
  : RoomMedia * option Server.Updates.t :=
  match localStream m with
  | Some tracks =>
      let newState := negb (isMuted m) in
      ({| localStream :=
            toggleAudio (negb newState)
              (Some (setEnabled Audio (negb newState) <$> tracks));
          isMuted := newState;
          isVideoOff := isVideoOff m |},
       Some {| Server.Updates.id := None; Server.Updates.name := None;
               Server.Updates.audioEnabled := Some (negb newState);
               Server.Updates.videoEnabled := None;
               Server.Updates.isScreenSharing := None |})
  | None => (m, None)
  end.

(** [toggleVideo] of [MeetingRoom]. *)
Definition roomToggleVideo (m : RoomMedia)
  : RoomMedia * option Server.Updates.t :=
  match localStream m with
  | Some tracks =>
      let newState := negb (isVideoOff m) in
      ({| localStream :=
            toggleVideo (negb newState)
              (Some (setEnabled Video (negb newState) <$> tracks));
          isMuted := isMuted m;
          isVideoOff := newState |},
       Some {| Server.Updates.id := None; Server.Updates.name := None;
               Server.Updates.audioEnabled := None;
               Server.Updates.videoEnabled := Some (negb newState);
               Server.Updates.isScreenSharing := None |})
  | None => (m, None)
  end.

(** An error as [initLocalStream] looks at it. *)
Record MediaError := {
  name : string;
  message : string;
}.

(** How a call of [getUserMedia] ends. *)
Inductive Attempt :=
| Granted (stream : list Track)
| Refused (e : MediaError).

(** How [initLocalStream] ends: with the stream, or with a thrown error. *)
Inductive Outcome :=
| Resolved (stream : list Track)
| Rejected (e : MediaError).

(** [new Error(message)] *)
Definition error (message : string) : MediaError :=
  {| name := "Error"; message := message |}.

(** [initLocalStream(video, audio)].  [first] is how the race between
    [getUserMedia(constraints)] and the 15 s timer ends, [fallback] how the
    audio-only [getUserMedia] ends if it is called.  The result is the new
    [localStream], the outcome, and the tracks of the old stream, which
    are stopped.  The permission query before the first call changes
    nothing: what it throws is caught and logged. *)
Definition initLocalStream (video audio : bool) (first fallback : Attempt)
  (localStream : option (list Track))
  : option (list Track) * Outcome * list Track :=
  let stopped := default [] localStream in
  match first with
  | Granted stream => (Some stream, Resolved stream, stopped)
  | Refused mediaError =>
      if decide (name mediaError = "NotAllowedError") then
        (None,
         Rejected (error "Camera or microphone access denied. Please check browser permissions."),
         stopped)
      else if decide (name mediaError = "NotFoundError") then
        (None,
         Rejected (error "No camera or microphone found. Please connect a device and try again."),
         stopped)
      else if decide (name mediaError = "NotReadableError"
                      \/ name mediaError = "AbortError") then
        (None,
         Rejected (error "Camera or microphone is already in use by another application."),
         stopped)
      else if video && audio then
        match fallback with
        | Granted audioOnlyStream =>
            (Some audioOnlyStream, Resolved audioOnlyStream, stopped)
        | Refused e => (None, Rejected e, stopped)
        end
      else
        (None,
         Rejected
           (error
              ("Could not access " ++ (if video then "camera" else "")
               ++ (if video && audio then " and " else "")
               ++ (if audio then "microphone" else "") ++ ". "
               ++ (if decide (message mediaError = "")
                   then "Please check your device permissions."
                   else message mediaError))),
         stopped)
  end.

(** [getAudioTracks()] and [getVideoTracks()] of a stream or null. *)
Definition getTracks (k : Kind) (stream : option (list Track)) : list Track :=
  filter (fun t => kind t = k) (default [] stream).

(** The error names that [initLocalStream] replaces by a message of its
    own. *)
Definition mapped (n : string) : Prop :=
  n = "NotAllowedError" \/ n = "NotFoundError"
  \/ n = "NotReadableError" \/ n = "AbortError".

(** [hay.includes(needle)] *)
Fixpoint includes (needle hay : string) : bool :=
  String.prefix needle hay
  || match hay with
     | String _ rest => includes needle rest
     | EmptyString => false
     end.

(** What [setupLocalStream] of [MeetingRoom] emits as join-room, if
    anything: the [videoEnabled] flag of the payload.  [retry] is how
    the [getUserMedia] of the second, audio-only [initLocalStream] ends. *)
Definition setupLocalStream (first fallback retry : Attempt)
  : option (list Track) * option bool :=
  match initLocalStream true true first fallback None with
  | (localStream, Resolved stream, _) =>
      (localStream,
       Some (bool_decide (Exists (fun t => kind t = Video) stream)))
  | (localStream, Rejected e, _) =>
      if includes "camera" (message e) then
        match initLocalStream false true retry retry localStream with
        | (localStream', Resolved _, _) => (localStream', Some false)
        | (localStream', Rejected _, _) => (localStream', None)
        end
      else (localStream, None)
  end.

End LocalMedia.

(** * Properties *)

(** ** Lookup after update, for insertion-ordered maps *)

Module JsMapFacts.
Section facts.
Context {K V : Type} `{EqDecision K}.
Implicit Types (k : K) (v : V) (m : list (K * V)).

Lemma get_set_eq k v m : JsMap.get k (JsMap.set k v m) = Some v.
Proof.
  induction m as [|[k' v'] m IH]; simpl.
  - by rewrite decide_True.
  - destruct (decide (k = k')) as [->|Hne]; simpl.
    + by rewrite decide_True.
    + by rewrite decide_False.
Qed.

Lemma get_set_ne k k' v m :
  k <> k' -> JsMap.get k' (JsMap.set k v m) = JsMap.get k' m.
Proof.
  intros Hne. induction m as [|[k0 v0] m IH]; simpl.
  - by rewrite decide_False.
  - destruct (decide (k = k0)) as [->|Hk]; simpl.
    + by rewrite !decide_False.
    + by rewrite IH.
Qed.

Lemma get_delete_eq k m : JsMap.get k (JsMap.delete k m) = None.
Proof.
  induction m as [|[k' v'] m IH]; simpl; [done|].
  destruct (decide (k = k')); simpl; [done|]. by rewrite decide_False.
Qed.

Lemma get_delete_ne k k' m :
  k <> k' -> JsMap.get k' (JsMap.delete k m) = JsMap.get k' m.
Proof.
  intros Hne. induction m as [|[k0 v0] m IH]; simpl; [done|].
  destruct (decide (k = k0)) as [->|Hk]; simpl.
  - by rewrite decide_False.
  - by rewrite IH.
Qed.

Lemma delete_absent k m : JsMap.get k m = None -> JsMap.delete k m = m.
Proof.
  induction m as [|[k' v'] m IH]; simpl; [done|].
  destruct (decide (k = k')); [done|]. intros Hm. by rewrite IH.
Qed.

Lemma get_Some_elem_of k v m : JsMap.get k m = Some v -> (k, v) ∈ m.
Proof.
  induction m as [|[k' v'] m IH]; simpl; [done|].
  destruct (decide (k = k')) as [->|Hne].
  - intros [= ->]. apply list_elem_of_here.
  - intros Hm. apply list_elem_of_further. by apply IH.
Qed.

Lemma elem_of_set k v k' v' m :
  (k', v') ∈ JsMap.set k v m -> (k', v') = (k, v) \/ (k', v') ∈ m.
Proof.
  induction m as [|[k0 v0] m IH]; simpl.
  - intros Hin. apply list_elem_of_singleton in Hin. by left.
  - destruct (decide (k = k0)) as [->|Hne]; intros Hin.
    + apply elem_of_cons in Hin as [Heq|Hin]; [by left|].
      right. by apply list_elem_of_further.
    + apply elem_of_cons in Hin as [Heq|Hin].
      * right. rewrite Heq. apply list_elem_of_here.
      * destruct (IH Hin) as [?|?]; [by left|].
        right. by apply list_elem_of_further.
Qed.

Lemma elem_of_delete k k' v' m : (k', v') ∈ JsMap.delete k m -> (k', v') ∈ m.
Proof.
  induction m as [|[k0 v0] m IH]; simpl; [done|].
  destruct (decide (k = k0)) as [->|Hne]; intros Hin.
  - apply list_elem_of_further. by apply IH.
  - apply elem_of_cons in Hin as [Heq|Hin].
    + rewrite Heq. apply list_elem_of_here.
    + apply list_elem_of_further. by apply IH.
Qed.

Lemma elem_of_keys_set k v k' m :
  k' ∈ (JsMap.set k v m).*1 -> k' = k \/ k' ∈ m.*1.
Proof.
  intros Hin. apply list_elem_of_fmap in Hin as ([k0 v0] & -> & Hin).
  apply elem_of_set in Hin as [[= -> _]|Hin]; [by left|].
  right. apply list_elem_of_fmap. by exists (k0, v0).
Qed.

Lemma elem_of_keys_delete k k' m :
  k' ∈ (JsMap.delete k m).*1 -> k' ∈ m.*1.
Proof.
  intros Hin. apply list_elem_of_fmap in Hin as ([k0 v0] & -> & Hin).
  apply elem_of_delete in Hin. apply list_elem_of_fmap. by exists (k0, v0).
Qed.

Lemma NoDup_keys_set k v m : NoDup m.*1 -> NoDup (JsMap.set k v m).*1.
Proof.
  induction m as [|[k' v'] m IH]; simpl.
  - intros _. apply NoDup_singleton.
  - intros [Hnotin Hnd]%NoDup_cons.
    destruct (decide (k = k')) as [->|Hne]; simpl.
    + by apply NoDup_cons.
    + apply NoDup_cons. split; [|by apply IH].
      intros Hin. apply elem_of_keys_set in Hin as [?|?]; [congruence|done].
Qed.

Lemma NoDup_keys_delete k m : NoDup m.*1 -> NoDup (JsMap.delete k m).*1.
Proof.
  induction m as [|[k' v'] m IH]; simpl; [done|].
  intros [Hnotin Hnd]%NoDup_cons.
  destruct (decide (k = k')) as [->|Hne]; simpl; [by apply IH|].
  apply NoDup_cons. split; [|by apply IH].
  intros Hin. by apply elem_of_keys_delete in Hin.
Qed.

Lemma elem_of_get k v m : NoDup m.*1 -> (k, v) ∈ m -> JsMap.get k m = Some v.
Proof.
  induction m as [|[k' v'] m IH]; simpl.
  - intros _ Hin. by apply elem_of_nil in Hin.
  - intros [Hnotin Hnd]%NoDup_cons Hin.
    apply elem_of_cons in Hin as [[= -> ->]|Hin].
    + by rewrite decide_True.
    + destruct (decide (k = k')) as [->|Hne]; [|by apply IH].
      destruct Hnotin. apply list_elem_of_fmap. by exists (k', v).
Qed.

End facts.
End JsMapFacts.

(** ** The peer lifecycle manager *)

Module WebRTCFacts.
Import WebRTC.

Lemma hasPeer_true id c :
  hasPeer id c = true <->
  exists pc, JsMap.get id (peers c) = Some pc /\ destroyed pc = false.
Proof.
  unfold hasPeer. split.
  - destruct (JsMap.get id (peers c)) as [pc|]; [|done].
    intros Hd. exists pc. split; [done|]. by destruct (destroyed pc).
  - intros (pc & -> & ->). done.
Qed.

(** A signal for a peer without a live entry goes to the queue. *)
Lemma handleSignal_queued signal X c :
  hasPeer X c = false ->
  handleSignal signal X c =
    ({| peers := peers c;
        pendingSignals := <[X := queue X c ++ [signal]]> (pendingSignals c);
        allocated := allocated c |}, []).
Proof.
  unfold hasPeer, handleSignal, queue.
  destruct (JsMap.get X (peers c)) as [pc|]; [|done].
  by destruct (destroyed pc).
Qed.

(** A signal for a peer with a live entry goes to its connection. *)
Lemma handleSignal_direct signal X c pc :
  JsMap.get X (peers c) = Some pc -> destroyed pc = false ->
  handleSignal signal X c = (c, [PeerSignal (peer pc) signal]).
Proof. unfold handleSignal. by intros -> ->. Qed.

(** What [createPeer] does when it goes on to construct a connection. *)
Lemma createPeer_new_ok X ini stream c :
  createPeer_new X ini stream true c =
    let pc := {| peerId := X; peer := allocated c; initiator := ini;
                 destroyed := false |} in
    ({| peers := JsMap.set X pc (peers c);
        pendingSignals := delete X (pendingSignals c);
        allocated := S (allocated c) |},
     NewPeer (allocated c) ini stream
       :: (PeerSignal (allocated c) <$> queue X c),
     Some pc).
Proof.
  unfold createPeer_new, applyPendingSignals, queue; simpl.
  destruct (pendingSignals c !! X) as [signals|] eqn:Hq; simpl.
  - rewrite JsMapFacts.get_set_eq; simpl.
    assert (flat_map (fun signal => [PeerSignal (allocated c) signal]) signals
            = PeerSignal (allocated c) <$> signals) as ->; [|done].
    clear Hq. induction signals as [|s signals IH]; [done|].
    simpl. by rewrite IH.
  - by rewrite delete_id.
Qed.

Lemma createPeer_not_live X ini stream c :
  hasPeer X c = false ->
  createPeer X ini stream true c =
    let pc := {| peerId := X; peer := allocated c; initiator := ini;
                 destroyed := false |} in
    ({| peers := JsMap.set X pc (JsMap.delete X (peers c));
        pendingSignals := delete X (pendingSignals c);
        allocated := S (allocated c) |},
     NewPeer (allocated c) ini stream
       :: (PeerSignal (allocated c) <$> queue X c),
     Some pc).
Proof.
  unfold hasPeer, createPeer.
  destruct (JsMap.get X (peers c)) as [existing|] eqn:Hget.
  - destruct (destroyed existing); [|done]. intros _.
    by rewrite createPeer_new_ok.
  - intros _. rewrite createPeer_new_ok; simpl.
    by rewrite JsMapFacts.delete_absent.
Qed.

(** [createPeer] constructs a connection exactly when there is no live
    entry and the constructor does not throw. *)
Lemma createPeer_constructs X ini stream ok c :
  (exists h i s, NewPeer h i s ∈ (createPeer X ini stream ok c).1.2)
  <-> hasPeer X c = false /\ ok = true.
Proof.
  split.
  - intros (h & i & s & Hin). unfold createPeer, createPeer_new, hasPeer in *.
    destruct (JsMap.get X (peers c)) as [existing|];
      [destruct (destroyed existing)|]; destruct ok; simpl in Hin;
      try done; by apply elem_of_nil in Hin.
  - intros [Hno ->]. rewrite createPeer_not_live by done. simpl.
    eexists _, _, _. apply list_elem_of_here.
Qed.

Lemma run_arrivals X signals : forall c,
  hasPeer X c = false ->
  let c' := (run (arrivals X signals) c).1 in
  (run (arrivals X signals) c).2 = []
  /\ peers c' = peers c
  /\ allocated c' = allocated c
  /\ queue X c' = queue X c ++ signals
  /\ delete X (pendingSignals c') = delete X (pendingSignals c).
Proof.
  induction signals as [|s signals IH]; intros c Hno; simpl.
  - by rewrite app_nil_r.
  - rewrite handleSignal_queued by done.
    set (c1 := {| peers := peers c |}).
    assert (hasPeer X c1 = false) as Hno1 by done.
    destruct (IH c1 Hno1) as (Ha & Hp & Hn & Hq & Hd).
    destruct (run (arrivals X signals) c1) as [c2 a2]; simpl in *.
    repeat split; try done.
    + rewrite Hq. unfold queue at 1; simpl.
      rewrite lookup_insert_eq; simpl. by rewrite <- app_assoc.
    + rewrite Hd; simpl. by rewrite delete_insert_eq.
Qed.

(** C1. A signal for peer X that arrives while X has no live connection is
    appended to X's queue: the table of connections is unchanged and no
    call is made, so no connection is created.  When, after any number of
    such arrivals, [createPeer] creates the connection of X (no live entry,
    the constructor succeeds), every queued signal, the earlier ones and
    the arrivals, is given to the new connection in arrival order and the
    queue of X is deleted. *)
Theorem C1_early_signals_queued_then_replayed (c : WebRTCConnection) (X : string) :
  hasPeer X c = false ->
  (forall signal,
     handleSignal signal X c =
       ({| peers := peers c;
           pendingSignals := <[X := queue X c ++ [signal]]> (pendingSignals c);
           allocated := allocated c |}, []))
  /\ (forall signals ini stream,
        let c' := (run (arrivals X signals) c).1 in
        let pc := {| peerId := X; peer := allocated c; initiator := ini;
                     destroyed := false |} in
        (run (arrivals X signals) c).2 = []
        /\ peers c' = peers c
        /\ queue X c' = queue X c ++ signals
        /\ createPeer X ini stream true c' =
             ({| peers := JsMap.set X pc (JsMap.delete X (peers c));
                 pendingSignals := delete X (pendingSignals c);
                 allocated := S (allocated c) |},
              NewPeer (allocated c) ini stream
                :: (PeerSignal (allocated c) <$> (queue X c ++ signals)),
              Some pc)).
Proof.
  intros Hno. split.
  - intros signal. by apply handleSignal_queued.
  - intros signals ini stream.
    destruct (run_arrivals X signals c Hno) as (Ha & Hp & Hn & Hq & Hd).
    repeat split; try done.
    rewrite createPeer_not_live.
    + simpl. by rewrite Hp, Hn, Hq, Hd.
    + unfold hasPeer in *. by rewrite Hp.
Qed.

Lemma C1_witness :
  hasPeer "bob" init = false
  /\ (run (arrivals "bob" ["offer"; "candidate"]) init).2 = []
  /\ (createPeer "bob" false 7 true
        (run (arrivals "bob" ["offer"; "candidate"]) init).1).1.2
     = [NewPeer 0 false 7; PeerSignal 0 "offer"; PeerSignal 0 "candidate"].
Proof.
  split; [reflexivity|].
  destruct (C1_early_signals_queued_then_replayed init "bob" eq_refl)
    as [_ Hreplay].
  destruct (Hreplay ["offer"; "candidate"] false 7) as (Ha & _ & _ & Hc).
  split; [exact Ha|]. rewrite Hc. reflexivity.
Defined.

(** *** Invariants of the connection table *)

Lemma set_destroyed_stale pc : destroyed pc = true -> set_destroyed pc = pc.
Proof. destruct pc as [i h ini d]; simpl. by intros ->. Qed.

Lemma hasPeer_peers id c c' :
  JsMap.get id (peers c') = JsMap.get id (peers c) ->
  hasPeer id c' = hasPeer id c.
Proof. unfold hasPeer. by intros ->. Qed.

Lemma closeLoop_actions entries : forall table,
  (closeLoop entries table).2 =
    flat_map (fun e => [MarkDestroyed e.1; PeerDestroy (peer e.2)]) entries.
Proof.
  induction entries as [|[id pc] entries IH]; intros table; simpl; [done|].
  specialize (IH (JsMap.set id (set_destroyed pc) table)).
  destruct (closeLoop entries _) as [t a]; simpl in *. by rewrite IH.
Qed.

Lemma closeAllConnections_eq c :
  closeAllConnections c =
    ({| peers := []; pendingSignals := ∅; allocated := allocated c |},
     flat_map (fun e => [MarkDestroyed e.1; PeerDestroy (peer e.2)]) (peers c)).
Proof.
  unfold closeAllConnections.
  pose proof (closeLoop_actions (peers c) (peers c)) as Hacts.
  destruct (closeLoop (peers c) (peers c)) as [t a]; simpl in *. by subst.
Qed.

Lemma step_queue_free op c :
  queue_free_when_live c -> queue_free_when_live (step op c).1.
Proof.
  intros Hinv id. destruct op as [sig from|X ini stream ok|X| |X|X]; simpl.
  - unfold handleSignal.
    destruct (JsMap.get from (peers c)) as [pc|] eqn:Hget;
      [destruct (destroyed pc) eqn:Hd|]; simpl; try apply Hinv;
      (intros Hlive; destruct (decide (from = id)) as [->|Hne];
       [unfold hasPeer in Hlive; simpl in Hlive; rewrite Hget in Hlive;
        try rewrite Hd in Hlive; done
       |rewrite lookup_insert_ne by done; by apply Hinv]).
  - destruct (hasPeer X c) eqn:HX.
    + apply hasPeer_true in HX as (pc & Hget & Hd).
      unfold createPeer. rewrite Hget, Hd. apply Hinv.
    + destruct ok.
      * rewrite createPeer_not_live by done. simpl. intros Hlive.
        destruct (decide (X = id)) as [->|Hne]; [apply lookup_delete_eq|].
        rewrite lookup_delete_ne by done. apply Hinv.
        rewrite <- Hlive. symmetry. apply hasPeer_peers; simpl.
        rewrite JsMapFacts.get_set_ne by done.
        by rewrite JsMapFacts.get_delete_ne.
      * unfold createPeer, createPeer_new. unfold hasPeer in HX.
        destruct (JsMap.get X (peers c)) as [pc|] eqn:Hget;
          [destruct (destroyed pc); [|done]|]; simpl; [|apply Hinv].
        intros Hlive. destruct (decide (X = id)) as [->|Hne].
        -- unfold hasPeer in Hlive; simpl in Hlive.
           by rewrite JsMapFacts.get_delete_eq in Hlive.
        -- apply Hinv. rewrite <- Hlive. symmetry. apply hasPeer_peers; simpl.
           by rewrite JsMapFacts.get_delete_ne.
  - unfold removePeer.
    destruct (JsMap.get X (peers c)) as [pc|] eqn:Hget;
      [destruct (destroyed pc)|]; simpl; try apply Hinv.
    intros Hlive. destruct (decide (X = id)) as [->|Hne];
      [apply lookup_delete_eq|].
    rewrite lookup_delete_ne by done. apply Hinv.
    rewrite <- Hlive. symmetry. apply hasPeer_peers; simpl.
    by rewrite JsMapFacts.get_delete_ne.
  - rewrite closeAllConnections_eq. done.
  - unfold onPeerClosed.
    destruct (JsMap.get X (peers c)) as [pc|] eqn:Hget; simpl; [|apply Hinv].
    intros Hlive. destruct (decide (X = id)) as [->|Hne].
    + unfold hasPeer in Hlive; simpl in Hlive.
      by rewrite JsMapFacts.get_set_eq in Hlive.
    + apply Hinv. rewrite <- Hlive. symmetry. apply hasPeer_peers; simpl.
      by rewrite JsMapFacts.get_set_ne.
  - unfold onPeerClosed.
    destruct (JsMap.get X (peers c)) as [pc|] eqn:Hget; simpl; [|apply Hinv].
    intros Hlive. destruct (decide (X = id)) as [->|Hne].
    + unfold hasPeer in Hlive; simpl in Hlive.
      by rewrite JsMapFacts.get_set_eq in Hlive.
    + apply Hinv. rewrite <- Hlive. symmetry. apply hasPeer_peers; simpl.
      by rewrite JsMapFacts.get_set_ne.
Qed.

Lemma reachable_queue_free c : reachable c -> queue_free_when_live c.
Proof.
  induction 1 as [|op c _ IH]; [|by apply step_queue_free].
  intros id Hlive. done.
Qed.

(** C4. In every reachable state a peer id with a live (non-destroyed)
    entry has no pending queue at all, and a signal for it is given to its
    connection at once, leaving the state as it is; a peer id without a
    live entry gets, from one [createPeer], a live entry, the replay of its
    whole queue to that entry's connection, and no queue. *)
Theorem C4_live_entry_excludes_queue (c : WebRTCConnection) (X : string) :
  reachable c ->
  if hasPeer X c then
    pendingSignals c !! X = None
    /\ queue X c = []
    /\ exists pc, JsMap.get X (peers c) = Some pc
         /\ forall signal,
              handleSignal signal X c = (c, [PeerSignal (peer pc) signal])
  else
    forall ini stream,
      let c' := (createPeer X ini stream true c).1.1 in
      hasPeer X c' = true
      /\ pendingSignals c' !! X = None
      /\ (createPeer X ini stream true c).1.2 =
           NewPeer (allocated c) ini stream
             :: (PeerSignal (allocated c) <$> queue X c).
Proof.
  intros Hreach. destruct (hasPeer X c) eqn:HX.
  - pose proof (reachable_queue_free c Hreach X HX) as Hq.
    apply hasPeer_true in HX as (pc & Hget & Hd).
    repeat split; [done|by unfold queue; rewrite Hq|].
    exists pc. split; [done|]. intros signal. by apply handleSignal_direct.
  - intros ini stream. rewrite createPeer_not_live by done. simpl.
    repeat split.
    + unfold hasPeer; simpl. by rewrite JsMapFacts.get_set_eq.
    + apply lookup_delete_eq.
Qed.

Lemma C4_witness :
  reachable (step (CreatePeer "bob" true 0 true)
               (step (HandleSignal "offer" "bob") init).1).1
  /\ pendingSignals
       (step (CreatePeer "bob" true 0 true)
          (step (HandleSignal "offer" "bob") init).1).1 !! "bob" = None.
Proof.
  assert (reachable (step (CreatePeer "bob" true 0 true)
                       (step (HandleSignal "offer" "bob") init).1).1) as Hr.
  { apply reachable_step, reachable_step, reachable_init. }
  split; [exact Hr|].
  exact (proj1 (C4_live_entry_excludes_queue _ "bob" Hr)).
Defined.

(** *** Connections of a cleared table are never signalled again *)

(** Closes a goal whose hypothesis [H] puts an action into a list of
    actions of other kinds. *)
Ltac not_among H :=
  repeat (apply elem_of_cons in H as [H|H]; [discriminate H|]);
  by apply elem_of_nil in H.

Lemma step_handles_from n op c :
  handles_from n c ->
  handles_from n (step op c).1
  /\ forall h signal, PeerSignal h signal ∈ (step op c).2 -> n <= h.
Proof.
  intros [Hpeers Hnext].
  destruct op as [sig from|X ini stream ok|X| |X|X]; simpl.
  - unfold handleSignal.
    destruct (JsMap.get from (peers c)) as [pc|] eqn:Hget;
      [destruct (destroyed pc)|]; simpl;
      (split; [by split|]); intros h signal Hin;
      try (by apply elem_of_nil in Hin).
    apply list_elem_of_singleton in Hin as [= -> _].
    eapply Hpeers. by apply JsMapFacts.get_Some_elem_of.
  - destruct (hasPeer X c) eqn:HX.
    + apply hasPeer_true in HX as (pc & Hget & Hd).
      unfold createPeer. rewrite Hget, Hd. simpl.
      split; [by split|]. intros h signal Hin. by apply elem_of_nil in Hin.
    + destruct ok.
      * rewrite createPeer_not_live by done. simpl. split; [split|].
        -- intros id pc Hin; simpl in Hin.
           apply JsMapFacts.elem_of_set in Hin as [[= _ ->]|Hin]; [done|].
           eapply Hpeers. by eapply JsMapFacts.elem_of_delete.
        -- simpl. lia.
        -- intros h signal Hin.
           apply elem_of_cons in Hin as [Hin|Hin]; [done|].
           apply list_elem_of_fmap in Hin as (s0 & [= ->] & _). done.
      * unfold createPeer, createPeer_new.
        destruct (JsMap.get X (peers c)) as [pc|] eqn:Hget;
          [destruct (destroyed pc)|]; simpl;
          (split; [split; [|done]|
                   intros h signal Hin; by apply elem_of_nil in Hin]);
          try done.
        intros id pc' Hin; simpl in Hin. eapply Hpeers.
        by eapply JsMapFacts.elem_of_delete.
  - unfold removePeer.
    destruct (JsMap.get X (peers c)) as [pc|] eqn:Hget;
      [destruct (destroyed pc)|]; simpl;
      (split; [split; [|done]|]); try done.
    + intros h signal Hin. by apply elem_of_nil in Hin.
    + intros id pc' Hin; simpl in Hin. eapply Hpeers.
      by eapply JsMapFacts.elem_of_delete.
    + intros h signal Hin. not_among Hin.
    + intros h signal Hin. by apply elem_of_nil in Hin.
  - rewrite closeAllConnections_eq; simpl. split; [split; [|done]|].
    + intros id pc Hin; simpl in Hin. by apply elem_of_nil in Hin.
    + intros h signal Hin.
      apply list_elem_of_In, in_flat_map in Hin as (e & _ & Hin).
      apply list_elem_of_In in Hin. not_among Hin.
  - unfold onPeerClosed.
    destruct (JsMap.get X (peers c)) as [pc|] eqn:Hget; simpl;
      (split; [split; [|done]|]); try done.
    + intros id pc' Hin; simpl in Hin.
      apply JsMapFacts.elem_of_set in Hin as [[= _ ->]|Hin]; [|by eapply Hpeers].
      simpl. eapply Hpeers. by apply JsMapFacts.get_Some_elem_of.
    + intros h signal Hin. not_among Hin.
    + intros h signal Hin. by apply elem_of_nil in Hin.
  - unfold onPeerClosed.
    destruct (JsMap.get X (peers c)) as [pc|] eqn:Hget; simpl;
      (split; [split; [|done]|]); try done.
    + intros id pc' Hin; simpl in Hin.
      apply JsMapFacts.elem_of_set in Hin as [[= _ ->]|Hin]; [|by eapply Hpeers].
      simpl. eapply Hpeers. by apply JsMapFacts.get_Some_elem_of.
    + intros h signal Hin. not_among Hin.
    + intros h signal Hin. by apply elem_of_nil in Hin.
Qed.

Lemma run_handles_from n ops : forall c,
  handles_from n c ->
  forall h signal, PeerSignal h signal ∈ (run ops c).2 -> n <= h.
Proof.
  induction ops as [|op ops IH]; intros c Hfrom h signal; simpl.
  - intros Hin. by apply elem_of_nil in Hin.
  - destruct (step_handles_from n op c Hfrom) as [Hfrom1 Hacts].
    specialize (IH (step op c).1 Hfrom1 h signal).
    destruct (step op c) as [c1 a1]; simpl in *.
    destruct (run ops c1) as [c2 a2]; simpl in *.
    intros Hin. apply elem_of_app in Hin as [Hin|Hin]; eauto.
Qed.

Lemma step_handles_allocated op c :
  handles_allocated c -> handles_allocated (step op c).1.
Proof.
  intros Hinv id pc.
  destruct op as [sig from|X ini stream ok|X| |X|X]; simpl.
  - unfold handleSignal.
    destruct (JsMap.get from (peers c)) as [pc0|];
      [destruct (destroyed pc0)|]; simpl; apply Hinv.
  - destruct (hasPeer X c) eqn:HX.
    + apply hasPeer_true in HX as (pc0 & Hget & Hd).
      unfold createPeer. rewrite Hget, Hd. apply Hinv.
    + destruct ok.
      * rewrite createPeer_not_live by done. simpl. intros Hin.
        apply JsMapFacts.elem_of_set in Hin as [[= _ ->]|Hin]; [simpl; lia|].
        apply JsMapFacts.elem_of_delete in Hin. apply Hinv in Hin. lia.
      * unfold createPeer, createPeer_new.
        destruct (JsMap.get X (peers c)) as [pc0|];
          [destruct (destroyed pc0)|]; simpl; try apply Hinv.
        intros Hin. apply JsMapFacts.elem_of_delete in Hin. by apply Hinv in Hin.
  - unfold removePeer.
    destruct (JsMap.get X (peers c)) as [pc0|];
      [destruct (destroyed pc0)|]; simpl; try apply Hinv.
    intros Hin. apply JsMapFacts.elem_of_delete in Hin. by apply Hinv in Hin.
  - rewrite closeAllConnections_eq; simpl. intros Hin.
    by apply elem_of_nil in Hin.
  - unfold onPeerClosed.
    destruct (JsMap.get X (peers c)) as [pc0|] eqn:Hget; simpl; [|apply Hinv].
    intros Hin.
    apply JsMapFacts.elem_of_set in Hin as [[= _ ->]|Hin]; [|by apply Hinv in Hin].
    simpl. eapply Hinv. by apply JsMapFacts.get_Some_elem_of.
  - unfold onPeerClosed.
    destruct (JsMap.get X (peers c)) as [pc0|] eqn:Hget; simpl; [|apply Hinv].
    intros Hin.
    apply JsMapFacts.elem_of_set in Hin as [[= _ ->]|Hin]; [|by apply Hinv in Hin].
    simpl. eapply Hinv. by apply JsMapFacts.get_Some_elem_of.
Qed.

Lemma reachable_handles_allocated c : reachable c -> handles_allocated c.
Proof.
  induction 1 as [|op c _ IH]; [|by apply step_handles_allocated].
  intros id pc Hin. by apply elem_of_nil in Hin.
Qed.

Lemma each_marked_then_destroyed_loop entries :
  each_marked_then_destroyed entries
    (flat_map (fun e => [MarkDestroyed e.1; PeerDestroy (peer e.2)]) entries).
Proof.
  induction entries as [|[id pc] entries IH]; intros i h; simpl.
  - by rewrite lookup_nil.
  - destruct i as [|[|i]]; simpl.
    + done.
    + intros [= <-]. exists 0, id, pc. repeat split; try done.
      apply list_elem_of_here.
    + intros Hi. destruct (IH i h Hi) as (j & id' & pc' & -> & Hj & Hin & Hh).
      exists (S (S j)), id', pc'. repeat split; try done.
      by apply list_elem_of_further.
Qed.

Lemma run_reachable_table ops : forall c, reachable c -> reachable (run ops c).1.
Proof.
  induction ops as [|op ops IH]; intros c Hr; simpl; [done|].
  specialize (IH (step op c).1 (reachable_step op c Hr)).
  destruct (step op c) as [c1 a1]; simpl in *.
  by destruct (run ops c1) as [c2 a2].
Qed.

(** C8, as stated, fails: with two entries the connection of the first is
    destroyed before the second entry is marked. *)
Lemma C8_counterexample :
  reachable two_peers
  /\ (closeAllConnections two_peers).2
     = [MarkDestroyed "alice"; PeerDestroy 0; MarkDestroyed "bob"; PeerDestroy 1]
  /\ ~ marks_precede_destroys (closeAllConnections two_peers).2.
Proof.
  split; [apply run_reachable_table, reachable_init|].
  split; [reflexivity|].
  intros Hall. specialize (Hall 1 2 0 "bob" eq_refl eq_refl). lia.
Qed.

(** C8, amended. [closeAllConnections] goes through the entries in map
    order and, for each, marks it destroyed and right after destroys its
    underlying connection.  After it returns the peer map and the pending
    queues are empty, and whatever happens next, no signal is ever given to
    a connection that the old map held. *)
Theorem C8_bulk_teardown (c : WebRTCConnection) :
  reachable c ->
  (closeAllConnections c).2 =
    flat_map (fun e => [MarkDestroyed e.1; PeerDestroy (peer e.2)]) (peers c)
  /\ each_marked_then_destroyed (peers c) (closeAllConnections c).2
  /\ peers (closeAllConnections c).1 = []
  /\ pendingSignals (closeAllConnections c).1 = ∅
  /\ forall ops h signal,
       h ∈ handles c ->
       PeerSignal h signal ∉ (run ops (closeAllConnections c).1).2.
Proof.
  intros Hreach. rewrite closeAllConnections_eq; simpl.
  repeat split; [apply each_marked_then_destroyed_loop|].
  intros ops h signal Hh Hin.
  apply run_handles_from with (n := allocated c) in Hin.
  - unfold handles, JsMap.values in Hh.
    apply list_elem_of_fmap in Hh as (pc & -> & Hpc).
    apply list_elem_of_fmap in Hpc as ([id pc'] & -> & Hpc).
    apply (reachable_handles_allocated c Hreach) in Hpc. simpl in *. lia.
  - split; [|done]. intros id pc Hpc; simpl in Hpc. by apply elem_of_nil in Hpc.
Qed.

Lemma C8_witness :
  reachable two_peers
  /\ peers (closeAllConnections two_peers).1 = []
  /\ PeerSignal 1 "answer"
       ∉ (run [HandleSignal "answer" "bob"; CreatePeer "bob" false 0 true]
            (closeAllConnections two_peers).1).2.
Proof.
  assert (reachable two_peers) as Hr by apply run_reachable_table, reachable_init.
  destruct (C8_bulk_teardown two_peers Hr) as (_ & _ & Hp & _ & Hnever).
  split; [exact Hr|]. split; [exact Hp|].
  apply Hnever. vm_compute. apply list_elem_of_further, list_elem_of_here.
Defined.

(** *** What [removePeer] leaves alone *)

Lemma removePeer_not_live X c : hasPeer X c = false -> removePeer X c = (c, []).
Proof.
  unfold hasPeer, removePeer.
  destruct (JsMap.get X (peers c)) as [pc|]; [|done]. by destruct (destroyed pc).
Qed.

Lemma not_purged X c c' :
  JsMap.get X (peers c') = JsMap.get X (peers c) ->
  (is_Some (pendingSignals c !! X) -> is_Some (pendingSignals c' !! X)) ->
  ~ purged X c c'.
Proof.
  intros Hpeers Hqueue [Hp|[Hq Hp]]; [done|].
  apply Hqueue in Hq as [q Hq]. by rewrite Hq in Hp.
Qed.

Lemma onPeerClosed_keeps X Y c :
  hasPeer X c = false -> ~ purged X c (onPeerClosed Y c).1.
Proof.
  intros Hno. unfold onPeerClosed.
  destruct (JsMap.get Y (peers c)) as [pc|] eqn:Hget; simpl;
    apply not_purged; simpl; try done.
  destruct (decide (Y = X)) as [->|Hne].
  - rewrite JsMapFacts.get_set_eq, Hget. f_equal.
    apply set_destroyed_stale. unfold hasPeer in Hno. rewrite Hget in Hno.
    by destruct (destroyed pc).
  - by rewrite JsMapFacts.get_set_ne.
Qed.

(** C10, as stated, fails: [closeAllConnections] removes a destroyed entry
    and its queue without any [createPeer]. *)
Lemma C10_counterexample : ~ purged_only_by_createPeer.
Proof.
  intros Honly.
  destruct (Honly stale_with_queue "bob" CloseAllConnections)
    as (ini & stream & ok & Hop).
  - apply run_reachable_table, reachable_init.
  - eexists. split; reflexivity.
  - left. vm_compute. discriminate.
  - discriminate Hop.
Qed.

(** C10, amended. [removePeer] for a peer id that has no entry, or whose
    entry is marked destroyed, changes neither the peer map nor the pending
    queues and calls nothing.  From such a state the entry and the queue of
    that peer id stay as they are (the queue may grow) under every
    operation except a [createPeer] for the same peer id and
    [closeAllConnections]. *)
Theorem C10_removePeer_noop (c : WebRTCConnection) (X : string) :
  hasPeer X c = false ->
  removePeer X c = (c, [])
  /\ forall op,
       purged X c (step op c).1 ->
       is_createPeer X op \/ op = CloseAllConnections.
Proof.
  intros Hno. split; [by apply removePeer_not_live|].
  intros op Hpurged.
  destruct op as [sig from|Y ini stream ok|Y| |Y|Y]; simpl in Hpurged.
  - exfalso. revert Hpurged. unfold handleSignal.
    destruct (JsMap.get from (peers c)) as [pc|] eqn:Hget;
      [destruct (destroyed pc) eqn:Hd|]; simpl;
      apply not_purged; simpl; try done;
      (destruct (decide (from = X)) as [->|Hne];
       [by rewrite lookup_insert_eq|by rewrite lookup_insert_ne]).
  - destruct (decide (Y = X)) as [->|Hne]; [left; by eexists _, _, _|].
    exfalso. revert Hpurged.
    unfold createPeer, createPeer_new, applyPendingSignals.
    destruct (JsMap.get Y (peers c)) as [pc|] eqn:Hget;
      [destruct (destroyed pc) eqn:Hd|]; destruct ok; simpl;
      try destruct (pendingSignals c !! Y) eqn:HqY; simpl;
      apply not_purged; simpl;
      rewrite ?JsMapFacts.get_set_ne, ?JsMapFacts.get_delete_ne,
        ?lookup_delete_ne by done; done.
  - exfalso. revert Hpurged.
    destruct (decide (Y = X)) as [->|Hne].
    + rewrite removePeer_not_live by done. by apply not_purged.
    + unfold removePeer.
      destruct (JsMap.get Y (peers c)) as [pc|] eqn:Hget;
        [destruct (destroyed pc) eqn:Hd|]; simpl;
        apply not_purged; simpl;
        rewrite ?JsMapFacts.get_delete_ne, ?lookup_delete_ne by done; done.
  - by right.
  - exfalso. revert Hpurged. by apply onPeerClosed_keeps.
  - exfalso. revert Hpurged. by apply onPeerClosed_keeps.
Qed.

Lemma C10_witness :
  hasPeer "bob" stale_with_queue = false
  /\ removePeer "bob" stale_with_queue = (stale_with_queue, [])
  /\ queue "bob" (removePeer "bob" stale_with_queue).1 = ["candidate"].
Proof.
  split; [reflexivity|].
  destruct (C10_removePeer_noop stale_with_queue "bob" eq_refl) as [Hnoop _].
  split; [exact Hnoop|]. rewrite Hnoop. reflexivity.
Defined.

End WebRTCFacts.

(** ** The signalling server *)

Module ServerFacts.
Import Server.

(** *** The roster of a room after each membership event *)

Lemma roster_join R s roomId id name uuid st :
  roster R (join_room s roomId id name uuid st).1 =
    if decide (roomId = R) then
      roster R st ++
        [{| User.id := join_id id uuid; User.socketId := s; User.name := name;
            User.roomId := roomId; User.audioEnabled := None;
            User.videoEnabled := None; User.isScreenSharing := None |}]
    else roster R st.
Proof.
  unfold join_room, roster; simpl.
  destruct (decide (roomId = R)) as [->|Hne].
  - rewrite lookup_insert_eq. by destruct (rooms st !! R).
  - by rewrite lookup_insert_ne.
Qed.

Lemma roster_leave R s roomId userId st :
  roster R (leave_room s roomId userId st).1 =
    if decide (roomId = R) then without userId (roster R st) else roster R st.
Proof.
  unfold leave_room, roster.
  destruct (rooms st !! roomId) as [room|] eqn:Hroom; simpl.
  - destruct (decide (length (without userId (Room.users room)) = 0))
      as [Hlen|Hlen]; destruct (decide (roomId = R)) as [<-|Hne].
    + rewrite lookup_delete_eq, Hroom. by apply nil_length_inv in Hlen.
    + by rewrite lookup_delete_ne.
    + by rewrite lookup_insert_eq, Hroom.
    + by rewrite lookup_insert_ne.
  - destruct (decide (roomId = R)) as [<-|Hne]; [|done]. by rewrite Hroom.
Qed.

Lemma roster_disconnect R s st :
  roster R (disconnect s st).1 =
    match resolveParticipantByTransport s st with
    | Some user =>
        if decide (User.roomId user = "") then roster R st
        else if decide (User.roomId user = R)
             then without (User.id user) (roster R st)
             else roster R st
    | None => roster R st
    end.
Proof.
  unfold disconnect, resolveParticipantByTransport, roster.
  destruct (JsMap.get s (users st)) as [user|]; [|done].
  destruct (decide (User.roomId user = "")) as [Hempty|Hfull]; [done|].
  destruct (rooms st !! User.roomId user) as [room|] eqn:Hroom; simpl.
  - destruct (decide (length (without (User.id user) (Room.users room)) = 0))
      as [Hlen|Hlen]; destruct (decide (User.roomId user = R)) as [<-|Hne];
      simpl.
    + rewrite lookup_delete_eq, Hroom. by apply nil_length_inv in Hlen.
    + by rewrite lookup_delete_ne.
    + by rewrite lookup_insert_eq, Hroom.
    + by rewrite lookup_insert_ne.
  - destruct (decide (User.roomId user = R)) as [<-|Hne]; [|done].
    by rewrite Hroom.
Qed.

(** *** Well-formedness of the registry *)

Lemma without_length userId (us : list User.t) :
  length (without userId us) <> 0 -> without userId us <> [].
Proof. by destruct (without userId us). Qed.

Lemma step_rooms_wf op st : rooms_wf st -> rooms_wf (step op st).1.
Proof.
  intros Hwf R room.
  destruct op as [s roomId id name uuid|s roomId userId|s sig to
                 |s roomId userId updates|s roomId message|s]; simpl.
  - unfold join_room; simpl.
    destruct (decide (roomId = R)) as [->|Hne].
    + rewrite lookup_insert_eq. intros [= <-]; simpl. split.
      * destruct (rooms st !! R) as [room0|] eqn:H0; [|done].
        by apply Hwf in H0 as [? _].
      * by destruct (Room.users _).
    + rewrite lookup_insert_ne by done. apply Hwf.
  - unfold leave_room.
    destruct (rooms st !! roomId) as [room0|] eqn:H0; simpl; [|apply Hwf].
    destruct (decide (length (without userId (Room.users room0)) = 0)).
    + destruct (decide (roomId = R)) as [->|Hne];
        [by rewrite lookup_delete_eq|].
      rewrite lookup_delete_ne by done. apply Hwf.
    + destruct (decide (roomId = R)) as [->|Hne].
      * rewrite lookup_insert_eq. intros [= <-]; simpl.
        apply Hwf in H0 as [? _]. split; [done|]. by apply without_length.
      * rewrite lookup_insert_ne by done. apply Hwf.
  - unfold signal.
    destruct (JsMap.get s (users st)); [|apply Hwf].
    destruct (list_find _ _) as [[? ?]|]; apply Hwf.
  - unfold update_media.
    destruct (rooms st !! roomId) as [room0|] eqn:H0; [|apply Hwf].
    destruct (list_find _ _) as [[i u]|]; simpl; [|apply Hwf].
    destruct (decide (roomId = R)) as [->|Hne].
    + rewrite lookup_insert_eq. intros [= <-]; simpl.
      apply Hwf in H0 as [? Hne]. split; [done|].
      intros Hnil. apply Hne. apply nil_length_inv.
      by rewrite <- (length_insert (Room.users room0) i (merge u updates)), Hnil.
    + rewrite lookup_insert_ne by done. apply Hwf.
  - unfold send_message.
    destruct (rooms st !! roomId) as [room0|] eqn:H0; simpl; [|apply Hwf].
    destruct (normalize message) as [stored|]; simpl; [|apply Hwf].
    destruct (decide (roomId = R)) as [->|Hne].
    + rewrite lookup_insert_eq. intros [= <-]; simpl. by apply Hwf in H0.
    + rewrite lookup_insert_ne by done. apply Hwf.
  - unfold disconnect.
    destruct (JsMap.get s (users st)) as [user|]; [|apply Hwf].
    destruct (decide (User.roomId user = "")); [apply Hwf|].
    destruct (rooms st !! User.roomId user) as [room0|] eqn:H0; [|apply Hwf].
    simpl.
    destruct (decide (length (without (User.id user) (Room.users room0)) = 0));
      simpl.
    + destruct (decide (User.roomId user = R)) as [->|Hne];
        [by rewrite lookup_delete_eq|].
      rewrite lookup_delete_ne by done. apply Hwf.
    + destruct (decide (User.roomId user = R)) as [HR|Hne].
      * rewrite HR, lookup_insert_eq. intros [= <-]; simpl.
        apply Hwf in H0 as [? _]. split; [congruence|]. by apply without_length.
      * rewrite lookup_insert_ne by done. apply Hwf.
Qed.

Lemma run_rooms_wf ops : forall st, rooms_wf st -> rooms_wf (run ops st).
Proof.
  induction ops as [|op ops IH]; intros st Hwf; [done|].
  apply IH. by apply step_rooms_wf.
Qed.

Lemma init_rooms_wf : rooms_wf init.
Proof. intros R room; simpl. by rewrite lookup_empty. Qed.

(** *** Rosters follow the history of joins and leaves *)











(** It fails in three more ways.  The binding table has one entry for a
    socket: when a socket has joined two rooms, its disconnect takes the
    participant out of the room it joined last only. *)
Lemma disconnect_leaves_one_room_only :
  ~ roster_tracks_history
      [JoinRoom "s1" "room-1" (Some "alice") "Alice" "uuid-1";
       JoinRoom "s1" "room-2" (Some "alice") "Alice" "uuid-2";
       Disconnect "s1"] "room-1".
Proof. intros [Hroster _]. vm_compute in Hroster. discriminate Hroster. Qed.

(** The handlers remove by participant id: when two sockets are in a
    room under one id, the disconnect of one takes both out. *)
Lemma disconnect_removes_by_id :
  ~ roster_tracks_history
      [JoinRoom "s1" "room-1" (Some "alice") "Alice" "uuid-1";
       JoinRoom "s2" "room-1" (Some "alice") "Alice" "uuid-2";
       Disconnect "s1"] "room-1".
Proof. intros [Hroster _]. vm_compute in Hroster. discriminate Hroster. Qed.

(** A leave-room deletes the binding of the socket it comes on, whoever
    it names: after it, the disconnect of that socket removes nobody. *)
Lemma leave_unbinds_its_socket :
  ~ roster_tracks_history
      [JoinRoom "s1" "room-1" (Some "alice") "Alice" "uuid-1";
       LeaveRoom "s1" "room-1" "nobody";
       Disconnect "s1"] "room-1".
Proof. intros [Hroster _]. vm_compute in Hroster. discriminate Hroster. Qed.

(** And it deletes no other binding: when it comes on another socket
    than the one of the participant it names, the binding of that
    participant stays, and the disconnect of its socket later removes
    whoever is in the room under that id by then. *)
Lemma leave_keeps_the_binding_of_the_named :
  ~ roster_tracks_history
      [JoinRoom "s1" "room-1" (Some "alice") "Alice" "uuid-1";
       JoinRoom "s2" "room-1" (Some "bob") "Bob" "uuid-2";
       LeaveRoom "s9" "room-1" "alice";
       JoinRoom "s3" "room-1" (Some "alice") "Alice" "uuid-3";
       Disconnect "s1"] "room-1".
Proof. intros [Hroster _]. vm_compute in Hroster. discriminate Hroster. Qed.



(** *** The binding table *)

Lemma step_users_wf op st : users_wf st -> users_wf (step op st).1.
Proof.
  intros [Hnd Hkey].
  assert (users_wf {| rooms := rooms st; users := JsMap.delete
            (match op with
             | JoinRoom s _ _ _ _ | LeaveRoom s _ _ | SignalTo s _ _
             | UpdateMediaOf s _ _ _ | SendMessage s _ _ | Disconnect s => s
             end) (users st); joined := joined st |}) as [Hnd' Hkey'].
  { split; simpl; [by apply JsMapFacts.NoDup_keys_delete|].
    intros k u Hin. apply Hkey. by eapply JsMapFacts.elem_of_delete. }
  destruct op as [s roomId id name uuid|s roomId userId|s sig to
                 |s roomId userId updates|s roomId message|s]; simpl in *.
  - split; simpl; [by apply JsMapFacts.NoDup_keys_set|].
    intros k u Hin. apply JsMapFacts.elem_of_set in Hin as [[= -> ->]|Hin];
      [done|by apply Hkey].
  - unfold leave_room. by destruct (rooms st !! roomId).
  - unfold signal. destruct (JsMap.get s (users st)); [|done].
    by destruct (list_find _ _) as [[? ?]|].
  - unfold update_media. destruct (rooms st !! roomId) as [room|]; [|done].
    by destruct (list_find _ _) as [[? ?]|].
  - unfold send_message. destruct (rooms st !! roomId); [|done].
    by destruct (normalize message).
  - unfold disconnect. destruct (JsMap.get s (users st)) as [user|]; [|done].
    destruct (decide (User.roomId user = "")); [done|].
    destruct (rooms st !! User.roomId user) as [room|]; [|done]. simpl.
    by destruct (decide (length (without (User.id user) (Room.users room)) = 0)).
Qed.

Lemma reachable_users_wf st : reachable st -> users_wf st.
Proof.
  induction 1 as [|op st _ IH]; [|by apply step_users_wf].
  split; simpl; [apply NoDup_nil_2|]. intros k u Hin. by apply elem_of_nil in Hin.
Qed.

Lemma run_reachable_registry ops : forall st, reachable st -> reachable (run ops st).
Proof.
  induction ops as [|op ops IH]; intros st Hr; [done|].
  apply IH. by apply reachable_step.
Qed.

(** What [find] returns is a binding of the table. *)
Lemma find_target_bound st to i target :
  users_wf st ->
  list_find (fun u => User.id u = to) (JsMap.values (users st)) = Some (i, target) ->
  bound_to (User.socketId target) to st.
Proof.
  intros [Hnd Hkey] Hfind. apply list_find_Some in Hfind as (Hi & Hid & _).
  apply list_elem_of_lookup_2 in Hi. unfold JsMap.values in Hi.
  apply list_elem_of_fmap in Hi as ([k u] & -> & Hin). simpl in *.
  rewrite (Hkey k u Hin). exists u. split; [|done].
  by apply JsMapFacts.elem_of_get.
Qed.

Lemma signal_to_only_binding st s sig to fromUser t :
  users_wf st ->
  JsMap.get s (users st) = Some fromUser ->
  bound_to t to st -> (forall t', bound_to t' to st -> t' = t) ->
  signal s sig to st = (st, [ToSocket t (SignalEvent sig (User.id fromUser))]).
Proof.
  intros Hwf Hfrom (u & Hu & Hid) Honly. unfold signal. rewrite Hfrom.
  destruct (list_find _ _) as [[i target]|] eqn:Hfind.
  - apply find_target_bound in Hfind; [|done]. by rewrite (Honly _ Hfind).
  - apply list_find_None in Hfind. exfalso.
    apply JsMapFacts.get_Some_elem_of in Hu.
    assert (u ∈ JsMap.values (users st)) as Hin.
    { unfold JsMap.values. apply list_elem_of_fmap. by exists (t, u). }
    by apply (proj1 (Forall_forall _ _) Hfind) in Hin.
Qed.

Lemma signal_to_nobody st s sig to :
  users_wf st -> (forall t, ~ bound_to t to st) ->
  signal s sig to st = (st, []).
Proof.
  intros Hwf Hnone. unfold signal.
  destruct (JsMap.get s (users st)) as [fromUser|]; [|done].
  destruct (list_find _ _) as [[i target]|] eqn:Hfind; [|done].
  apply find_target_bound in Hfind; [|done]. by apply Hnone in Hfind.
Qed.

Lemma disconnect_users s st user :
  JsMap.get s (users st) = Some user -> User.roomId user <> "" ->
  users (disconnect s st).1 = JsMap.delete s (users st).
Proof.
  intros Hget Hroom. unfold disconnect. rewrite Hget.
  rewrite decide_False by done.
  destruct (rooms st !! User.roomId user) as [room|]; [|done]. simpl.
  by destruct (decide (length (without (User.id user) (Room.users room)) = 0)).
Qed.

Lemma signal_state s sig to st : (signal s sig to st).1 = st.
Proof.
  unfold signal. destruct (JsMap.get s (users st)); [|done].
  by destruct (list_find _ _) as [[? ?]|].
Qed.

Lemma signal_unbound_sender s sig to st :
  JsMap.get s (users st) = None -> signal s sig to st = (st, []).
Proof. unfold signal. by intros ->. Qed.

(** After the old transport of a participant has disconnected and the
    participant has joined again on a new one, in either order, the new
    transport is the only one bound to the participant. *)

Lemma rebound_reachable st to old new roomId name uuid st' :
  reachable st -> rebound st to old new roomId name uuid st' -> reachable st'.
Proof.
  intros Hr [->|[_ ->]].
  - apply (reachable_step (JoinRoom new roomId (Some to) name uuid)).
    by apply (reachable_step (Disconnect old)).
  - apply (reachable_step (Disconnect old)).
    by apply (reachable_step (JoinRoom new roomId (Some to) name uuid)).
Qed.

Lemma rebound_users st to old new u roomId name uuid st' :
  to <> "" ->
  JsMap.get old (users st) = Some u -> User.roomId u <> "" ->
  rebound st to old new roomId name uuid st' ->
  forall t,
    JsMap.get t (users st') =
      if decide (new = t) then
        Some {| User.id := to; User.socketId := new; User.name := name;
                User.roomId := roomId; User.audioEnabled := None;
                User.videoEnabled := None; User.isScreenSharing := None |}
      else if decide (old = t) then None
      else JsMap.get t (users st).
Proof.
  intros Hto Hold Hroom [->|[Hdiff ->]] t.
  - unfold join_room; simpl. rewrite (disconnect_users old st u) by done.
    rewrite (decide_False (P := to = "")) by done.
    destruct (decide (new = t)) as [->|Hnew].
    + by rewrite JsMapFacts.get_set_eq.
    + rewrite JsMapFacts.get_set_ne by done.
      destruct (decide (old = t)) as [->|Hne].
      * by rewrite JsMapFacts.get_delete_eq.
      * by rewrite JsMapFacts.get_delete_ne.
  - rewrite (disconnect_users old _ u); try done.
    + unfold join_room; simpl. rewrite (decide_False (P := to = "")) by done.
      destruct (decide (old = t)) as [->|Hne].
      * rewrite JsMapFacts.get_delete_eq. by rewrite decide_False by done.
      * rewrite JsMapFacts.get_delete_ne by done.
        destruct (decide (new = t)) as [->|Hnew].
        -- by rewrite JsMapFacts.get_set_eq.
        -- by rewrite JsMapFacts.get_set_ne.
    + unfold join_room; simpl. by rewrite JsMapFacts.get_set_ne.
Qed.

Lemma rebind_only_binding st to old new u roomId name uuid st' :
  to <> "" ->
  JsMap.get old (users st) = Some u -> User.roomId u <> "" ->
  (forall t', bound_to t' to st -> t' = old) ->
  rebound st to old new roomId name uuid st' ->
  bound_to new to st' /\ forall t', bound_to t' to st' -> t' = new.
Proof.
  intros Hto Hold Hroom Honly Hre.
  pose proof (rebound_users st to old new u roomId name uuid st' Hto Hold Hroom Hre)
    as Husers.
  unfold bound_to. split.
  - eexists. rewrite Husers, decide_True by done. done.
  - intros t' (u' & Hget & Hid). rewrite Husers in Hget.
    destruct (decide (new = t')) as [->|Hnew]; [done|].
    destruct (decide (old = t')) as [->|Hne]; [done|].
    destruct Hne. symmetry. apply Honly. by exists u'.
Qed.

(** With two transports bound to the target, the relay goes to the one
    bound first. *)
Lemma signal_reaches_oldest_binding :
  signal "s3" "offer" "bob" rebound_early
  = (rebound_early, [ToSocket "s1" (SignalEvent "offer" "alice")]).
Proof. reflexivity. Qed.

(** C3, as stated, fails: a signal event from a transport that is bound to
    no participant is dropped, although a transport is bound to its
    target. *)
Lemma C3_counterexample : ~ every_signal_relayed.
Proof.
  intros Hall.
  destruct (Hall (run [JoinRoom "s2" "abc-def-ghi" (Some "bob") "Bob" "uuid-2"] init)
              "s1" "offer" "bob" "s2") as [from Hin].
  - apply run_reachable_registry, reachable_init.
  - eexists. split; reflexivity.
  - intros t' (u' & Hget & _). simpl in Hget.
    destruct (decide (t' = "s2")) as [->|Hne]; [done|discriminate Hget].
  - vm_compute in Hin. by apply elem_of_nil in Hin.
Qed.

(** It fails for reconnects in the room whose id is the empty string too:
    the disconnect handler tests [user.roomId] for truth and keeps the
    binding of the closed transport, so that after the participant has
    joined again on a new transport the relay still goes to the old
    one. *)
Lemma signal_after_rejoin_in_unnamed_room :
  let st :=
    run [JoinRoom "s1" "" (Some "alice") "Alice" "uuid-1";
         JoinRoom "s2" "" (Some "bob") "Bob" "uuid-2"] init in
  let st' :=
    (join_room "s9" "" (Some "bob") "Bob" "uuid-9" (disconnect "s2" st).1).1 in
  (forall t', bound_to t' "bob" st -> t' = "s2")
  /\ bound_to "s9" "bob" st'
  /\ (signal "s1" "offer" "bob" st').2
     = [ToSocket "s2" (SignalEvent "offer" "alice")].
Proof.
  split; [|split; [eexists; split; reflexivity|reflexivity]].
  intros t' (u' & Hget & Hid). simpl in Hget.
  destruct (decide (t' = "s1")) as [->|H1]; [by injection Hget as <-|].
  destruct (decide (t' = "s2")) as [->|H2]; [done|discriminate Hget].
Qed.

(** C3, amended. A signal event {signal, to} that arrives on a transport
    bound to a participant leaves the server state as it is.  When exactly
    one transport is bound to participant [to], the server relays
    {signal, from: the sender's participant id} to that transport, and
    nothing else.  This is so for the new transport once the old one,
    bound in a room whose id is not the empty string, has disconnected
    and the participant has joined again under its id, which is not the
    empty string, on the new one, in either order.  When no transport is
    bound to [to], nothing is relayed.  A signal event that arrives on a
    transport bound to no participant is dropped. *)
Theorem C3_signal_relay (st : State) (s sig to : string) (fromUser : User.t) :
  reachable st ->
  JsMap.get s (users st) = Some fromUser ->
  (signal s sig to st).1 = st
  /\ (forall t,
        bound_to t to st -> (forall t', bound_to t' to st -> t' = t) ->
        (signal s sig to st).2
        = [ToSocket t (SignalEvent sig (User.id fromUser))])
  /\ ((forall t, ~ bound_to t to st) -> (signal s sig to st).2 = [])
  /\ (forall old new u roomId name uuid st',
        to <> "" ->
        JsMap.get old (users st) = Some u -> User.id u = to ->
        User.roomId u <> "" ->
        (forall t', bound_to t' to st -> t' = old) ->
        rebound st to old new roomId name uuid st' ->
        forall s' sig' fromUser',
          JsMap.get s' (users st') = Some fromUser' ->
          (signal s' sig' to st').2
          = [ToSocket new (SignalEvent sig' (User.id fromUser'))])
  /\ (forall s', JsMap.get s' (users st) = None ->
        signal s' sig to st = (st, [])).
Proof.
  intros Hreach Hfrom. pose proof (reachable_users_wf st Hreach) as Hwf.
  split; [apply signal_state|]. split; [|split; [|split]].
  - intros t Ht Honly. by rewrite (signal_to_only_binding st s sig to fromUser t).
  - intros Hnone. by rewrite signal_to_nobody.
  - intros old new u roomId name uuid st' Hto Hold Hid Hroom Honly Hre s' sig'
      fromUser' Hfrom'.
    destruct (rebind_only_binding st to old new u roomId name uuid st')
      as [Hnew Honly']; try done.
    rewrite (signal_to_only_binding st' s' sig' to fromUser' new); try done.
    apply reachable_users_wf. by eapply rebound_reachable.
  - intros s' Hs'. by apply signal_unbound_sender.
Qed.

Lemma C3_witness :
  reachable alice_and_bob
  /\ (exists fromUser,
        JsMap.get "s1" (users alice_and_bob) = Some fromUser
        /\ User.id fromUser = "alice")
  /\ (signal "s1" "offer" "bob" alice_and_bob).2
     = [ToSocket "s2" (SignalEvent "offer" "alice")]
  /\ (signal "s1" "offer" "bob"
        (join_room "s9" "abc-def-ghi" (Some "bob") "Bob" "uuid-9"
           (disconnect "s2" alice_and_bob).1).1).2
     = [ToSocket "s9" (SignalEvent "offer" "alice")].
Proof.
  assert (reachable alice_and_bob) as Hr
    by apply run_reachable_registry, reachable_init.
  assert (forall t', bound_to t' "bob" alice_and_bob -> t' = "s2") as Honly.
  { intros t' (u' & Hget & Hid). simpl in Hget.
    destruct (decide (t' = "s1")) as [->|H1]; [by injection Hget as <-|].
    destruct (decide (t' = "s2")) as [->|H2]; [done|discriminate Hget]. }
  destruct (C3_signal_relay alice_and_bob "s1" "offer" "bob" _ Hr eq_refl)
    as (_ & Hone & _ & Hre & _).
  split; [exact Hr|]. split; [eexists; split; reflexivity|]. split.
  - apply (Hone "s2"); [|exact Honly]. eexists. split; reflexivity.
  - assert ("bob" <> "") as Hto by discriminate.
    assert ("abc-def-ghi" <> "") as Hroom by discriminate.
    exact (Hre "s2" "s9" _ "abc-def-ghi" "Bob" "uuid-9" _ Hto eq_refl eq_refl
             Hroom Honly (or_introl eq_refl) "s1" "offer" _ eq_refl).
Defined.

(** *** Joining *)

(** C5. Every join-room event emits the joined-event, which carries the new
    participant and the full roster (the earlier roster followed by the new
    participant), to the room, and the snapshot of the room as the registry
    now stores it to the joining transport.  The joining transport is in
    the room by then, so every transport in the room, the joiner's
    included, gets the joined-event, and the joiner gets the joined-event
    and then the snapshot. *)
Theorem C5_join_broadcast (st : State) (s roomId : string)
  (id : option string) (name uuid : string) :
  let newUser :=
    {| User.id := join_id id uuid; User.socketId := s; User.name := name;
       User.roomId := roomId; User.audioEnabled := None;
       User.videoEnabled := None; User.isScreenSharing := None |} in
  let st' := (join_room s roomId id name uuid st).1 in
  let ems := (join_room s roomId id name uuid st).2 in
  let joinedEvent := UserJoined newUser (roster roomId st ++ [newUser]) in
  exists room,
    rooms st' !! roomId = Some room
    /\ Room.users room = roster roomId st ++ [newUser]
    /\ Room.messages room = history roomId st
    /\ ems = [ToRoom roomId joinedEvent; ToSocket s (RoomInfo room)]
    /\ (roomId, s) ∈ joined st'
    /\ (forall t, (roomId, t) ∈ joined st -> (roomId, t) ∈ joined st')
    /\ (forall t, (roomId, t) ∈ joined st' -> joinedEvent ∈ received st' t ems)
    /\ received st' s ems = [joinedEvent; RoomInfo room].
Proof.
  intros newUser st' ems joinedEvent.
  assert ((roomId, s) ∈ joined st') as Hs.
  { simpl. apply elem_of_union. left. by apply elem_of_singleton. }
  eexists. split; [apply lookup_insert_eq|].
  unfold roster, history.
  repeat split; try done.
  - by destruct (rooms st !! roomId).
  - by destruct (rooms st !! roomId).
  - unfold ems, join_room, joinedEvent, roster; simpl.
    by destruct (rooms st !! roomId).
  - intros t Ht. simpl. apply elem_of_union. by right.
  - intros t Ht. unfold ems, join_room, received, joinedEvent, roster.
    cbn [snd omap list_omap receives].
    rewrite decide_True by done.
    destruct (rooms st !! roomId); apply list_elem_of_here.
  - unfold ems, join_room, received, joinedEvent, roster.
    cbn [snd omap list_omap receives].
    rewrite !decide_True by done.
    by destruct (rooms st !! roomId).
Qed.

(** *** Leaving *)

(** C9. A leave-room event for a room the registry does not have changes
    nothing and emits nothing.  Otherwise every roster entry with the given
    participant id is removed and the other entries stay, in order; the
    room is deleted exactly when no entry remains and is otherwise stored
    with the remaining roster; the other rooms are untouched; and the
    left-event with the remaining roster is emitted to the room, which the
    leaving transport has left by then, so the transports that remain in
    the room get it. *)
Theorem C9_leave_room (st : State) (s roomId userId : string) :
  (rooms st !! roomId = None -> leave_room s roomId userId st = (st, []))
  /\ (forall room,
        rooms st !! roomId = Some room ->
        let remaining := without userId (Room.users room) in
        let st' := (leave_room s roomId userId st).1 in
        let ems := (leave_room s roomId userId st).2 in
        (forall u, u ∈ remaining <-> u ∈ Room.users room /\ User.id u <> userId)
        /\ remaining `sublist_of` Room.users room
        /\ (rooms st' !! roomId = None <-> remaining = [])
        /\ (remaining <> [] ->
            rooms st' !! roomId =
              Some {| Room.id := Room.id room; Room.users := remaining;
                      Room.messages := Room.messages room |})
        /\ (forall R, R <> roomId -> rooms st' !! R = rooms st !! R)
        /\ ems = [ToRoom roomId (UserLeft userId remaining)]
        /\ (forall t, (roomId, t) ∈ joined st -> t <> s ->
              received st' t ems = [UserLeft userId remaining])
        /\ received st' s ems = []).
Proof.
  split.
  - intros Hnone. unfold leave_room. by rewrite Hnone.
  - intros room Hroom remaining st' ems.
    unfold st', ems, leave_room. rewrite Hroom. cbn [fst snd rooms joined].
    fold remaining. cbn [Room.users].
    split; [|split; [|split; [|split; [|split; [|split; [|split]]]]]].
    + intros u. unfold remaining, without. rewrite list_elem_of_filter.
      tauto.
    + apply sublist_filter.
    + destruct (decide (length remaining = 0)) as [Hlen|Hlen].
      * rewrite lookup_delete_eq. by apply nil_length_inv in Hlen.
      * rewrite lookup_insert_eq. split; [done|]. intros Hnil.
        by rewrite Hnil in Hlen.
    + intros Hne. rewrite decide_False; [apply lookup_insert_eq|].
      by destruct remaining.
    + intros R HR. destruct (decide (length remaining = 0)).
      * by rewrite lookup_delete_ne.
      * by rewrite lookup_insert_ne.
    + done.
    + intros t Ht Hts. unfold received. cbn [omap list_omap receives joined].
      rewrite decide_True; [done|]. apply elem_of_difference. split; [done|].
      rewrite elem_of_singleton. by intros [= ?].
    + unfold received. cbn [omap list_omap receives joined].
      rewrite decide_False; [done|]. rewrite elem_of_difference.
      intros [_ Hnot]. apply Hnot. by apply elem_of_singleton.
Qed.

Lemma C9_witness :
  rooms alice_and_bob !! "abc-def-ghi" <> None
  /\ rooms (leave_room "s2" "abc-def-ghi" "bob" alice_and_bob).1
     = rooms alice_alone
  /\ rooms (leave_room "s1" "abc-def-ghi" "alice" alice_alone).1 !! "abc-def-ghi"
     = None
  /\ leave_room "s1" "abc-def-ghi" "alice" init = (init, []).
Proof.
  split; [discriminate|]. split; [reflexivity|]. split.
  - destruct (C9_leave_room alice_alone "s1" "abc-def-ghi" "alice") as [_ Hknown].
    destruct (Hknown _ eq_refl) as (_ & _ & Hdel & _).
    apply Hdel. reflexivity.
  - destruct (C9_leave_room init "s1" "abc-def-ghi" "alice") as [Hunknown _].
    apply Hunknown. reflexivity.
Defined.

(** *** Chat *)


Lemma normalize_fields message stored :
  normalize message = Some stored ->
  ChatMessage.id stored = ChatMessage.id message
  /\ ChatMessage.text stored = ChatMessage.text message
  /\ ChatMessage.timestamp stored = ChatMessage.timestamp message.
Proof.
  unfold normalize.
  destruct (ChatMessage.sender message); intros [= <-]; done.
Qed.







(** It fails for other senders too: with a [null] sender nothing is
    stored, and a sender that is a number is stored as that number. *)
Lemma send_message_null_or_number :
  history "abc-def-ghi"
    (send_message "abc-def-ghi"
       {| ChatMessage.id := "m1"; ChatMessage.sender := SenderNull;
          ChatMessage.text := "hello"; ChatMessage.timestamp := 0 |}
       alice_alone).1 = []
  /\ history "abc-def-ghi"
       (send_message "abc-def-ghi"
          {| ChatMessage.id := "m1"; ChatMessage.sender := SenderNumber 42;
             ChatMessage.text := "hello"; ChatMessage.timestamp := 0 |}
          alice_alone).1
     = [{| ChatMessage.id := "m1"; ChatMessage.sender := SenderNumber 42;
           ChatMessage.text := "hello"; ChatMessage.timestamp := 0 |}].
Proof. split; reflexivity. Qed.



(** *** Media updates *)

Lemma merge_merged u up : merged u up (merge u up).
Proof.
  unfold merged, merge; simpl.
  repeat split; try (by intros ->); by intros ? ->.
Qed.

Lemma update_media_known roomId userId updates st room i u :
  rooms st !! roomId = Some room ->
  list_find (fun u => User.id u = userId) (Room.users room) = Some (i, u) ->
  update_media roomId userId updates st =
    ({| rooms :=
          <[roomId := {| Room.id := Room.id room;
                         Room.users := <[i := merge u updates]> (Room.users room);
                         Room.messages := Room.messages room |}]>
            (rooms st);
        users := users st; joined := joined st |},
     [ToRoom roomId (UpdateMedia userId updates)]).
Proof. unfold update_media. by intros -> ->. Qed.

(** C7. An update-media event for a room of the registry and a
    participant id found in its roster replaces the first roster entry
    with that id by the entry merged with the update: the keys of the
    update take the update's values, the other fields of the entry, the
    other entries of the roster, the chat history, the other rooms, the
    binding table and the room membership stay as they are.  The one
    emission is the delta {userId, updates} to the room; no roster is
    sent.  When the registry has no such room, or the roster has no such
    participant, the state is unchanged and nothing is emitted. *)
Theorem C7_update_media (st : State) (roomId userId : string)
  (updates : Updates.t) :
  (forall room,
     rooms st !! roomId = Some room ->
     (exists u, u ∈ Room.users room /\ User.id u = userId) ->
     exists i u,
       Room.users room !! i = Some u
       /\ User.id u = userId
       /\ (forall j u', j < i -> Room.users room !! j = Some u' ->
             User.id u' <> userId)
       /\ update_media roomId userId updates st =
            ({| rooms :=
                  <[roomId :=
                      {| Room.id := Room.id room;
                         Room.users :=
                           <[i := merge u updates]> (Room.users room);
                         Room.messages := Room.messages room |}]>
                    (rooms st);
                users := users st; joined := joined st |},
             [ToRoom roomId (UpdateMedia userId updates)])
       /\ roster roomId (update_media roomId userId updates st).1 !! i
          = Some (merge u updates)
       /\ merged u updates (merge u updates)
       /\ (forall j, j <> i ->
             roster roomId (update_media roomId userId updates st).1 !! j
             = Room.users room !! j)
       /\ length (roster roomId (update_media roomId userId updates st).1)
          = length (Room.users room)
       /\ history roomId (update_media roomId userId updates st).1
          = Room.messages room
       /\ (forall R, R <> roomId ->
             rooms (update_media roomId userId updates st).1 !! R
             = rooms st !! R))
  /\ (rooms st !! roomId = None
      \/ (exists room, rooms st !! roomId = Some room
            /\ forall u, u ∈ Room.users room -> User.id u <> userId) ->
      update_media roomId userId updates st = (st, [])).
Proof.
  split.
  - intros room Hroom (u0 & Hin & Hid).
    destruct (list_find (fun u => User.id u = userId) (Room.users room))
      as [[i u]|] eqn:Hfind.
    + pose proof Hfind as (Hi & Hu & Hfirst)%list_find_Some.
      exists i, u.
      rewrite (update_media_known roomId userId updates st room i u) by done.
      unfold roster, history. cbn [fst rooms].
      rewrite lookup_insert_eq. cbn [Room.users Room.messages].
      repeat split; try done.
      * intros j u' Hj Hu'. by apply (Hfirst j u').
      * apply list_lookup_insert_eq. by eapply lookup_lt_Some.
      * apply merge_merged.
      * apply merge_merged.
      * apply merge_merged.
      * apply merge_merged.
      * apply merge_merged.
      * apply merge_merged.
      * apply merge_merged.
      * apply merge_merged.
      * apply merge_merged.
      * apply merge_merged.
      * intros j Hj. by apply list_lookup_insert_ne.
      * apply length_insert.
      * intros R HR. by rewrite lookup_insert_ne.
    + apply list_find_None in Hfind.
      by apply (proj1 (Forall_forall _ _) Hfind) in Hin.
  - intros [Hnone|(room & Hroom & Hnobody)]; unfold update_media.
    + by rewrite Hnone.
    + rewrite Hroom.
      destruct (list_find _ _) as [[i u]|] eqn:Hfind; [|done].
      apply list_find_Some in Hfind as (Hi & Hu & _).
      apply list_elem_of_lookup_2 in Hi. by apply Hnobody in Hi.
Qed.

Lemma C7_witness :
  rooms alice_and_bob !! "abc-def-ghi" <> None
  /\ (update_media "abc-def-ghi" "bob"
        {| Updates.id := None; Updates.name := None;
           Updates.audioEnabled := None; Updates.videoEnabled := Some false;
           Updates.isScreenSharing := None |} alice_and_bob).2
     = [ToRoom "abc-def-ghi"
          (UpdateMedia "bob"
             {| Updates.id := None; Updates.name := None;
                Updates.audioEnabled := None; Updates.videoEnabled := Some false;
                Updates.isScreenSharing := None |})]
  /\ update_media "abc-def-ghi" "carol"
       {| Updates.id := None; Updates.name := None;
          Updates.audioEnabled := None; Updates.videoEnabled := Some false;
          Updates.isScreenSharing := None |} alice_and_bob
     = (alice_and_bob, []).
Proof.
  split; [discriminate|]. split.
  - destruct (C7_update_media alice_and_bob "abc-def-ghi" "bob"
                {| Updates.id := None; Updates.name := None;
                   Updates.audioEnabled := None;
                   Updates.videoEnabled := Some false;
                   Updates.isScreenSharing := None |}) as [Hknown _].
    destruct (Hknown _ eq_refl) as (i & u & _ & _ & _ & Heq & _).
    + eexists. split; [apply list_elem_of_further, list_elem_of_here|done].
    + rewrite Heq. reflexivity.
  - apply (proj2 (C7_update_media alice_and_bob "abc-def-ghi" "carol" _)).
    right. eexists. split; [reflexivity|].
    intros u Hu. simpl in Hu.
    apply elem_of_cons in Hu as [->|Hu]; [discriminate|].
    apply list_elem_of_singleton in Hu as ->. discriminate.
Defined.

End ServerFacts.

(** ** More on the connection table *)

Module WebRTCMore.
Import WebRTC WebRTCFacts.

Section ordered_map.
Context {K V : Type} `{EqDecision K}.
Implicit Types (k : K) (v : V) (m : list (K * V)).

Lemma delete_sublist k m : JsMap.delete k m `sublist_of` m.
Proof.
  induction m as [|[k' v'] m IH]; simpl; [done|].
  destruct (decide (k = k')); [by apply sublist_cons|by apply sublist_skip].
Qed.

Lemma set_absent k v m :
  JsMap.get k m = None -> JsMap.set k v m = m ++ [(k, v)].
Proof.
  induction m as [|[k' v'] m IH]; simpl; [done|].
  destruct (decide (k = k')); [done|]. intros Hm. by rewrite IH.
Qed.

Lemma set_present_values {B} (f : V -> B) k v v' m :
  JsMap.get k m = Some v -> f v' = f v ->
  f <$> (JsMap.set k v' m).*2 = f <$> m.*2.
Proof.
  intros Hget Hf. induction m as [|[k0 v0] m IH]; [done|].
  cbn [JsMap.get JsMap.set] in *.
  destruct (decide (k = k0)) as [->|Hne].
  - injection Hget as ->. simpl. by rewrite Hf.
  - rewrite !fmap_cons. by rewrite IH.
Qed.

Lemma delete_set_absent k v m :
  JsMap.get k m = None -> JsMap.delete k (JsMap.set k v m) = m.
Proof.
  induction m as [|[k' v'] m IH]; simpl.
  - intros _. by rewrite decide_True.
  - destruct (decide (k = k')) as [->|Hne]; [done|]. simpl.
    rewrite decide_False by done. intros Hm. by rewrite IH.
Qed.

End ordered_map.

(** *** The shape of the table *)

Lemma table_wf_delete X n c :
  table_wf c -> allocated c <= n ->
  forall q,
    table_wf {| peers := JsMap.delete X (peers c); pendingSignals := q;
                allocated := n |}.
Proof.
  intros (Hkeys & Hid & Hh & Ha) Hn q. unfold table_wf, handles, handles_allocated.
  simpl. repeat split.
  - by apply JsMapFacts.NoDup_keys_delete.
  - intros k pc Hin. apply Hid. by eapply JsMapFacts.elem_of_delete.
  - refine (sublist_NoDup _ _ Hh _). unfold handles, JsMap.values.
    apply fmap_sublist, fmap_sublist, delete_sublist.
  - intros id pc Hin. apply JsMapFacts.elem_of_delete in Hin.
    apply Ha in Hin. lia.
Qed.

Lemma table_wf_mark X pc c :
  table_wf c -> JsMap.get X (peers c) = Some pc ->
  table_wf {| peers := JsMap.set X (set_destroyed pc) (peers c);
              pendingSignals := pendingSignals c; allocated := allocated c |}.
Proof.
  intros (Hkeys & Hid & Hh & Ha) Hget.
  unfold table_wf, handles, handles_allocated, JsMap.values in *.
  simpl. repeat split.
  - by apply JsMapFacts.NoDup_keys_set.
  - intros k pc' Hin.
    apply JsMapFacts.elem_of_set in Hin as [[= -> ->]|Hin]; [|by apply Hid].
    simpl. apply Hid. by apply JsMapFacts.get_Some_elem_of.
  - by rewrite (set_present_values peer X pc).
  - intros id pc' Hin.
    apply JsMapFacts.elem_of_set in Hin as [[= -> ->]|Hin]; [|by eapply Ha].
    simpl. eapply Ha. by apply JsMapFacts.get_Some_elem_of.
Qed.

Lemma table_wf_add X ini c :
  table_wf c -> JsMap.get X (peers c) = None ->
  forall q,
    table_wf {| peers :=
                  JsMap.set X {| peerId := X; peer := allocated c;
                                 initiator := ini; destroyed := false |} (peers c);
                pendingSignals := q; allocated := S (allocated c) |}.
Proof.
  intros (Hkeys & Hid & Hh & Ha) Hget q.
  unfold table_wf, handles, handles_allocated, JsMap.values in *.
  simpl. repeat split.
  - by apply JsMapFacts.NoDup_keys_set.
  - intros k pc' Hin.
    apply JsMapFacts.elem_of_set in Hin as [[= -> ->]|Hin]; [done|by apply Hid].
  - rewrite set_absent by done. rewrite !fmap_app. simpl.
    apply NoDup_app. split; [done|]. split; [|apply NoDup_singleton].
    intros h Hin Hh'. apply list_elem_of_singleton in Hh' as ->.
    apply list_elem_of_fmap in Hin as (pc' & Hpc & Hin).
    apply list_elem_of_fmap in Hin as ([k0 pc0] & -> & Hin).
    apply Ha in Hin. simpl in *. lia.
  - intros id pc' Hin.
    apply JsMapFacts.elem_of_set in Hin as [[= -> ->]|Hin]; [simpl; lia|].
    apply Ha in Hin. lia.
Qed.

Lemma step_table_wf op c : table_wf c -> table_wf (step op c).1.
Proof.
  intros Hwf.
  destruct op as [sig from|X ini stream ok|X| |X|X]; simpl.
  - unfold handleSignal.
    destruct (JsMap.get from (peers c)) as [pc|];
      [destruct (destroyed pc)|]; simpl; by destruct Hwf as (? & ? & ? & ?).
  - destruct (hasPeer X c) eqn:HX.
    + apply hasPeer_true in HX as (pc & Hget & Hd).
      unfold createPeer. by rewrite Hget, Hd.
    + destruct ok.
      * rewrite createPeer_not_live by done. simpl.
        apply (table_wf_add X ini
                 {| peers := JsMap.delete X (peers c);
                    pendingSignals := pendingSignals c;
                    allocated := allocated c |}).
        -- by apply table_wf_delete.
        -- apply JsMapFacts.get_delete_eq.
      * unfold createPeer, createPeer_new.
        destruct (JsMap.get X (peers c)) as [pc|];
          [destruct (destroyed pc)|]; simpl; try done.
        by apply table_wf_delete.
  - unfold removePeer.
    destruct (JsMap.get X (peers c)) as [pc|];
      [destruct (destroyed pc)|]; simpl; try done.
    by apply table_wf_delete.
  - rewrite closeAllConnections_eq. simpl.
    unfold table_wf, handles, handles_allocated; simpl.
    repeat split; try apply NoDup_nil_2; intros ? ? Hin;
      by apply elem_of_nil in Hin.
  - unfold onPeerClosed.
    destruct (JsMap.get X (peers c)) as [pc|] eqn:Hget; simpl; [|done].
    by apply table_wf_mark.
  - unfold onPeerClosed.
    destruct (JsMap.get X (peers c)) as [pc|] eqn:Hget; simpl; [|done].
    by apply table_wf_mark.
Qed.

(** X1. In every reachable state the peer map has one entry per peer id,
    every entry is stored under its own [peerId], no two entries hold the
    same underlying connection, and every connection in the map has been
    constructed. *)
Theorem X1_table_shape (c : WebRTCConnection) : reachable c -> table_wf c.
Proof.
  induction 1 as [|op c _ IH]; [|by apply step_table_wf].
  unfold table_wf, handles, handles_allocated; simpl.
  repeat split; try apply NoDup_nil_2; intros ? ? Hin;
    by apply elem_of_nil in Hin.
Qed.

Lemma X1_witness : reachable two_peers /\ NoDup (handles two_peers).
Proof.
  assert (reachable two_peers) as Hr by apply run_reachable_table, reachable_init.
  split; [exact Hr|]. exact (proj1 (proj2 (proj2 (X1_table_shape _ Hr)))).
Defined.

(** *** Where live entries come from *)

(** A live entry is never touched by a [createPeer], whatever its
    arguments and whether or not the constructor throws. *)
Lemma createPeer_keeps_live X ini stream ok id pc c :
  JsMap.get id (peers c) = Some pc -> destroyed pc = false ->
  JsMap.get id (peers (createPeer X ini stream ok c).1.1) = Some pc.
Proof.
  intros Hget Hd. destruct (decide (X = id)) as [->|Hne].
  - unfold createPeer. by rewrite Hget, Hd.
  - unfold createPeer, createPeer_new, applyPendingSignals.
    destruct (JsMap.get X (peers c)) as [pc0|];
      [destruct (destroyed pc0)|]; destruct ok; simpl;
      try destruct (pendingSignals c !! X); simpl;
      by rewrite ?JsMapFacts.get_set_ne, ?JsMapFacts.get_delete_ne by done.
Qed.

(** X2. An operation turns a peer id without a live entry into one with a
    live entry only if it is a [createPeer] for that id whose constructor
    succeeds: signals, [removePeer], [closeAllConnections] and the close
    and error callbacks never do, and a destroyed entry is never marked
    live again. *)
Theorem X2_live_only_by_createPeer (op : Op) (c : WebRTCConnection)
  (id : string) :
  hasPeer id c = false -> hasPeer id (step op c).1 = true -> creates id op.
Proof.
  intros Hno Hyes.
  destruct op as [sig from|X ini stream ok|X| |X|X]; simpl in Hyes.
  - exfalso. unfold handleSignal in Hyes.
    destruct (JsMap.get from (peers c)) as [pc|];
      [destruct (destroyed pc)|]; unfold hasPeer in *; simpl in Hyes;
      congruence.
  - destruct (decide (X = id)) as [->|Hne].
    + destruct ok; [by eexists _, _|]. exfalso.
      unfold createPeer, createPeer_new in Hyes. unfold hasPeer in Hno.
      destruct (JsMap.get id (peers c)) as [pc|] eqn:Hget;
        [destruct (destroyed pc) eqn:Hd|]; simpl in Hyes;
        unfold hasPeer in Hyes; simpl in Hyes;
        rewrite ?JsMapFacts.get_delete_eq, ?Hget, ?Hd in Hyes; congruence.
    + exfalso. unfold hasPeer in Hno, Hyes.
      unfold createPeer, createPeer_new, applyPendingSignals in Hyes.
      destruct (JsMap.get X (peers c)) as [pc|];
        [destruct (destroyed pc)|]; destruct ok; simpl in Hyes;
        try destruct (pendingSignals c !! X); simpl in Hyes;
        rewrite ?JsMapFacts.get_set_ne, ?JsMapFacts.get_delete_ne in Hyes
          by done; congruence.
  - exfalso. unfold removePeer, hasPeer in *.
    destruct (JsMap.get X (peers c)) as [pc|] eqn:Hget;
      [destruct (destroyed pc)|]; simpl in Hyes; try congruence.
    destruct (decide (X = id)) as [->|Hne].
    + by rewrite JsMapFacts.get_delete_eq in Hyes.
    + rewrite JsMapFacts.get_delete_ne in Hyes by done. congruence.
  - exfalso. by rewrite closeAllConnections_eq in Hyes.
  - exfalso. unfold onPeerClosed, hasPeer in *.
    destruct (JsMap.get X (peers c)) as [pc|] eqn:Hget; simpl in Hyes;
      [|congruence].
    destruct (decide (X = id)) as [->|Hne].
    + by rewrite JsMapFacts.get_set_eq in Hyes.
    + rewrite JsMapFacts.get_set_ne in Hyes by done. congruence.
  - exfalso. unfold onPeerClosed, hasPeer in *.
    destruct (JsMap.get X (peers c)) as [pc|] eqn:Hget; simpl in Hyes;
      [|congruence].
    destruct (decide (X = id)) as [->|Hne].
    + by rewrite JsMapFacts.get_set_eq in Hyes.
    + rewrite JsMapFacts.get_set_ne in Hyes by done. congruence.
Qed.

Lemma X2_witness :
  hasPeer "bob" stale_with_queue = false
  /\ hasPeer "bob" (step (CreatePeer "bob" false 0 true) stale_with_queue).1 = true
  /\ creates "bob" (CreatePeer "bob" false 0 true).
Proof.
  split; [reflexivity|]. split; [reflexivity|].
  exact (X2_live_only_by_createPeer (CreatePeer "bob" false 0 true)
           stale_with_queue "bob" eq_refl eq_refl).
Defined.

Lemma run_stays_dead id ops : forall c,
  Forall (fun op => ~ creates id op) ops ->
  hasPeer id c = false -> hasPeer id (run ops c).1 = false.
Proof.
  induction ops as [|op ops IH]; intros c Hops Hno; simpl; [done|].
  apply Forall_cons in Hops as [Hop Hops].
  assert (hasPeer id (step op c).1 = false) as Hno1.
  { destruct (hasPeer id (step op c).1) eqn:H1; [|done].
    destruct Hop. by eapply X2_live_only_by_createPeer. }
  specialize (IH _ Hops Hno1).
  destruct (step op c) as [c1 a1]; simpl in *.
  by destruct (run ops c1) as [c2 a2].
Qed.

Lemma removePeer_dead id c : hasPeer id (removePeer id c).1 = false.
Proof.
  unfold removePeer, hasPeer.
  destruct (JsMap.get id (peers c)) as [pc|] eqn:Hget;
    [destruct (destroyed pc) eqn:Hd|]; simpl.
  - by rewrite Hget, Hd.
  - by rewrite JsMapFacts.get_delete_eq.
  - by rewrite Hget.
Qed.

Lemma callbacks_of_dead id c :
  hasPeer id c = false ->
  (forall signal, onPeerSignal id signal c = [])
  /\ forall cb, onPeerStream cb id c = false.
Proof.
  unfold hasPeer, onPeerSignal, onPeerStream. intros Hno. split.
  - intros signal. destruct (JsMap.get id (peers c)) as [pc|]; [|done].
    by destruct (destroyed pc).
  - intros cb. rewrite Hno. by destruct cb.
Qed.

(** X3. After [removePeer(id)], and after [closeAllConnections] for every
    id, the signal callback of a connection made for that id sends nothing
    on the socket and its stream callback does not reach
    [onStreamCallback], and this stays so through all later signals,
    removals, teardowns and close or error callbacks, until a [createPeer]
    for that id succeeds. *)
Theorem X3_teardown_silences_callbacks (c : WebRTCConnection) (id : string)
  (ops : list Op) :
  Forall (fun op => ~ creates id op) ops ->
  let after_remove := (run ops (removePeer id c).1).1 in
  let after_close := (run ops (closeAllConnections c).1).1 in
  (forall signal, onPeerSignal id signal after_remove = [])
  /\ (forall cb, onPeerStream cb id after_remove = false)
  /\ (forall signal, onPeerSignal id signal after_close = [])
  /\ (forall cb, onPeerStream cb id after_close = false).
Proof.
  intros Hops after_remove after_close.
  assert (hasPeer id after_remove = false) as H1
    by (apply run_stays_dead; [done|apply removePeer_dead]).
  assert (hasPeer id after_close = false) as H2.
  { apply run_stays_dead; [done|]. by rewrite closeAllConnections_eq. }
  destruct (callbacks_of_dead id _ H1) as [? ?].
  destruct (callbacks_of_dead id _ H2) as [? ?]. done.
Qed.

Lemma X3_witness :
  Forall (fun op => ~ creates "bob" op)
    [HandleSignal "answer" "bob"; PeerClosed "bob"; CreatePeer "alice" true 0 true]
  /\ onPeerSignal "bob" "offer" two_peers = [SendSignal "offer" "bob"]
  /\ onPeerSignal "bob" "offer"
       (run [HandleSignal "answer" "bob"; PeerClosed "bob";
             CreatePeer "alice" true 0 true] (removePeer "bob" two_peers).1).1
     = [].
Proof.
  assert (Forall (fun op => ~ creates "bob" op)
            [HandleSignal "answer" "bob"; PeerClosed "bob";
             CreatePeer "alice" true 0 true]) as Hops.
  { repeat constructor; intros (ini & stream & H); discriminate H. }
  split; [exact Hops|]. split; [reflexivity|].
  exact (proj1 (X3_teardown_silences_callbacks two_peers "bob" _ Hops) "offer").
Defined.

(** X4. [createPeer] is idempotent: once a call for a peer id has returned
    an entry, a second call for that id, whatever its initiator flag and
    stream, constructs nothing, changes nothing and returns the same
    entry. *)
Theorem X4_createPeer_idempotent (c : WebRTCConnection) (id : string)
  (ini1 ini2 : bool) (stream1 stream2 : MediaStream) (ok2 : bool) :
  let c1 := (createPeer id ini1 stream1 true c).1.1 in
  exists pc,
    (createPeer id ini1 stream1 true c).2 = Some pc
    /\ createPeer id ini2 stream2 ok2 c1 = (c1, [], Some pc).
Proof.
  intros c1. unfold c1. destruct (hasPeer id c) eqn:Hlive.
  - apply hasPeer_true in Hlive as (pc & Hget & Hd).
    exists pc. unfold createPeer. rewrite Hget, Hd. simpl.
    by rewrite Hget, Hd.
  - rewrite createPeer_not_live by done. simpl. eexists. split; [done|].
    unfold createPeer; simpl. by rewrite JsMapFacts.get_set_eq.
Qed.

(** *** The fallback of the track replacement *)

Lemma get_wf_peerId id pc c :
  table_wf c -> JsMap.get id (peers c) = Some pc -> peerId pc = id.
Proof.
  intros (_ & Hid & _) Hget. apply Hid. by apply JsMapFacts.get_Some_elem_of.
Qed.

(** X5. For a live entry of a reachable state, the fallback (remove the
    peer, create it again with the same initiator role and the new
    stream) destroys the old connection once, constructs one new
    connection, which differs from every connection of the map before, and
    signals nothing; the peer's new entry is live, keeps the initiator
    role and goes to the end of the map, and the other entries and all
    queues are as before. *)
Theorem X5_recreatePeer (c : WebRTCConnection) (id : string)
  (pc : PeerConnection) (newStream : MediaStream) :
  reachable c ->
  JsMap.get id (peers c) = Some pc -> destroyed pc = false ->
  let pc' := {| peerId := id; peer := allocated c; initiator := initiator pc;
                destroyed := false |} in
  recreatePeer pc newStream true c =
    ({| peers := JsMap.delete id (peers c) ++ [(id, pc')];
        pendingSignals := pendingSignals c;
        allocated := S (allocated c) |},
     [MarkDestroyed id; PeerDestroy (peer pc);
      NewPeer (allocated c) (initiator pc) newStream],
     Some pc')
  /\ (allocated c ∉ handles c)
  /\ forall other, other <> id ->
       JsMap.get other (JsMap.delete id (peers c) ++ [(id, pc')])
       = JsMap.get other (peers c).
Proof.
  intros Hreach Hget Hd pc'.
  pose proof (X1_table_shape c Hreach) as Hwf.
  pose proof (get_wf_peerId id pc c Hwf Hget) as Hid.
  assert (pendingSignals c !! id = None) as Hq.
  { apply (reachable_queue_free c Hreach). apply hasPeer_true. by exists pc. }
  split; [|split].
  - unfold recreatePeer, removePeer. rewrite Hid, Hget, Hd.
    rewrite createPeer_not_live
      by (unfold hasPeer; simpl; by rewrite JsMapFacts.get_delete_eq).
    unfold queue; simpl. rewrite lookup_delete_eq. simpl.
    rewrite (JsMapFacts.delete_absent id (JsMap.delete id (peers c)))
      by apply JsMapFacts.get_delete_eq.
    rewrite set_absent by apply JsMapFacts.get_delete_eq.
    rewrite !delete_id; try done. by rewrite delete_id.
  - intros Hin. unfold handles, JsMap.values in Hin.
    apply list_elem_of_fmap in Hin as (pc0 & Hh & Hin).
    apply list_elem_of_fmap in Hin as ([k0 pc1] & -> & Hin).
    destruct Hwf as (_ & _ & _ & Ha). apply Ha in Hin. simpl in *. lia.
  - intros other Hne.
    rewrite <- (set_absent id pc' (JsMap.delete id (peers c)))
      by apply JsMapFacts.get_delete_eq.
    rewrite JsMapFacts.get_set_ne by done.
    by rewrite JsMapFacts.get_delete_ne.
Qed.

Lemma X5_witness :
  reachable two_peers
  /\ (recreatePeer
        {| peerId := "alice"; peer := 0; initiator := true; destroyed := false |}
        9 true two_peers).1.2
     = [MarkDestroyed "alice"; PeerDestroy 0; NewPeer 2 true 9]
  /\ (peers (recreatePeer
        {| peerId := "alice"; peer := 0; initiator := true; destroyed := false |}
        9 true two_peers).1.1).*1
     = ["bob"; "alice"].
Proof.
  assert (reachable two_peers) as Hr by apply run_reachable_table, reachable_init.
  destruct (X5_recreatePeer two_peers "alice"
              {| peerId := "alice"; peer := 0; initiator := true;
                 destroyed := false |} 9 Hr eq_refl eq_refl)
    as (Heq & _ & _).
  split; [exact Hr|]. rewrite Heq. split; reflexivity.
Defined.

(** X6. The close and error callbacks find their entry by peer id, not by
    connection: when the callback of the connection that the fallback
    removed runs after the fallback, it marks the peer's new entry
    destroyed although the new connection was never destroyed; from then
    on signals for the peer are queued instead of applied and the new
    connection's own signals are no longer sent on. *)
Theorem X6_late_close_hits_new_entry (c : WebRTCConnection) (id : string)
  (pc : PeerConnection) (newStream : MediaStream) :
  reachable c ->
  JsMap.get id (peers c) = Some pc -> destroyed pc = false ->
  let c1 := (recreatePeer pc newStream true c).1.1 in
  let c2 := (onPeerClosed id c1).1 in
  hasPeer id c1 = true
  /\ hasPeer id c2 = false
  /\ JsMap.get id (peers c2)
     = Some {| peerId := id; peer := allocated c; initiator := initiator pc;
               destroyed := true |}
  /\ (PeerDestroy (allocated c) ∉ (recreatePeer pc newStream true c).1.2)
  /\ (forall signal,
        onPeerSignal id signal c1 = [SendSignal signal id]
        /\ onPeerSignal id signal c2 = []
        /\ (handleSignal signal id c2).2 = []
        /\ queue id (handleSignal signal id c2).1 = [signal]).
Proof.
  intros Hreach Hget Hd c1 c2.
  destruct (X5_recreatePeer c id pc newStream Hreach Hget Hd)
    as (Heq & Hfresh & _).
  assert (pendingSignals c !! id = None) as Hq.
  { apply (reachable_queue_free c Hreach). apply hasPeer_true. by exists pc. }
  assert (JsMap.get id (peers c1)
          = Some {| peerId := id; peer := allocated c;
                    initiator := initiator pc; destroyed := false |}) as Hnew.
  { unfold c1. rewrite Heq. simpl.
    rewrite <- (set_absent id _ (JsMap.delete id (peers c)))
      by apply JsMapFacts.get_delete_eq.
    apply JsMapFacts.get_set_eq. }
  assert (JsMap.get id (peers c2)
          = Some {| peerId := id; peer := allocated c;
                    initiator := initiator pc; destroyed := true |}) as Hmarked.
  { unfold c2, onPeerClosed. rewrite Hnew. simpl.
    by rewrite JsMapFacts.get_set_eq. }
  assert (pendingSignals c2 !! id = None) as Hq2.
  { unfold c2, onPeerClosed. rewrite Hnew. simpl. unfold c1. by rewrite Heq. }
  split; [unfold hasPeer; by rewrite Hnew|].
  split; [unfold hasPeer; by rewrite Hmarked|].
  split; [done|]. split.
  - rewrite Heq. simpl. intros Hin.
    apply elem_of_cons in Hin as [Hin|Hin]; [done|].
    apply elem_of_cons in Hin as [[= Hin]|Hin].
    + apply Hfresh. rewrite Hin. unfold handles, JsMap.values.
      apply list_elem_of_fmap. exists pc. split; [done|].
      apply list_elem_of_fmap. exists (id, pc). split; [done|].
      by apply JsMapFacts.get_Some_elem_of.
    + apply elem_of_cons in Hin as [Hin|Hin]; [done|]. by apply elem_of_nil in Hin.
  - intros signal. unfold onPeerSignal, handleSignal, queue.
    rewrite Hnew, Hmarked. simpl. rewrite lookup_insert_eq, Hq2. done.
Qed.

Lemma X6_witness :
  reachable two_peers
  /\ hasPeer "alice"
       (onPeerClosed "alice"
          (recreatePeer
             {| peerId := "alice"; peer := 0; initiator := true;
                destroyed := false |} 9 true two_peers).1.1).1
     = false.
Proof.
  assert (reachable two_peers) as Hr by apply run_reachable_table, reachable_init.
  split; [exact Hr|].
  exact (proj1 (proj2 (X6_late_close_hits_new_entry two_peers "alice" _ 9 Hr
                         eq_refl eq_refl))).
Defined.

End WebRTCMore.

(** ** The meeting room component *)

Module ClientFacts.
Import WebRTC WebRTCFacts WebRTCMore Client.

(** *** Signals *)

Lemma roomOnSignal_not_live signal from localStream c :
  hasPeer from c = false ->
  roomOnSignal signal from localStream true c =
    let pc := {| peerId := from; peer := allocated c; initiator := false;
                 destroyed := false |} in
    ({| peers := JsMap.set from pc (JsMap.delete from (peers c));
        pendingSignals := delete from (pendingSignals c);
        allocated := S (allocated c) |},
     NewPeer (allocated c) false localStream
       :: (PeerSignal (allocated c) <$> (queue from c ++ [signal]))).
Proof.
  intros Hno. unfold roomOnSignal. rewrite handleSignal_queued by done.
  set (c1 := {| peers := peers c |}).
  assert (hasPeer from c1 = false) as Hno1 by done.
  rewrite Hno1, createPeer_not_live by done. simpl.
  assert (queue from c1 = queue from c ++ [signal]) as ->.
  { unfold queue at 1, c1; simpl. by rewrite lookup_insert_eq. }
  by rewrite delete_insert_eq.
Qed.

Lemma roomOnSignal_live signal from localStream ok c pc :
  JsMap.get from (peers c) = Some pc -> destroyed pc = false ->
  roomOnSignal signal from localStream ok c = (c, [PeerSignal (peer pc) signal]).
Proof.
  intros Hget Hd. unfold roomOnSignal.
  rewrite (handleSignal_direct signal from c pc) by done.
  unfold hasPeer. by rewrite Hget, Hd.
Qed.

(** X7. The signal listener of the meeting room leaves the sender with a
    live connection and no queue (when the constructor succeeds).  If the
    sender has a live connection the signal goes to it and nothing else
    changes; otherwise a connection is constructed with the local side as
    non-initiator, and the sender's earlier queued signals and then this
    signal are given to it in order. *)
Theorem X7_signal_listener (c : WebRTCConnection) (signal : Signal)
  (from : string) (localStream : MediaStream) :
  reachable c ->
  let r := roomOnSignal signal from localStream true c in
  hasPeer from r.1 = true
  /\ pendingSignals r.1 !! from = None
  /\ if hasPeer from c then
       exists pc,
         JsMap.get from (peers c) = Some pc
         /\ r = (c, [PeerSignal (peer pc) signal])
     else
       r.2 = NewPeer (allocated c) false localStream
               :: (PeerSignal (allocated c) <$> (queue from c ++ [signal]))
       /\ JsMap.get from (peers r.1)
          = Some {| peerId := from; peer := allocated c; initiator := false;
                    destroyed := false |}.
Proof.
  intros Hreach r. unfold r. destruct (hasPeer from c) eqn:Hlive.
  - pose proof (reachable_queue_free c Hreach from Hlive) as Hq.
    pose proof Hlive as (pc & Hget & Hd)%hasPeer_true.
    rewrite (roomOnSignal_live signal from localStream true c pc) by done.
    simpl. split; [done|]. split; [done|]. by exists pc.
  - rewrite roomOnSignal_not_live by done. simpl.
    split; [unfold hasPeer; simpl; by rewrite JsMapFacts.get_set_eq|].
    split; [apply lookup_delete_eq|]. split; [done|].
    apply JsMapFacts.get_set_eq.
Qed.

Lemma X7_witness :
  reachable stale_with_queue
  /\ (roomOnSignal "answer" "bob" 5 true stale_with_queue).2
     = [NewPeer 1 false 5; PeerSignal 1 "candidate"; PeerSignal 1 "answer"].
Proof.
  assert (reachable stale_with_queue) as Hr
    by apply run_reachable_table, reachable_init.
  split; [exact Hr|].
  exact (proj1 (proj2 (proj2 (X7_signal_listener stale_with_queue "answer"
                                "bob" 5 Hr)))).
Defined.

(** X8. With the listener of the [WebRTCConnection] constructor and the
    listener of the meeting room both installed, one signal event gives
    the signal to the sender's connection twice: twice directly when the
    connection is live, and otherwise twice at the end of the replayed
    queue of the connection that the second listener creates. *)
Theorem X8_signal_applied_twice (c : WebRTCConnection) (signal : Signal)
  (from : string) (localStream : MediaStream) :
  reachable c ->
  if hasPeer from c then
    exists pc,
      JsMap.get from (peers c) = Some pc
      /\ receiveSignal signal from localStream true c
         = (c, [PeerSignal (peer pc) signal; PeerSignal (peer pc) signal])
  else
    (receiveSignal signal from localStream true c).2
    = NewPeer (allocated c) false localStream
        :: (PeerSignal (allocated c) <$> (queue from c ++ [signal; signal])).
Proof.
  intros Hreach. unfold receiveSignal, classOnSignal.
  destruct (hasPeer from c) eqn:Hlive.
  - pose proof Hlive as (pc & Hget & Hd)%hasPeer_true. exists pc.
    split; [done|].
    rewrite (handleSignal_direct signal from c pc) by done.
    by rewrite (roomOnSignal_live signal from localStream true c pc).
  - rewrite handleSignal_queued by done.
    set (c1 := {| peers := peers c |}).
    assert (hasPeer from c1 = false) as Hno1 by done.
    rewrite (roomOnSignal_not_live signal from localStream c1 Hno1). simpl.
    assert (queue from c1 = queue from c ++ [signal]) as ->.
    { unfold queue at 1, c1; simpl. by rewrite lookup_insert_eq. }
    by rewrite <- app_assoc.
Qed.

Lemma X8_witness :
  reachable two_peers
  /\ receiveSignal "answer" "bob" 5 true two_peers
     = (two_peers, [PeerSignal 1 "answer"; PeerSignal 1 "answer"]).
Proof.
  assert (reachable two_peers) as Hr by apply run_reachable_table, reachable_init.
  split; [exact Hr|].
  destruct (X8_signal_applied_twice two_peers "answer" "bob" 5 Hr)
    as (pc & Hget & Heq).
  injection Hget as <-. exact Heq.
Defined.

(** *** Connecting to the participants *)

Lemma createPeer_actions X ini stream ok c a :
  a ∈ (createPeer X ini stream ok c).1.2 ->
  a = NewPeer (allocated c) ini stream
  \/ exists signal, a = PeerSignal (allocated c) signal.
Proof.
  destruct (hasPeer X c) eqn:Hlive.
  - apply hasPeer_true in Hlive as (pc & Hget & Hd).
    unfold createPeer. rewrite Hget, Hd. simpl. by intros ?%elem_of_nil.
  - destruct ok.
    + rewrite createPeer_not_live by done. simpl.
      intros [->|Hin]%elem_of_cons; [by left|]. right.
      apply list_elem_of_fmap in Hin as (signal & -> & _). by exists signal.
    + unfold createPeer, createPeer_new.
      destruct (JsMap.get X (peers c)) as [pc|];
        [destruct (destroyed pc)|]; simpl; by intros ?%elem_of_nil.
Qed.

Lemma createPeer_other X ini stream ok id c :
  X <> id ->
  JsMap.get id (peers (createPeer X ini stream ok c).1.1)
  = JsMap.get id (peers c).
Proof.
  intros Hne. unfold createPeer, createPeer_new, applyPendingSignals.
  destruct (JsMap.get X (peers c)) as [pc0|];
    [destruct (destroyed pc0)|]; destruct ok; simpl;
    try destruct (pendingSignals c !! X); simpl;
    by rewrite ?JsMapFacts.get_set_ne, ?JsMapFacts.get_delete_ne by done.
Qed.

Lemma createPeer_live X ini stream c :
  hasPeer X (createPeer X ini stream true c).1.1 = true.
Proof.
  destruct (hasPeer X c) eqn:Hlive.
  - pose proof Hlive as (pc & Hget & Hd)%hasPeer_true.
    unfold createPeer. by rewrite Hget, Hd.
  - rewrite createPeer_not_live by done. unfold hasPeer; simpl.
    by rewrite JsMapFacts.get_set_eq.
Qed.

Lemma connectExisting_general participants userId localStream :
  forall ctor_ok c,
    let r := connectExisting participants userId localStream ctor_ok c in
    (forall id pc,
       JsMap.get id (peers c) = Some pc -> destroyed pc = false ->
       JsMap.get id (peers r.1) = Some pc)
    /\ JsMap.get userId (peers r.1) = JsMap.get userId (peers c)
    /\ Forall (connects localStream) r.2
    /\ ((forall n, ctor_ok n = true) ->
        forall p, p ∈ participants -> Participant.id p <> userId ->
          hasPeer (Participant.id p) r.1 = true).
Proof.
  induction participants as [|p ps IH]; intros ctor_ok c; simpl.
  - repeat split; try done. intros _ p Hp. by apply elem_of_nil in Hp.
  - set (head :=
           if decide (Participant.id p = userId) then (c, [])
           else if hasPeer (Participant.id p) c then (c, [])
           else (createPeer (Participant.id p) true localStream (ctor_ok 0) c).1).
    assert ((forall id pc,
               JsMap.get id (peers c) = Some pc -> destroyed pc = false ->
               JsMap.get id (peers head.1) = Some pc)
            /\ JsMap.get userId (peers head.1) = JsMap.get userId (peers c)
            /\ Forall (connects localStream) head.2
            /\ (ctor_ok 0 = true -> Participant.id p <> userId ->
                hasPeer (Participant.id p) head.1 = true)) as (Hk & Hs & Ha & Hl).
    { unfold head. destruct (decide (Participant.id p = userId)) as [Hself|Hother];
        [by repeat split|].
      destruct (hasPeer (Participant.id p) c) eqn:Hlive; [by repeat split|].
      repeat split.
      - intros id pc Hget Hd. by apply createPeer_keeps_live.
      - by apply createPeer_other.
      - apply Forall_forall. intros a Hin.
        apply createPeer_actions in Hin as [->|(signal & ->)];
          [left; by eexists|right; by eexists _, _].
      - intros -> _. apply createPeer_live. }
    specialize (IH (fun n => ctor_ok (S n)) head.1).
    destruct head as [c1 a1]. simpl in *.
    destruct (connectExisting ps userId localStream _ c1) as [c2 a2].
    simpl in *. destruct IH as (Hk2 & Hs2 & Ha2 & Hl2).
    split; [|split; [|split]].
    + intros id pc Hget Hd. apply Hk2; [|done]. by apply Hk.
    + by rewrite Hs2.
    + by apply Forall_app.
    + intros Hok q Hq Hne.
      apply elem_of_cons in Hq as [->|Hq]; [|by apply Hl2].
      specialize (Hl (Hok 0) Hne).
      apply hasPeer_true in Hl as (pc & Hget & Hd).
      apply hasPeer_true. exists pc. split; [|done]. by apply Hk2.
Qed.

(** X9. The loop over the existing participants never touches a live
    entry, never creates an entry for the own user id, and calls nothing
    but constructions as initiator with the local stream and replays of
    queued signals (it never destroys a connection).  When no constructor
    throws, every listed participant other than the own user has a live
    connection afterwards. *)
Theorem X9_connectExisting (participants : list Participant.t)
  (userId : string) (localStream : MediaStream) (ctor_ok : nat -> bool)
  (c : WebRTCConnection) :
  let r := connectExisting participants userId localStream ctor_ok c in
  (forall id pc,
     JsMap.get id (peers c) = Some pc -> destroyed pc = false ->
     JsMap.get id (peers r.1) = Some pc)
  /\ JsMap.get userId (peers r.1) = JsMap.get userId (peers c)
  /\ Forall (connects localStream) r.2
  /\ ((forall n, ctor_ok n = true) ->
      forall p, p ∈ participants -> Participant.id p <> userId ->
        hasPeer (Participant.id p) r.1 = true).
Proof. apply connectExisting_general. Qed.

Lemma X9_witness :
  (connectExisting [sample "alice"; sample "me"; sample "carol"]
     "me" 5 (fun _ => true) two_peers).2
  = [NewPeer 2 true 5]
  /\ hasPeer "carol"
       (connectExisting [sample "alice"; sample "me"; sample "carol"]
          "me" 5 (fun _ => true) two_peers).1 = true.
Proof.
  split; [reflexivity|].
  refine (proj2 (proj2 (proj2 (X9_connectExisting _ "me" 5 (fun _ => true)
                                 two_peers)))
            (fun _ => eq_refl) (sample "carol") _ _).
  - apply list_elem_of_further, list_elem_of_further, list_elem_of_here.
  - discriminate.
Defined.

(** *** The participant list *)

Lemma known_spec id prev : known id prev = true <-> id ∈ ids prev.
Proof.
  unfold known, ids. rewrite bool_decide_eq_true, Exists_exists, list_elem_of_fmap.
  split; intros (p & H1 & H2); exists p; done.
Qed.

Lemma known_false id prev : known id prev = false <-> id ∉ ids prev.
Proof.
  rewrite <- known_spec. destruct (known id prev); split; congruence.
Qed.

(** X10. A joined-event for a user id that the list already has changes
    nothing, even if it carries another name or other flags; otherwise
    the user goes to the end of the list, with audio and video on and no
    screen share unless the event says otherwise.  So the listener keeps
    the ids of the list distinct, and a repeated joined-event for the
    same id has no effect. *)
Theorem X10_participantJoined (prev : list Participant.t) (user : Server.User.t) :
  (Server.User.id user ∈ ids prev -> participantJoined prev user = prev)
  /\ (Server.User.id user ∉ ids prev ->
      participantJoined prev user = prev ++ [fromUser user])
  /\ (NoDup (ids prev) -> NoDup (ids (participantJoined prev user)))
  /\ (forall user',
        Server.User.id user' = Server.User.id user ->
        participantJoined (participantJoined prev user) user'
        = participantJoined prev user).
Proof.
  assert (Server.User.id user ∈ ids (participantJoined prev user)) as Hin.
  { unfold participantJoined.
    destruct (known (Server.User.id user) prev) eqn:Hk.
    - by apply known_spec.
    - unfold ids. rewrite fmap_app. apply elem_of_app. right.
      apply list_elem_of_here. }
  split; [|split; [|split]].
  - intros Hk%known_spec. unfold participantJoined. by rewrite Hk.
  - intros Hk%known_false. unfold participantJoined. by rewrite Hk.
  - intros Hnd. unfold participantJoined.
    destruct (known (Server.User.id user) prev) eqn:Hk; [done|].
    apply known_false in Hk. unfold ids in *. rewrite fmap_app.
    apply NoDup_app. split; [done|]. split; [|apply NoDup_singleton].
    intros x Hx Hx'. apply list_elem_of_singleton in Hx'. by subst.
  - intros user' Hid. unfold participantJoined at 1.
    rewrite Hid. apply known_spec in Hin. by rewrite Hin.
Qed.

Lemma X10_witness :
  participantJoined (participantJoined [sample "bob"] Server.alice_record)
    Server.alice_record
  = [sample "bob"; fromUser Server.alice_record].
Proof.
  destruct (X10_participantJoined [sample "bob"] Server.alice_record)
    as (_ & Hnew & _ & Hagain).
  rewrite Hagain by reflexivity. apply Hnew.
  unfold ids; simpl. intros Hin.
  apply list_elem_of_singleton in Hin. discriminate Hin.
Defined.

Lemma ids_roomInfo userId room :
  ids (roomInfo userId room)
  = filter (fun i => i <> userId) (Server.User.id <$> Server.Room.users room).
Proof.
  unfold roomInfo, ids. rewrite <- list_fmap_compose.
  induction (Server.Room.users room) as [|u us IH]; [done|].
  rewrite fmap_cons, !filter_cons. simpl.
  destruct (decide (Server.User.id u <> userId));
    [rewrite fmap_cons; simpl|]; by rewrite IH.
Qed.

Lemma ids_roomInfoList userId room :
  ids (roomInfoList userId room) = ids (roomInfo userId room).
Proof.
  unfold roomInfoList, roomInfo, ids. by rewrite <- !list_fmap_compose.
Qed.

(** X11. Both room-info listeners replace the list by the entries of the
    snapshot whose id is not the own user id, in roster order, with the
    id and the name of the entry and no stream; so the own id is never in
    the result.  The listener of the meeting room shows every one of them
    with audio on, video on and no screen share, whatever flags the
    snapshot carries; the listener of the participant list shows each of
    the three flags of the snapshot, and audio on, video on, no screen
    share for a flag that the snapshot entry does not have. *)
Theorem X11_roomInfo (userId : string) (room : Server.Room.t) :
  let others :=
    filter (fun u => Server.User.id u <> userId) (Server.Room.users room) in
  ids (roomInfo userId room) = Server.User.id <$> others
  /\ ids (roomInfoList userId room) = Server.User.id <$> others
  /\ (userId ∉ ids (roomInfo userId room))
  /\ Forall2 (fun p u =>
                Participant.id p = Server.User.id u
                /\ Participant.name p = Server.User.name u
                /\ unmuted p)
       (roomInfo userId room) others
  /\ Forall2 (fun p u =>
                Participant.id p = Server.User.id u
                /\ Participant.name p = Server.User.name u
                /\ Participant.audioEnabled p
                   = default true (Server.User.audioEnabled u)
                /\ Participant.videoEnabled p
                   = default true (Server.User.videoEnabled u)
                /\ Participant.isScreenSharing p
                   = default false (Server.User.isScreenSharing u)
                /\ Participant.stream p = None)
       (roomInfoList userId room) others.
Proof.
  intros others.
  assert (Server.User.id <$> others
          = filter (fun i => i <> userId)
              (Server.User.id <$> Server.Room.users room)) as Hothers.
  { unfold others. clear others.
    induction (Server.Room.users room) as [|u us IH]; [done|].
    rewrite fmap_cons, !filter_cons.
    destruct (decide (Server.User.id u <> userId));
      by rewrite ?fmap_cons, IH. }
  split; [by rewrite ids_roomInfo|].
  split; [by rewrite ids_roomInfoList, ids_roomInfo|].
  split; [|split].
  - rewrite ids_roomInfo. intros Hin. by apply list_elem_of_filter in Hin as [? _].
  - unfold roomInfo. fold others. apply Forall2_fmap_l, Forall_Forall2_diag.
    apply Forall_forall. by intros u _.
  - unfold roomInfoList. fold others. apply Forall2_fmap_l, Forall_Forall2_diag.
    apply Forall_forall. by intros u _.
Qed.

Lemma filter_ids_snoc (self : string) (l : list string) :
  filter (fun i => i <> self) (l ++ [self]) = filter (fun i => i <> self) l.
Proof.
  rewrite filter_app, filter_cons, filter_nil.
  rewrite decide_False by (by intros ?). apply app_nil_r.
Qed.

(** X12. The server sends a joiner its own joined-event and then the
    snapshot.  Whatever the joiner's list held before, after these two
    events it holds the snapshot's entries other than the joiner, in
    roster order: the ids of the roster before the join that differ from
    the joiner's id.  The joined-event by itself would have put the joiner
    into its own list. *)
Theorem X12_joiner_sees_the_others (st : Server.State) (s roomId : string)
  (id : option string) (name uuid : string) (prev : list Participant.t) :
  let self := Server.join_id id uuid in
  let st' := (Server.join_room s roomId id name uuid st).1 in
  let events :=
    Server.received st' s (Server.join_room s roomId id name uuid st).2 in
  ids (onEvents self prev events)
  = filter (fun i => i <> self) (Server.User.id <$> Server.roster roomId st)
  /\ Forall unmuted (onEvents self prev events)
  /\ (self ∉ ids prev -> self ∈ ids (onEvents self prev (take 1 events))).
Proof.
  intros self st' events.
  assert (exists room,
            Server.Room.users room
            = Server.roster roomId st ++
                [{| Server.User.id := self; Server.User.socketId := s;
                    Server.User.name := name; Server.User.roomId := roomId;
                    Server.User.audioEnabled := None;
                    Server.User.videoEnabled := None;
                    Server.User.isScreenSharing := None |}]
            /\ events
               = [Server.UserJoined
                    {| Server.User.id := self; Server.User.socketId := s;
                       Server.User.name := name; Server.User.roomId := roomId;
                       Server.User.audioEnabled := None;
                       Server.User.videoEnabled := None;
                       Server.User.isScreenSharing := None |}
                    (Server.Room.users room);
                  Server.RoomInfo room]) as (room & Husers & ->).
  { unfold events, st', Server.join_room, Server.received, Server.roster.
    cbn [fst snd omap list_omap Server.receives Server.joined].
    rewrite decide_True
      by (apply elem_of_union; left; by apply elem_of_singleton).
    rewrite decide_True by done. eexists. split; [|reflexivity].
    simpl. by destruct (Server.rooms st !! roomId). }
  unfold onEvents. cbn [fold_left onEvent take].
  split; [|split].
  - rewrite ids_roomInfo, Husers, fmap_app. apply filter_ids_snoc.
  - unfold roomInfo. apply Forall_fmap, Forall_forall. by intros u _.
  - intros Hnew%known_false. unfold participantJoined. cbn [Server.User.id].
    rewrite Hnew. unfold ids. rewrite fmap_app. apply elem_of_app. right.
    apply list_elem_of_here.
Qed.

Lemma X12_witness :
  "bob" ∈ ids
    (onEvents "bob" []
       (take 1
          (Server.received
             (Server.join_room "s2" "abc-def-ghi" (Some "bob") "Bob" "u2"
                Server.alice_alone).1 "s2"
             (Server.join_room "s2" "abc-def-ghi" (Some "bob") "Bob" "u2"
                Server.alice_alone).2))).
Proof.
  destruct (X12_joiner_sees_the_others Server.alice_alone "s2" "abc-def-ghi"
              (Some "bob") "Bob" "u2" []) as (_ & _ & Hown).
  apply Hown. apply not_elem_of_nil.
Defined.

(** *** The list follows the roster *)

Lemma ids_participantJoined ps user i :
  i ∈ ids (participantJoined ps user) <-> i ∈ ids ps \/ i = Server.User.id user.
Proof.
  unfold participantJoined.
  destruct (known (Server.User.id user) ps) eqn:Hk.
  - apply known_spec in Hk. split; [by left|]. by intros [?| ->].
  - unfold ids. rewrite fmap_app, elem_of_app. simpl.
    by rewrite list_elem_of_singleton.
Qed.

Lemma ids_participantLeft ps leftUserId i :
  i ∈ ids (participantLeft ps leftUserId) <-> i <> leftUserId /\ i ∈ ids ps.
Proof.
  unfold participantLeft, ids. rewrite !list_elem_of_fmap. split.
  - intros (p & -> & Hp). apply list_elem_of_filter in Hp as [Hne Hp].
    split; [done|]. by exists p.
  - intros (Hne & p & -> & Hp). exists p. split; [done|].
    by apply list_elem_of_filter.
Qed.

Lemma ids_updateMedia self ps updatedUserId updates :
  Server.Updates.id updates = None ->
  ids (updateMedia self ps updatedUserId updates) = ids ps.
Proof.
  intros Hid. unfold updateMedia, updateMediaList, ids.
  destruct (decide (updatedUserId = self)); [done|].
  rewrite <- list_fmap_compose. apply list_fmap_ext. intros k p _. simpl.
  destruct (decide (Participant.id p = updatedUserId)); [|done].
  unfold merge; simpl. by rewrite Hid.
Qed.

Lemma roster_ids_without i userId (us : list Server.User.t) :
  i ∈ Server.User.id <$> Server.without userId us <->
  i <> userId /\ i ∈ Server.User.id <$> us.
Proof.
  unfold Server.without. rewrite !list_elem_of_fmap. split.
  - intros (u & -> & Hu). apply list_elem_of_filter in Hu as [Hne Hu].
    split; [done|]. by exists u.
  - intros (Hne & u & -> & Hu). exists u. split; [done|].
    by apply list_elem_of_filter.
Qed.

Lemma roster_ids_update R roomId userId updates st :
  Server.Updates.id updates = None ->
  Server.User.id <$> Server.roster R (Server.update_media roomId userId updates st).1
  = Server.User.id <$> Server.roster R st.
Proof.
  intros Hid. unfold Server.update_media, Server.roster.
  destruct (Server.rooms st !! roomId) as [room|] eqn:Hroom; [|done].
  destruct (list_find _ _) as [[k u]|] eqn:Hfind; [|done]. simpl.
  destruct (decide (roomId = R)) as [<-|Hne].
  - rewrite lookup_insert_eq, Hroom. simpl.
    apply list_find_Some in Hfind as (Hk & _).
    rewrite list_fmap_insert. apply list_insert_id.
    rewrite list_lookup_fmap, Hk. simpl. unfold Server.merge; simpl.
    by rewrite Hid.
  - by rewrite lookup_insert_ne.
Qed.

Lemma received_room st t R e :
  Server.received st t [Server.ToRoom R e]
  = if decide ((R, t) ∈ Server.joined st) then [e] else [].
Proof.
  unfold Server.received. cbn [omap list_omap Server.receives].
  by destruct (decide ((R, t) ∈ Server.joined st)).
Qed.

(** One event of the server keeps the client in sync. *)
Lemma step_in_sync self t roomId ps st op :
  in_sync self t roomId ps st ->
  foreign self t roomId st op ->
  in_sync self t roomId
    (onEvents self ps
       (Server.received (Server.step op st).1 t (Server.step op st).2))
    (Server.step op st).1.
Proof.
  intros (Hshow & Hself & Ht & Honly) Hop. unfold shows in Hshow.
  destruct op as [s R id name uuid|s R userId|s sig to
                 |s R userId updates|s R message|s];
    cbn [Server.step foreign] in *.
  - (* join-room *)
    destruct Hop as (Hst & _ & Hid).
    assert (forall R0, (R0, t) ∈ Server.joined (Server.join_room s R id name uuid st).1
                       <-> (R0, t) ∈ Server.joined st) as Hj.
    { intros R0. simpl. rewrite elem_of_union, elem_of_singleton.
      split; [|by right]. by intros [[= _ ?]|?]. }
    unfold in_sync, shows.
    rewrite (ServerFacts.roster_join roomId s R id name uuid st).
    split; [|split; [|split]].
    + intros i. unfold Server.join_room at 1 2. cbn [fst snd].
      unfold Server.received. cbn [omap list_omap Server.receives].
      rewrite (decide_False (P := s = t)) by done.
      fold (Server.join_room s R id name uuid st).
      destruct (decide ((R, t) ∈ _)) as [Hin|Hout].
      * apply Hj, Honly in Hin as ->. rewrite decide_True by done.
        unfold onEvents. cbn [fold_left onEvent].
        rewrite ids_participantJoined, fmap_app, elem_of_app, Hshow. simpl.
        rewrite list_elem_of_singleton. specialize (Hid eq_refl).
        split; [intros [[? ?]| ->]; split; auto|intros [? [?|?]]; auto].
      * rewrite decide_False; [apply Hshow|].
        intros ->. apply Hout. by apply Hj.
    + destruct (decide (R = roomId)); [|done].
      rewrite fmap_app. apply elem_of_app. by left.
    + by apply Hj.
    + intros R0 HR0. by apply Honly, Hj.
  - (* leave-room *)
    destruct Hop as (Hst & _ & Hid).
    unfold in_sync, shows.
    rewrite (ServerFacts.roster_leave roomId s R userId st).
    unfold Server.leave_room.
    destruct (Server.rooms st !! R) as [room|] eqn:Hroom; cbn [fst snd].
    + assert (forall R0, (R0, t) ∈ Server.joined st ∖ {[(R, s)]}
                         <-> (R0, t) ∈ Server.joined st) as Hj.
      { intros R0. rewrite elem_of_difference, elem_of_singleton.
        split; [by intros [? _]|]. intros ?. split; [done|]. by intros [= _ ?]. }
      rewrite received_room. cbn [Server.joined].
      split; [|split; [|split]].
      * intros i. destruct (decide ((R, t) ∈ _)) as [Hin|Hout].
        -- apply Hj, Honly in Hin as ->. rewrite decide_True by done.
           unfold onEvents. cbn [fold_left onEvent].
           rewrite ids_participantLeft, roster_ids_without, Hshow. tauto.
        -- rewrite decide_False; [apply Hshow|].
           intros ->. apply Hout. by apply Hj.
      * destruct (decide (R = roomId)) as [HR|]; [|done].
        apply roster_ids_without. split; [|done]. intros ->. by apply Hid.
      * by apply Hj.
      * intros R0 HR0. by apply Honly, Hj.
    + assert (R <> roomId) as Hne.
      { intros ->. unfold Server.roster in Hself. rewrite Hroom in Hself.
        by apply elem_of_nil in Hself. }
      rewrite decide_False by done. split; [|done].
      intros i. apply Hshow.
  - (* signal *)
    unfold in_sync, shows. rewrite ServerFacts.signal_state.
    split; [|done]. intros i.
    unfold Server.signal.
    destruct (JsMap.get s (Server.users st)) as [fromUser|]; [|apply Hshow].
    destruct (list_find _ _) as [[k target]|]; [|apply Hshow].
    unfold Server.received. cbn [snd omap list_omap Server.receives].
    destruct (decide (Server.User.socketId target = t)); apply Hshow.
  - (* update-media *)
    destruct Hop as [_ Hop]. unfold in_sync, shows. rewrite roster_ids_update by done.
    assert (Server.joined (Server.update_media R userId updates st).1
            = Server.joined st) as Hj.
    { unfold Server.update_media.
      destruct (Server.rooms st !! R); [|done].
      by destruct (list_find _ _) as [[? ?]|]. }
    rewrite Hj. split; [|done]. intros i.
    unfold Server.update_media in *.
    destruct (Server.rooms st !! R) as [room|]; [|apply Hshow].
    destruct (list_find _ _) as [[k u]|]; [|apply Hshow].
    cbn [fst snd] in *. rewrite received_room. cbn [Server.joined].
    destruct (decide ((R, t) ∈ _)); [|apply Hshow].
    unfold onEvents. cbn [fold_left onEvent].
    rewrite ids_updateMedia by done. apply Hshow.
  - (* send-message *)
    unfold in_sync, shows, Server.send_message, Server.roster in *.
    destruct (Server.rooms st !! R) as [room|] eqn:Hroom; cbn [fst snd];
      [|done].
    destruct (Server.normalize message) as [stored|]; cbn [fst snd];
      [|done].
    rewrite received_room. cbn [Server.joined Server.rooms].
    assert (forall i,
              i ∈ Server.User.id <$>
                  match <[R:={| Server.Room.id := Server.Room.id room;
                                Server.Room.users := Server.Room.users room;
                                Server.Room.messages :=
                                  Server.Room.messages room
                                  ++ [stored] |}]>
                          (Server.rooms st) !! roomId with
                  | Some room0 => Server.Room.users room0
                  | None => []
                  end
              <-> i ∈ Server.User.id <$>
                      match Server.rooms st !! roomId with
                      | Some room0 => Server.Room.users room0
                      | None => []
                      end) as Hr.
    { intros i. destruct (decide (R = roomId)) as [<-|Hne].
      - by rewrite lookup_insert_eq, Hroom.
      - by rewrite lookup_insert_ne. }
    split; [|split; [by apply Hr|done]].
    intros i. rewrite Hr.
    destruct (decide ((R, t) ∈ _)); apply Hshow.
  - (* disconnect *)
    destruct Hop as [Hst Hid].
    assert (forall R0, (R0, t) ∈ filter (fun p => p.2 <> s) (Server.joined st)
                       <-> (R0, t) ∈ Server.joined st) as Hj.
    { intros R0. rewrite elem_of_filter. simpl.
      split; [by intros [_ ?]|]. intros ?. split; [by intros ->|done]. }
    unfold in_sync, shows.
    rewrite (ServerFacts.roster_disconnect roomId s st).
    unfold Server.resolveParticipantByTransport in *.
    unfold Server.disconnect.
    destruct (JsMap.get s (Server.users st)) as [user|] eqn:Huser;
      [|cbn [fst snd Server.joined]; split;
        [|split; [done|split; [by apply Hj|intros R0 HR0; by apply Honly, Hj]]];
        intros i; apply Hshow].
    destruct (decide (Server.User.roomId user = "")) as [Hempty|Hfull];
      [cbn [fst snd Server.joined]; split;
        [|split; [done|split; [by apply Hj|intros R0 HR0; by apply Honly, Hj]]];
        intros i; apply Hshow|].
    destruct (Hid user eq_refl) as [_ Hid'']. clear Hid. rename Hid'' into Hid.
    destruct (Server.rooms st !! Server.User.roomId user) as [room|] eqn:Hroom.
    + cbn zeta.
      destruct (decide (length (Server.Room.users
                  {| Server.Room.id := Server.Room.id room;
                     Server.Room.users :=
                       Server.without (Server.User.id user) (Server.Room.users room);
                     Server.Room.messages := Server.Room.messages room |}) = 0))
        as [Hlen|Hlen]; cbn [fst snd Server.joined Server.Room.users] in *.
      * (* the room is deleted: it is not the client's room *)
        assert (Server.User.roomId user <> roomId) as Hne.
        { intros HR. specialize (Hid HR).
          apply nil_length_inv in Hlen.
          assert (self ∈ Server.User.id <$>
                    Server.without (Server.User.id user) (Server.Room.users room))
            as Hin.
          { apply roster_ids_without. split; [done|].
            unfold Server.roster in Hself. by rewrite <- HR, Hroom in Hself. }
          rewrite Hlen in Hin. by apply elem_of_nil in Hin. }
        rewrite decide_False by done.
        split; [|split; [done|split; [by apply Hj|intros R0 HR0; by apply Honly, Hj]]].
        intros i. apply Hshow.
      * rewrite received_room. cbn [Server.joined].
        destruct (decide (Server.User.roomId user = roomId)) as [HR|Hne].
        -- specialize (Hid HR).
           split; [|split; [|split; [by apply Hj|intros R0 HR0; by apply Honly, Hj]]].
           ++ intros i. rewrite decide_True by (rewrite HR; by apply Hj).
              unfold onEvents. cbn [fold_left onEvent].
              rewrite ids_participantLeft, roster_ids_without, Hshow. tauto.
           ++ apply roster_ids_without. split; [|done]. by intros ->.
        -- split; [|split; [done|split; [by apply Hj|intros R0 HR0; by apply Honly, Hj]]].
           intros i. rewrite decide_False; [apply Hshow|].
           intros Hin. apply Hne. by apply Honly, Hj.
    + cbn [fst snd Server.joined].
      assert (Server.User.roomId user <> roomId) as Hne.
      { intros HR. unfold Server.roster in Hself. rewrite <- HR, Hroom in Hself.
        by apply elem_of_nil in Hself. }
      rewrite decide_False by done.
      split; [|split; [done|split; [by apply Hj|intros R0 HR0; by apply Honly, Hj]]].
      intros i. apply Hshow.
Qed.

(** Without events for a room named like the socket, what the socket
    hears is what its groups bring it. *)
Lemma hears_room st t r e :
  r <> t ->
  Server.hears st t (Server.ToRoom r e) = Server.receives st t (Server.ToRoom r e).
Proof.
  intros Hne. unfold Server.hears, Server.receives.
  destruct (decide ((r, t) ∈ Server.joined st)) as [Hin|Hout].
  - rewrite decide_True; [done|by left].
  - rewrite decide_False; [done|]. by intros [?|?].
Qed.

Lemma heard_room st t r e :
  r <> t ->
  Server.heard st t [Server.ToRoom r e]
  = Server.received st t [Server.ToRoom r e].
Proof.
  intros Hne. unfold Server.heard, Server.received.
  cbn [omap list_omap]. by rewrite hears_room.
Qed.

Lemma heard_join st t s R id name uuid :
  R <> t \/ s = t ->
  Server.heard (Server.join_room s R id name uuid st).1 t
    (Server.join_room s R id name uuid st).2
  = Server.received (Server.join_room s R id name uuid st).1 t
      (Server.join_room s R id name uuid st).2.
Proof.
  intros Hor. unfold Server.join_room, Server.heard, Server.received.
  cbn [fst snd omap list_omap Server.hears Server.receives Server.joined].
  destruct (decide ((R, t) ∈ {[(R, s)]} ∪ Server.joined st)) as [Hin|Hout].
  - rewrite decide_True; [done|by left].
  - rewrite decide_False; [done|]. intros [?|HR]; [done|].
    destruct Hor as [?|Hs]; [done|]. subst. apply Hout, elem_of_union.
    left. by apply elem_of_singleton.
Qed.

Lemma onEvents_heard self t roomId ps st op :
  foreign self t roomId st op ->
  onEvents self ps
    (Server.heard (Server.step op st).1 t (Server.step op st).2)
  = onEvents self ps
      (Server.received (Server.step op st).1 t (Server.step op st).2).
Proof.
  intros Hop.
  destruct op as [s R id name uuid|s R userId|s sig to
                 |s R userId updates|s R message|s];
    cbn [Server.step foreign] in *.
  - destruct Hop as (_ & HR & _). rewrite heard_join; [done|by left].
  - destruct Hop as (_ & HR & _). unfold Server.leave_room.
    destruct (Server.rooms st !! R); cbn [fst snd]; [|done].
    by rewrite heard_room.
  - unfold Server.signal.
    destruct (JsMap.get s (Server.users st)); [|done].
    destruct (list_find _ _) as [[k target]|]; [|done].
    unfold Server.heard, Server.received.
    cbn [fst snd omap list_omap Server.hears Server.receives].
    by repeat destruct (decide _).
  - destruct Hop as [HR _]. unfold Server.update_media.
    destruct (Server.rooms st !! R); [|done].
    destruct (list_find _ _) as [[k u]|]; [|done]. cbn [fst snd].
    by rewrite heard_room.
  - unfold Server.send_message.
    destruct (Server.rooms st !! R); [|done].
    destruct (Server.normalize message); [|done].
    unfold Server.heard, Server.received.
    cbn [fst snd omap list_omap Server.hears Server.receives].
    by repeat destruct (decide _).
  - destruct Hop as [_ Hbound].
    unfold Server.resolveParticipantByTransport in Hbound.
    unfold Server.disconnect.
    destruct (JsMap.get s (Server.users st)) as [user|]; [|done].
    destruct (Hbound user eq_refl) as [HR _].
    destruct (decide (Server.User.roomId user = "")); [done|].
    destruct (Server.rooms st !! Server.User.roomId user); [|done].
    cbn zeta. destruct (decide _); cbn [fst snd]; [done|].
    by rewrite heard_room.
Qed.

Lemma run_in_sync self t roomId ops : forall ps st,
  in_sync self t roomId ps st ->
  all_foreign self t roomId st ops ->
  in_sync self t roomId (follow self t ps st ops) (Server.run ops st).
Proof.
  induction ops as [|op ops IH]; intros ps st Hsync Hops; [done|].
  destruct Hops as [Hop Hops]. cbn [follow]. unfold Server.run. cbn [fold_left].
  apply IH; [|done].
  rewrite (onEvents_heard self t roomId ps st op Hop). by apply step_in_sync.
Qed.

Lemma join_in_sync (st : Server.State) (t roomId : string)
  (id : option string) (name uuid : string) (prev : list Participant.t) :
  (forall R, (R, t) ∉ Server.joined st) ->
  in_sync (Server.join_id id uuid) t roomId
    (onEvents (Server.join_id id uuid) prev
       (Server.heard (Server.join_room t roomId id name uuid st).1 t
          (Server.join_room t roomId id name uuid st).2))
    (Server.join_room t roomId id name uuid st).1.
Proof.
  intros Hfresh. rewrite heard_join by (by right). unfold in_sync, shows.
  rewrite (ServerFacts.roster_join roomId t roomId id name uuid st).
  rewrite decide_True by done.
  split; [|split; [|split]].
  - intros i. unfold Server.join_room, Server.received.
    cbn [fst snd omap list_omap Server.receives Server.joined].
    rewrite decide_True
      by (apply elem_of_union; left; by apply elem_of_singleton).
    rewrite decide_True by done.
    unfold onEvents. cbn [fold_left onEvent].
    rewrite ids_roomInfo. cbn [Server.Room.users].
    rewrite list_elem_of_filter.
    assert (match Server.rooms st !! roomId with
            | Some room => Server.Room.users room
            | None => []
            end = Server.roster roomId st) as Hr by done.
    destruct (Server.rooms st !! roomId) as [room|];
      cbn [Server.Room.users]; rewrite ?Hr; done.
  - rewrite fmap_app. apply elem_of_app. right. simpl.
    by apply list_elem_of_singleton.
  - simpl. apply elem_of_union. left. by apply elem_of_singleton.
  - intros R0. simpl. rewrite elem_of_union, elem_of_singleton.
    intros [[= ?]|Hin]; [done|]. by apply Hfresh in Hin.
Qed.

(** X13. A client joins a room on a socket that is in no room, and
    handles the two events the server sends it.  From then on, as long as
    no event at the server is a join, leave or disconnect on the client's
    socket, none joins or removes the client's own id in its room, no
    media update carries an [id] field, and no event is about a room
    named like the client's socket (Socket.IO would bring the client the
    events of that room), the list the client builds from the events it
    hears shows the server's roster of the room: its ids are the roster's
    ids other than the client's own, the client is still on the roster,
    and its socket is in the room's group and in no other. *)
Theorem X13_list_tracks_roster (st : Server.State) (t roomId : string)
  (id : option string) (name uuid : string) (prev : list Participant.t)
  (ops : list Server.Op) :
  let self := Server.join_id id uuid in
  let st1 := (Server.join_room t roomId id name uuid st).1 in
  let ps1 :=
    onEvents self prev
      (Server.heard st1 t (Server.join_room t roomId id name uuid st).2) in
  (forall R, (R, t) ∉ Server.joined st) ->
  all_foreign self t roomId st1 ops ->
  in_sync self t roomId (follow self t ps1 st1 ops) (Server.run ops st1).
Proof.
  intros self st1 ps1 Hfresh Hops.
  apply run_in_sync; [|done]. by apply join_in_sync.
Qed.

Lemma X13_witness :
  in_sync "bob" "s2" "abc-def-ghi"
    (follow "bob" "s2"
       (onEvents "bob" []
          (Server.heard
             (Server.join_room "s2" "abc-def-ghi" (Some "bob") "Bob" "u2"
                Server.alice_alone).1 "s2"
             (Server.join_room "s2" "abc-def-ghi" (Some "bob") "Bob" "u2"
                Server.alice_alone).2))
       (Server.join_room "s2" "abc-def-ghi" (Some "bob") "Bob" "u2"
          Server.alice_alone).1
       [Server.JoinRoom "s3" "abc-def-ghi" None "Carol" "carol";
        Server.LeaveRoom "s1" "abc-def-ghi" "alice";
        Server.Disconnect "s3"])
    (Server.run
       [Server.JoinRoom "s3" "abc-def-ghi" None "Carol" "carol";
        Server.LeaveRoom "s1" "abc-def-ghi" "alice";
        Server.Disconnect "s3"]
       (Server.join_room "s2" "abc-def-ghi" (Some "bob") "Bob" "u2"
          Server.alice_alone).1).
Proof.
  apply (X13_list_tracks_roster Server.alice_alone "s2" "abc-def-ghi"
           (Some "bob") "Bob" "u2" []).
  - intros R HR. unfold Server.alice_alone, Server.run in HR. simpl in HR.
    apply elem_of_union in HR as [HR|HR].
    + by apply elem_of_singleton in HR.
    + by apply elem_of_empty in HR.
  - cbn [all_foreign foreign]. split; [by repeat split|].
    split; [by repeat split|]. split; [|done]. split; [done|].
    intros u Hu. vm_compute in Hu. injection Hu as <-. by split.
Defined.

(** *** Chat *)

Lemma normalize_id message stored :
  Server.normalize message = Some stored ->
  Server.ChatMessage.id stored = Server.ChatMessage.id message.
Proof. intros Hstored. by apply ServerFacts.normalize_fields in Hstored as [? _]. Qed.

Lemma chatMessage_known prev message :
  Server.ChatMessage.id message ∈ messageIds prev ->
  chatMessage prev message = prev.
Proof.
  intros Hin. unfold chatMessage. rewrite bool_decide_eq_true_2; [done|].
  apply Exists_exists. apply list_elem_of_fmap in Hin as (m & Hm & Hin).
  by exists m.
Qed.

Lemma chatMessage_new prev message :
  Server.ChatMessage.id message ∉ messageIds prev ->
  chatMessage prev message = prev ++ [message].
Proof.
  intros Hout. unfold chatMessage. rewrite bool_decide_eq_false_2; [done|].
  intros (m & Hin & Hm)%Exists_exists. apply Hout.
  apply list_elem_of_fmap. by exists m.
Qed.

(** X14. A client shows its own message at once and sends it to the
    server, which sends it back to the whole room.  The sender's list is
    the same after the echo as before it, whatever the server did to the
    sender field: the message is shown once.  Another member of the room,
    whose list holds no message of that id, appends the message as the
    server stored it (and nothing when the server stored nothing, as for
    a null sender).  A client whose list holds a message of that id, be
    it another message, drops what it receives. *)
Theorem X14_chat_echo (st : Server.State) (s t roomId : string)
  (message : Server.ChatMessage.t) (prev other : list Server.ChatMessage.t) :
  let st' := (Server.send_message roomId message st).1 in
  let ems := (Server.send_message roomId message st).2 in
  onChatEvents (sendMessage prev message) (Server.received st' s ems)
  = sendMessage prev message
  /\ (is_Some (Server.rooms st !! roomId) ->
      (roomId, t) ∈ Server.joined st ->
      Server.ChatMessage.id message ∉ messageIds other ->
      onChatEvents other (Server.received st' t ems)
      = other ++ option_list (Server.normalize message))
  /\ (Server.ChatMessage.id message ∈ messageIds other ->
      onChatEvents other (Server.received st' t ems) = other).
Proof.
  intros st' ems. unfold st', ems, Server.send_message.
  destruct (Server.rooms st !! roomId) as [room|] eqn:Hroom;
    cbn [fst snd]; [|by split; [|split; [intros [? [=]]|]]].
  destruct (Server.normalize message) as [stored|] eqn:Hstored;
    cbn [fst snd option_list];
    [|split; [done|split; [intros; by rewrite app_nil_r|done]]].
  rewrite !received_room. cbn [Server.joined].
  pose proof (normalize_id message stored Hstored) as Hid.
  split; [|split].
  - destruct (decide ((roomId, s) ∈ _)); [|done].
    unfold onChatEvents. cbn [fold_left onChatEvent].
    apply chatMessage_known. rewrite Hid.
    unfold sendMessage, messageIds. rewrite fmap_app. apply elem_of_app.
    right. by apply list_elem_of_singleton.
  - intros _ Hin Hnew. rewrite decide_True by done.
    unfold onChatEvents. cbn [fold_left onChatEvent].
    apply chatMessage_new. by rewrite Hid.
  - intros Hold. destruct (decide ((roomId, t) ∈ _)); [|done].
    unfold onChatEvents. cbn [fold_left onChatEvent].
    apply chatMessage_known. by rewrite Hid.
Qed.

Lemma X14_witness :
  onChatEvents []
    (Server.received
       (Server.send_message "abc-def-ghi"
          {| Server.ChatMessage.id := "m1";
             Server.ChatMessage.sender :=
               Server.SenderObject Server.SenderMissing;
             Server.ChatMessage.text := "hello";
             Server.ChatMessage.timestamp := 1 |} Server.alice_and_bob).1
       "s2"
       (Server.send_message "abc-def-ghi"
          {| Server.ChatMessage.id := "m1";
             Server.ChatMessage.sender :=
               Server.SenderObject Server.SenderMissing;
             Server.ChatMessage.text := "hello";
             Server.ChatMessage.timestamp := 1 |} Server.alice_and_bob).2)
  = [{| Server.ChatMessage.id := "m1";
        Server.ChatMessage.sender := Server.SenderString "Unknown";
        Server.ChatMessage.text := "hello";
        Server.ChatMessage.timestamp := 1 |}].
Proof.
  destruct (X14_chat_echo Server.alice_and_bob "s1" "s2" "abc-def-ghi"
              {| Server.ChatMessage.id := "m1";
                 Server.ChatMessage.sender :=
               Server.SenderObject Server.SenderMissing;
                 Server.ChatMessage.text := "hello";
                 Server.ChatMessage.timestamp := 1 |} [] [])
    as (_ & Hother & _).
  apply Hother.
  - unfold Server.alice_and_bob, Server.run. simpl.
    rewrite lookup_insert_eq. by eexists.
  - unfold Server.alice_and_bob, Server.run. simpl.
    apply elem_of_union. left. by apply elem_of_singleton.
  - by intros ?%elem_of_nil.
Defined.

Lemma in_sync_room self t roomId ps st :
  in_sync self t roomId ps st ->
  exists room,
    Server.rooms st !! roomId = Some room
    /\ self ∈ Server.User.id <$> Server.Room.users room.
Proof.
  intros (_ & Hself & _). unfold Server.roster in Hself.
  destruct (Server.rooms st !! roomId) as [room|]; [by exists room|].
  by apply elem_of_nil in Hself.
Qed.

Lemma without_keeps self userId (us : list Server.User.t) :
  self ∈ Server.User.id <$> us -> userId <> self ->
  length (Server.without userId us) <> 0.
Proof.
  intros Hin Hne Hlen. apply nil_length_inv in Hlen.
  assert (self ∈ Server.User.id <$> Server.without userId us) as Hin'
    by (apply roster_ids_without; split; [congruence|done]).
  rewrite Hlen in Hin'. by apply elem_of_nil in Hin'.
Qed.

(** While the client is on the roster, the history of its room only gains
    the messages addressed to the room. *)
Lemma step_history self t roomId ps st op :
  in_sync self t roomId ps st ->
  foreign self t roomId st op ->
  Server.history roomId (Server.step op st).1
  = Server.history roomId st ++ sent roomId op.
Proof.
  intros Hsync Hop.
  destruct (in_sync_room _ _ _ _ _ Hsync) as (room & Hroom & Hself).
  unfold Server.history. rewrite Hroom.
  destruct op as [s R id name uuid|s R userId|s sig to
                 |s R userId updates|s R message|s];
    cbn [Server.step foreign sent] in *; rewrite ?app_nil_r.
  - unfold Server.join_room; cbn [fst Server.rooms].
    destruct (decide (R = roomId)) as [->|Hne].
    + by rewrite lookup_insert_eq, Hroom.
    + by rewrite lookup_insert_ne, Hroom.
  - destruct Hop as (_ & _ & Hid). unfold Server.leave_room.
    destruct (decide (R = roomId)) as [->|Hne].
    + rewrite Hroom. cbn [fst Server.rooms Server.Room.users].
      rewrite decide_False by (by apply (without_keeps self); [|apply Hid]).
      by rewrite lookup_insert_eq.
    + destruct (Server.rooms st !! R) as [room'|];
        cbn [fst Server.rooms]; [|by rewrite Hroom].
      destruct (decide _).
      * by rewrite lookup_delete_ne, Hroom.
      * by rewrite lookup_insert_ne, Hroom.
  - by rewrite ServerFacts.signal_state, Hroom.
  - unfold Server.update_media.
    destruct (Server.rooms st !! R) as [room'|] eqn:Hroom';
      [|by cbn [fst]; rewrite Hroom].
    destruct (list_find _ _) as [[k u]|]; [|by cbn [fst]; rewrite Hroom].
    cbn [fst Server.rooms].
    destruct (decide (R = roomId)) as [->|Hne].
    + rewrite lookup_insert_eq. simpl. congruence.
    + by rewrite lookup_insert_ne, Hroom.
  - unfold Server.send_message.
    destruct (decide (R = roomId)) as [->|Hne].
    + rewrite Hroom.
      destruct (Server.normalize message) as [stored|];
        cbn [fst Server.rooms option_list].
      * by rewrite lookup_insert_eq.
      * by rewrite Hroom, app_nil_r.
    + rewrite app_nil_r.
      destruct (Server.rooms st !! R) as [room'|];
        cbn [fst Server.rooms]; [|by rewrite Hroom].
      destruct (Server.normalize message) as [stored|];
        cbn [fst Server.rooms]; [|by rewrite Hroom].
      by rewrite lookup_insert_ne, Hroom.
  - destruct Hop as [_ Hid]. unfold Server.disconnect.
    unfold Server.resolveParticipantByTransport in Hid.
    destruct (JsMap.get s (Server.users st)) as [user|];
      [|by cbn [fst Server.rooms]; rewrite Hroom].
    destruct (decide (Server.User.roomId user = ""));
      [by cbn [fst Server.rooms]; rewrite Hroom|].
    destruct (Hid user eq_refl) as [_ Hid'']. clear Hid. rename Hid'' into Hid.
    destruct (decide (Server.User.roomId user = roomId)) as [HR|Hne].
    + rewrite HR, Hroom. cbn zeta. cbn [Server.Room.users].
      rewrite decide_False by (by apply (without_keeps self); [|apply Hid]).
      cbn [fst Server.rooms]. by rewrite lookup_insert_eq.
    + destruct (Server.rooms st !! Server.User.roomId user) as [room'|];
        [|by cbn [fst Server.rooms]; rewrite Hroom].
      cbn zeta. destruct (decide _); cbn [fst Server.rooms].
      * by rewrite lookup_delete_ne, Hroom.
      * by rewrite lookup_insert_ne, Hroom.
Qed.

(** What reaches the chat list of the client is what the history of its
    room gains. *)
Lemma step_chat self t roomId ps st op chat :
  in_sync self t roomId ps st ->
  others_chat t op ->
  onChatEvents chat
    (Server.heard (Server.step op st).1 t (Server.step op st).2)
  = fold_left chatMessage (sent roomId op) chat.
Proof.
  intros Hsync Hother.
  destruct (in_sync_room _ _ _ _ _ Hsync) as (room & Hroom & Hself).
  destruct Hsync as (_ & _ & Ht & Honly).
  destruct op as [s R id name uuid|s R userId|s sig to
                 |s R userId updates|s R message|s];
    cbn [Server.step others_chat sent fold_left] in *.
  - unfold Server.join_room, Server.heard.
    cbn [fst snd omap list_omap Server.hears].
    by repeat destruct (decide _).
  - unfold Server.leave_room, Server.heard.
    destruct (Server.rooms st !! R); cbn [fst snd omap list_omap Server.hears];
      [|done].
    by destruct (decide _).
  - unfold Server.signal, Server.heard.
    destruct (JsMap.get s (Server.users st)); [|done].
    destruct (list_find _ _) as [[k target]|]; [|done].
    cbn [snd omap list_omap Server.hears]. by destruct (decide _).
  - unfold Server.update_media, Server.heard.
    destruct (Server.rooms st !! R); [|done].
    destruct (list_find _ _) as [[k u]|]; [|done].
    cbn [fst snd omap list_omap Server.hears]. by destruct (decide _).
  - destruct Hother as [_ Hname]. unfold Server.send_message.
    destruct (decide (R = roomId)) as [->|Hne].
    + rewrite Hroom.
      destruct (Server.normalize message) as [stored|];
        cbn [fst snd option_list fold_left]; [|done].
      unfold Server.heard. cbn [omap list_omap Server.hears Server.joined].
      by rewrite decide_True by (by left).
    + destruct (Server.rooms st !! R); cbn [fst snd]; [|done].
      destruct (Server.normalize message) as [stored|]; cbn [fst snd];
        [|done].
      unfold Server.heard. cbn [omap list_omap Server.hears Server.joined].
      rewrite decide_False; [done|].
      intros [Hin|?]; [|done]. by apply Honly in Hin.
  - unfold Server.disconnect, Server.heard.
    destruct (JsMap.get s (Server.users st)) as [user|]; [|done].
    destruct (decide (Server.User.roomId user = "")); [done|].
    destruct (Server.rooms st !! Server.User.roomId user); [|done].
    cbn zeta. destruct (decide _); cbn [fst snd omap list_omap Server.hears];
      [done|].
    by destruct (decide _).
Qed.

Lemma fold_chatMessage_new msgs : forall chat,
  NoDup (messageIds (chat ++ msgs)) ->
  fold_left chatMessage msgs chat = chat ++ msgs.
Proof.
  induction msgs as [|m msgs IH]; intros chat Hnd; [by rewrite app_nil_r|].
  cbn [fold_left]. rewrite chatMessage_new.
  - rewrite IH; rewrite <- app_assoc; done.
  - unfold messageIds in *. rewrite fmap_app, fmap_cons in Hnd.
    apply NoDup_app in Hnd as (_ & Hdis & _).
    intros Hin. apply (Hdis _ Hin). by left.
Qed.

(** X15. A client is in a room, its list in step with the roster, and
    sends no message itself.  No event at the server is a join, leave or
    disconnect on its socket, or joins or removes its own id in its room,
    or is about a room named like its socket.  Then the room's history at
    the server only grows: it gains the messages addressed to the room
    that the server stores, with the sender as the server rewrites it, in
    the order of arrival.  When the client has heard what the server
    emitted, its chat list is what its listener makes of exactly these
    messages, one after the other; when their ids are distinct and not in
    the list already, the list has gained what the history has gained. *)
Theorem X15_chat_tracks_history (self t roomId : string)
  (ps : list Participant.t) (chat : list Server.ChatMessage.t)
  (ops : list Server.Op) : forall st : Server.State,
  in_sync self t roomId ps st ->
  all_foreign self t roomId st ops ->
  Forall (others_chat t) ops ->
  Server.history roomId (Server.run ops st)
  = Server.history roomId st ++ (ops ≫= sent roomId)
  /\ chatFollow t chat st ops = fold_left chatMessage (ops ≫= sent roomId) chat
  /\ (NoDup (messageIds (chat ++ (ops ≫= sent roomId))) ->
      chatFollow t chat st ops = chat ++ (ops ≫= sent roomId)).
Proof.
  assert (forall st ps chat,
            in_sync self t roomId ps st ->
            all_foreign self t roomId st ops ->
            Forall (others_chat t) ops ->
            Server.history roomId (Server.run ops st)
            = Server.history roomId st ++ (ops ≫= sent roomId)
            /\ chatFollow t chat st ops
               = fold_left chatMessage (ops ≫= sent roomId) chat) as Hrun.
  { clear ps chat.
    induction ops as [|op ops IH]; intros st ps chat Hsync Hops Hothers.
    - simpl. by rewrite app_nil_r.
    - destruct Hops as [Hop Hops].
      apply Forall_cons in Hothers as [Hother Hothers].
      pose proof (step_in_sync _ _ _ _ _ _ Hsync Hop) as Hsync'.
      destruct (IH _ _
                  (onChatEvents chat
                     (Server.heard (Server.step op st).1 t
                        (Server.step op st).2)) Hsync' Hops Hothers)
        as [Hh Hc].
      unfold Server.run in *. cbn [fold_left chatFollow].
      rewrite Hh, Hc, (step_history _ _ _ _ _ _ Hsync Hop),
        (step_chat _ _ _ _ _ _ chat Hsync Hother).
      rewrite bind_cons, fold_left_app, app_assoc. done. }
  intros st Hsync Hops Hothers.
  destruct (Hrun st ps chat Hsync Hops Hothers) as [Hh Hc].
  split; [done|]. split; [done|].
  intros Hnd. rewrite Hc. by apply fold_chatMessage_new.
Qed.

Lemma X15_witness :
  let st1 :=
    (Server.join_room "s2" "abc-def-ghi" (Some "bob") "Bob" "u2"
       Server.alice_alone).1 in
  let ops :=
    [Server.SendMessage "s1" "abc-def-ghi"
       {| Server.ChatMessage.id := "m1";
          Server.ChatMessage.sender :=
            Server.SenderObject (Server.SenderString "Alice");
          Server.ChatMessage.text := "hello";
          Server.ChatMessage.timestamp := 1 |};
     Server.JoinRoom "s3" "abc-def-ghi" None "Carol" "carol";
     Server.SendMessage "s3" "abc-def-ghi"
       {| Server.ChatMessage.id := "m2";
          Server.ChatMessage.sender := Server.SenderNull;
          Server.ChatMessage.text := "lost";
          Server.ChatMessage.timestamp := 2 |};
     Server.SendMessage "s3" "other-room"
       {| Server.ChatMessage.id := "m3";
          Server.ChatMessage.sender := Server.SenderString "Carol";
          Server.ChatMessage.text := "hi";
          Server.ChatMessage.timestamp := 3 |}] in
  chatFollow "s2" [] st1 ops
  = [{| Server.ChatMessage.id := "m1";
        Server.ChatMessage.sender := Server.SenderString "Alice";
        Server.ChatMessage.text := "hello";
        Server.ChatMessage.timestamp := 1 |}].
Proof.
  intros st1 ops.
  assert (forall R, (R, "s2") ∉ Server.joined Server.alice_alone) as Hfresh.
  { intros R HR. unfold Server.alice_alone, Server.run in HR. simpl in HR.
    apply elem_of_union in HR as [HR|HR].
    - by apply elem_of_singleton in HR.
    - by apply elem_of_empty in HR. }
  destruct (X15_chat_tracks_history "bob" "s2" "abc-def-ghi" _ [] ops st1
              (join_in_sync Server.alice_alone "s2" "abc-def-ghi"
                 (Some "bob") "Bob" "u2" [] Hfresh))
    as (_ & _ & Hchat).
  - unfold ops. cbn [all_foreign foreign]. by repeat split.
  - unfold ops. repeat (apply Forall_cons; split); by try apply Forall_nil.
  - apply Hchat. vm_compute. apply NoDup_singleton.
Defined.

(** *** Streams and new participants *)

(** X24. When a participant joins a room, a member of the room on
    another transport receives the joined-event and nothing else.  If the
    joiner's id is not the member's own and the member has no live
    connection to it, the member constructs one connection, as initiator
    and with its local stream, and replays to it the signals queued for
    that id; afterwards the connection is live.  The joiner receives its
    own joined-event too, and constructs nothing for it. *)
Theorem X24_member_calls_joiner (st : Server.State) (s t roomId : string)
  (id : option string) (name uuid self : string) (localStream : MediaStream)
  (c : WebRTCConnection) :
  let user :=
    {| Server.User.id := Server.join_id id uuid; Server.User.socketId := s;
       Server.User.name := name; Server.User.roomId := roomId;
       Server.User.audioEnabled := None; Server.User.videoEnabled := None;
       Server.User.isScreenSharing := None |} in
  let st' := (Server.join_room s roomId id name uuid st).1 in
  let ems := (Server.join_room s roomId id name uuid st).2 in
  handleNewParticipant (Server.join_id id uuid) user localStream true c = (c, [])
  /\ (exists users room,
        Server.received st' s ems
        = [Server.UserJoined user users; Server.RoomInfo room])
  /\ ((roomId, t) ∈ Server.joined st -> s <> t ->
      Server.join_id id uuid <> self ->
      hasPeer (Server.join_id id uuid) c = false ->
      (exists users, Server.received st' t ems = [Server.UserJoined user users])
      /\ (handleNewParticipant self user localStream true c).2
         = NewPeer (allocated c) true localStream
             :: (PeerSignal (allocated c) <$> queue (Server.join_id id uuid) c)
      /\ hasPeer (Server.join_id id uuid)
           (handleNewParticipant self user localStream true c).1 = true).
Proof.
  intros user st' ems. split; [|split].
  - unfold handleNewParticipant. by rewrite decide_True.
  - unfold st', ems, Server.join_room, Server.received.
    cbn [fst snd omap list_omap Server.receives Server.joined].
    rewrite decide_True
      by (apply elem_of_union; left; by apply elem_of_singleton).
    rewrite decide_True by done. by eexists _, _.
  - intros Hin Hst Hself Hno. split; [|split].
    + unfold st', ems, Server.join_room, Server.received.
      cbn [fst snd omap list_omap Server.receives Server.joined].
      rewrite decide_True by (apply elem_of_union; by right).
      rewrite decide_False by done. by eexists.
    + unfold handleNewParticipant. cbn [Server.User.id user].
      rewrite decide_False by done. by rewrite createPeer_not_live.
    + unfold handleNewParticipant. cbn [Server.User.id user].
      rewrite decide_False by done. apply createPeer_live.
Qed.

Lemma X24_witness :
  (handleNewParticipant "alice"
     {| Server.User.id := "bob"; Server.User.socketId := "s2";
        Server.User.name := "Bob"; Server.User.roomId := "abc-def-ghi";
        Server.User.audioEnabled := None; Server.User.videoEnabled := None;
        Server.User.isScreenSharing := None |} 7 true init).2
  = [NewPeer 0 true 7].
Proof.
  destruct (X24_member_calls_joiner Server.alice_alone "s2" "s1" "abc-def-ghi"
              (Some "bob") "Bob" "u2" "alice" 7 init)
    as (_ & _ & Hmember).
  destruct Hmember as (_ & Hcalls & _).
  - unfold Server.alice_alone, Server.run. simpl.
    apply elem_of_union. left. by apply elem_of_singleton.
  - done.
  - done.
  - reflexivity.
  - apply Hcalls.
Defined.

(** X25. A remote stream is attached to the listed participants with
    the peer's id and changes nothing else: the ids, the names and the
    media flags of the list are as before, and the other participants
    keep their streams.  A stream for an id that is not listed changes
    nothing: when the joined-event for that id comes afterwards, the
    participant is listed without a stream. *)
Theorem X25_handleRemoteStream (prev : list Participant.t) (peerId : string)
  (stream : MediaStream) :
  let next := handleRemoteStream prev peerId stream in
  ids next = ids prev
  /\ Participant.name <$> next = Participant.name <$> prev
  /\ Participant.audioEnabled <$> next = Participant.audioEnabled <$> prev
  /\ Participant.videoEnabled <$> next = Participant.videoEnabled <$> prev
  /\ Participant.isScreenSharing <$> next = Participant.isScreenSharing <$> prev
  /\ (forall k p p',
        prev !! k = Some p -> next !! k = Some p' ->
        Participant.stream p'
        = if decide (Participant.id p = peerId) then Some stream
          else Participant.stream p)
  /\ (peerId ∉ ids prev ->
      next = prev
      /\ forall user, Server.User.id user = peerId ->
           exists p,
             participantJoined next user = prev ++ [p]
             /\ Participant.id p = peerId /\ Participant.stream p = None).
Proof.
  intros next. unfold next, handleRemoteStream, ids.
  repeat (split;
          [rewrite <- list_fmap_compose; apply list_fmap_ext;
           intros k p _; simpl; by destruct (decide _)|]).
  split.
  - intros k p p' Hp. rewrite list_lookup_fmap, Hp. simpl.
    intros [= <-]. by destruct (decide _).
  - intros Hout.
    assert ((fun p =>
               if decide (Participant.id p = peerId)
               then {| Participant.id := Participant.id p;
                       Participant.name := Participant.name p;
                       Participant.audioEnabled := Participant.audioEnabled p;
                       Participant.videoEnabled := Participant.videoEnabled p;
                       Participant.isScreenSharing :=
                         Participant.isScreenSharing p;
                       Participant.stream := Some stream |}
               else p) <$> prev = prev) as ->.
    { rewrite <- (list_fmap_id prev) at 2. apply list_fmap_ext.
      intros k p Hp. simpl. rewrite decide_False; [done|].
      intros Hid. apply Hout. apply list_elem_of_fmap. exists p.
      split; [done|]. by eapply list_elem_of_lookup_2. }
    split; [done|]. intros user Huser. exists (fromUser user).
    unfold participantJoined. rewrite Huser.
    rewrite (proj2 (known_false peerId prev)) by done.
    by rewrite <- Huser.
Qed.

Lemma X25_witness :
  handleRemoteStream [sample "alice"] "bob" 3 = [sample "alice"].
Proof.
  destruct (X25_handleRemoteStream [sample "alice"] "bob" 3)
    as (_ & _ & _ & _ & _ & _ & Hdrop).
  apply Hdrop. unfold ids. simpl. by intros [=]%list_elem_of_singleton.
Defined.

End ClientFacts.

(** ** The local stream *)

Module LocalMediaFacts.
Import LocalMedia.

Lemma setEnabled_kind k value track :
  kind (setEnabled k value track) = kind track.
Proof. unfold setEnabled. by destruct (decide _). Qed.

Lemma getTracks_setEnabled_other k k' value tracks :
  k <> k' ->
  getTracks k' (Some (setEnabled k value <$> tracks)) = getTracks k' (Some tracks).
Proof.
  intros Hne. unfold getTracks; simpl.
  induction tracks as [|track tracks IH]; [done|].
  rewrite fmap_cons, !filter_cons, setEnabled_kind, IH.
  destruct (decide (kind track = k')) as [Hk|Hk]; [|done].
  unfold setEnabled. rewrite decide_False; [done|congruence].
Qed.

Lemma getTracks_setEnabled_same k value tracks :
  Forall (fun t => enabled t = value)
    (getTracks k (Some (setEnabled k value <$> tracks))).
Proof.
  unfold getTracks; simpl. apply Forall_forall. intros t Ht.
  apply list_elem_of_filter in Ht as [Hk Ht].
  apply list_elem_of_fmap in Ht as (t0 & -> & _).
  unfold setEnabled in *. by destruct (decide (kind t0 = k)).
Qed.

Lemma kinds_setEnabled k value (tracks : list Track) :
  kind <$> (setEnabled k value <$> tracks) = kind <$> tracks.
Proof.
  rewrite <- list_fmap_compose. apply list_fmap_ext.
  intros i t _. apply setEnabled_kind.
Qed.

Lemma setEnabled_commute k k' a v track :
  k <> k' ->
  setEnabled k a (setEnabled k' v track) = setEnabled k' v (setEnabled k a track).
Proof.
  intros Hne. unfold setEnabled.
  destruct (decide (kind track = k')) as [Hk'|Hk'];
    destruct (decide (kind track = k)) as [Hk|Hk]; simpl;
    repeat destruct (decide _); congruence.
Qed.

(** X16. Switching the microphone on or off through the connection
    writes the flag of every audio track of the local stream and of no
    other track: the video tracks are as they were, and no track is
    added, dropped or moved.  The same holds for the camera with the two
    kinds exchanged, the two switches can be taken in either order, and
    without a local stream both do nothing. *)
Theorem X16_toggles_by_kind (a v : bool) (stream : option (list Track)) :
  Forall (fun t => enabled t = a) (getTracks Audio (toggleAudio a stream))
  /\ getTracks Video (toggleAudio a stream) = getTracks Video stream
  /\ kind <$> default [] (toggleAudio a stream) = kind <$> default [] stream
  /\ Forall (fun t => enabled t = v) (getTracks Video (toggleVideo v stream))
  /\ getTracks Audio (toggleVideo v stream) = getTracks Audio stream
  /\ kind <$> default [] (toggleVideo v stream) = kind <$> default [] stream
  /\ toggleAudio a (toggleVideo v stream) = toggleVideo v (toggleAudio a stream)
  /\ (is_Some (toggleAudio a stream) <-> is_Some stream)
  /\ (is_Some (toggleVideo v stream) <-> is_Some stream).
Proof.
  destruct stream as [tracks|]; cbn [toggleAudio toggleVideo].
  - split; [apply getTracks_setEnabled_same|].
    split; [by apply getTracks_setEnabled_other|].
    split; [apply kinds_setEnabled|].
    split; [apply getTracks_setEnabled_same|].
    split; [by apply getTracks_setEnabled_other|].
    split; [apply kinds_setEnabled|].
    split; [|split; split; by eexists].
    f_equal. rewrite <- !list_fmap_compose. apply list_fmap_ext.
    intros i t _. by apply setEnabled_commute.
  - repeat split; try done; by intros [? [=]].
Qed.

(** X17. The mute button of the meeting room.  Without a local stream
    it changes nothing and emits nothing.  With one, it flips [isMuted],
    leaves [isVideoOff] and the video tracks alone, and every audio track
    ends up enabled exactly when the client is not muted.  The update it
    emits carries that same flag: the server stores it in the roster
    entry of the user and keeps the entry's id and video flag, and every
    other client that lists the user shows it, with the video flags of its
    list unchanged. *)
Theorem X17_mute_reaches_the_room (m : RoomMedia) (self userId roomId : string)
  (ps : list Client.Participant.t) (st : Server.State) :
  (localStream m = None -> roomToggleAudio m = (m, None))
  /\ forall tracks, localStream m = Some tracks ->
     exists up,
       (roomToggleAudio m).2 = Some up
       /\ isMuted (roomToggleAudio m).1 = negb (isMuted m)
       /\ isVideoOff (roomToggleAudio m).1 = isVideoOff m
       /\ Forall (fun t => enabled t = negb (isMuted (roomToggleAudio m).1))
            (getTracks Audio (localStream (roomToggleAudio m).1))
       /\ getTracks Video (localStream (roomToggleAudio m).1)
          = getTracks Video (localStream m)
       /\ (forall i u,
             list_find (fun u => Server.User.id u = userId)
               (Server.roster roomId st) = Some (i, u) ->
             exists u',
               Server.roster roomId
                 (Server.update_media roomId userId up st).1 !! i = Some u'
               /\ Server.User.id u' = userId
               /\ Server.User.audioEnabled u'
                  = Some (negb (isMuted (roomToggleAudio m).1))
               /\ Server.User.videoEnabled u' = Server.User.videoEnabled u)
       /\ (self <> userId ->
           forall p, p ∈ Client.updateMedia self ps userId up ->
             Client.Participant.id p = userId ->
             Client.Participant.audioEnabled p
             = negb (isMuted (roomToggleAudio m).1))
       /\ Client.Participant.videoEnabled <$> Client.updateMedia self ps userId up
          = Client.Participant.videoEnabled <$> ps.
Proof.
  unfold roomToggleAudio. split; [by intros ->|].
  intros tracks ->. eexists. cbn [fst snd isMuted isVideoOff localStream].
  split; [reflexivity|]. split; [done|]. split; [done|].
  cbn [toggleAudio]. rewrite negb_involutive.
  split; [apply getTracks_setEnabled_same|].
  split; [by rewrite !getTracks_setEnabled_other|].
  split; [|split].
  - intros i u Hfind. unfold Server.roster in *.
    destruct (Server.rooms st !! roomId) as [room|] eqn:Hroom; [|done].
    rewrite (ServerFacts.update_media_known _ _ _ _ _ _ _ Hroom Hfind).
    cbn [fst Server.rooms]. rewrite lookup_insert_eq. cbn [Server.Room.users].
    apply list_find_Some in Hfind as (Hi & Hid & _).
    eexists. split; [apply list_lookup_insert_eq; by eapply lookup_lt_Some|].
    done.
  - intros Hne p Hp Hid. unfold Client.updateMedia in Hp.
    rewrite decide_False in Hp by done.
    unfold Client.updateMediaList in Hp.
    apply list_elem_of_fmap in Hp as (p0 & -> & _).
    destruct (decide (Client.Participant.id p0 = userId)); done.
  - unfold Client.updateMedia, Client.updateMediaList.
    destruct (decide (userId = self)); [done|].
    rewrite <- list_fmap_compose. apply list_fmap_ext. intros i p _. simpl.
    by destruct (decide _).
Qed.

Lemma X17_witness :
  exists u',
    Server.roster "abc-def-ghi"
      (Server.update_media "abc-def-ghi" "alice"
         {| Server.Updates.id := None; Server.Updates.name := None;
            Server.Updates.audioEnabled := Some false;
            Server.Updates.videoEnabled := None;
            Server.Updates.isScreenSharing := None |}
         Server.alice_and_bob).1 !! 0 = Some u'
    /\ Server.User.audioEnabled u' = Some false.
Proof.
  destruct (X17_mute_reaches_the_room
              {| localStream := Some [{| kind := Audio; enabled := true |};
                                      {| kind := Video; enabled := true |}];
                 isMuted := false; isVideoOff := false |}
              "bob" "alice" "abc-def-ghi" [] Server.alice_and_bob)
    as [_ Hon].
  destruct (Hon _ eq_refl) as (up & Hup & _ & _ & _ & _ & Hserver & _).
  injection Hup as <-.
  destruct (Hserver 0 _ eq_refl) as (u' & Hu' & _ & Ha & _).
  by exists u'.
Defined.

(** X26. The camera button of the meeting room, likewise: without a
    local stream it changes nothing and emits nothing; with one it flips
    [isVideoOff], leaves [isMuted] and the audio tracks alone, enables
    every video track exactly when the video is not off, and emits that
    flag, which every other client that lists the user then shows, with
    the audio flags of its list unchanged. *)
Theorem X26_camera_reaches_the_room (m : RoomMedia) (self userId : string)
  (ps : list Client.Participant.t) :
  (localStream m = None -> roomToggleVideo m = (m, None))
  /\ forall tracks, localStream m = Some tracks ->
     exists up,
       (roomToggleVideo m).2 = Some up
       /\ isVideoOff (roomToggleVideo m).1 = negb (isVideoOff m)
       /\ isMuted (roomToggleVideo m).1 = isMuted m
       /\ Forall (fun t => enabled t = negb (isVideoOff (roomToggleVideo m).1))
            (getTracks Video (localStream (roomToggleVideo m).1))
       /\ getTracks Audio (localStream (roomToggleVideo m).1)
          = getTracks Audio (localStream m)
       /\ (self <> userId ->
           forall p, p ∈ Client.updateMedia self ps userId up ->
             Client.Participant.id p = userId ->
             Client.Participant.videoEnabled p
             = negb (isVideoOff (roomToggleVideo m).1))
       /\ Client.Participant.audioEnabled <$> Client.updateMedia self ps userId up
          = Client.Participant.audioEnabled <$> ps.
Proof.
  unfold roomToggleVideo. split; [by intros ->|].
  intros tracks ->. eexists. cbn [fst snd isMuted isVideoOff localStream].
  split; [reflexivity|]. split; [done|]. split; [done|].
  cbn [toggleVideo]. rewrite negb_involutive.
  split; [apply getTracks_setEnabled_same|].
  split; [by rewrite !getTracks_setEnabled_other|].
  split.
  - intros Hne p Hp Hid. unfold Client.updateMedia in Hp.
    rewrite decide_False in Hp by done.
    unfold Client.updateMediaList in Hp.
    apply list_elem_of_fmap in Hp as (p0 & -> & _).
    destruct (decide (Client.Participant.id p0 = userId)); done.
  - unfold Client.updateMedia, Client.updateMediaList.
    destruct (decide (userId = self)); [done|].
    rewrite <- list_fmap_compose. apply list_fmap_ext. intros i p _. simpl.
    by destruct (decide _).
Qed.

Lemma X26_witness :
  isVideoOff
    (roomToggleVideo
       {| localStream := Some [{| kind := Video; enabled := true |}];
          isMuted := false; isVideoOff := false |}).1 = true.
Proof.
  destruct (X26_camera_reaches_the_room
              {| localStream := Some [{| kind := Video; enabled := true |}];
                 isMuted := false; isVideoOff := false |} "bob" "alice" [])
    as [_ Hon].
  destruct (Hon _ eq_refl) as (up & _ & Hoff & _).
  apply Hoff.
Defined.

(** The connection holds a stream exactly when the call resolved. *)
Lemma initLocalStream_shape (video audio : bool) (first fallback : Attempt)
  (old : option (list Track)) :
  (forall stream,
     (initLocalStream video audio first fallback old).1.2 = Resolved stream
     <-> (initLocalStream video audio first fallback old).1.1 = Some stream)
  /\ (forall e,
        (initLocalStream video audio first fallback old).1.2 = Rejected e ->
        (initLocalStream video audio first fallback old).1.1 = None).
Proof.
  unfold initLocalStream.
  destruct first as [stream0|e];
    [cbn [fst snd]; split; [by split; intros [= ->]|done]|].
  repeat (destruct (decide _); [cbn [fst snd]; by split|]).
  destruct (video && audio); [|cbn [fst snd]; by split].
  destruct fallback as [stream1|e1]; cbn [fst snd];
    [split; [by split; intros [= ->]|done]|by split].
Qed.

(** X18. [initLocalStream] always stops the tracks of the stream it
    held.  Afterwards the connection holds a stream exactly when the call
    resolved, and it is the stream the call resolved with: after a
    rejection there is no local stream, whatever there was before.  A
    stream it resolves with is the one the first request granted, or,
    when both camera and microphone were asked for and the first request
    failed with an error whose name is none of the four it replaces, the
    one the audio-only request granted.  An error with one of these four
    names is replaced by an [Error] whose message depends on the name
    only, and no second request decides the outcome. *)
Theorem X18_initLocalStream (video audio : bool) (first fallback : Attempt)
  (old : option (list Track)) :
  let new := (initLocalStream video audio first fallback old).1.1 in
  let outcome := (initLocalStream video audio first fallback old).1.2 in
  (initLocalStream video audio first fallback old).2 = default [] old
  /\ (forall stream, outcome = Resolved stream <-> new = Some stream)
  /\ (forall stream, outcome = Resolved stream ->
        first = Granted stream
        \/ (video = true /\ audio = true /\ fallback = Granted stream
            /\ exists e, first = Refused e /\ ~ mapped (name e)))
  /\ (forall e, first = Refused e -> mapped (name e) ->
        forall e' fallback',
          name e' = name e ->
          initLocalStream video audio (Refused e') fallback' old
          = initLocalStream video audio first fallback old)
  /\ (forall e, first = Refused e -> mapped (name e) ->
        exists text, outcome = Rejected (error text)).
Proof.
  intros new outcome. unfold new, outcome, initLocalStream, mapped.
  destruct first as [stream0|e].
  { cbn [fst snd]. split; [done|]. split; [by split; intros [= ->]|].
    split; [intros ? [= ->]; by left|]. by split. }
  destruct (decide (name e = "NotAllowedError")) as [H1|H1].
  { cbn [fst snd]. split; [done|]. split; [by split|]. split; [done|].
    split; [|by eexists]. intros ? [= <-] _ e' fallback' ->.
    by rewrite decide_True. }
  destruct (decide (name e = "NotFoundError")) as [H2|H2].
  { cbn [fst snd]. split; [done|]. split; [by split|]. split; [done|].
    split; [|by eexists]. intros ? [= <-] _ e' fallback' ->.
    by rewrite decide_False, decide_True. }
  destruct (decide (name e = "NotReadableError" \/ name e = "AbortError"))
    as [H3|H3].
  { cbn [fst snd]. split; [done|]. split; [by split|]. split; [done|].
    split; [|by eexists]. intros ? [= <-] _ e' fallback' ->.
    do 2 rewrite decide_False by done. by rewrite decide_True. }
  assert (~ (name e = "NotAllowedError" \/ name e = "NotFoundError"
             \/ name e = "NotReadableError" \/ name e = "AbortError")) as Hnot
    by tauto.
  destruct video, audio; cbn [andb];
    try (cbn [fst snd]; split; [done|]; split; [by split|]; split; [done|];
         split; by intros ? [= <-] ?).
  destruct fallback as [stream1|e1]; cbn [fst snd].
  - split; [done|]. split; [by split; intros [= ->]|].
    split; [|split; by intros ? [= <-] ?].
    intros ? [= ->]. right. repeat split; try done. by exists e.
  - split; [done|]. split; [by split|]. split; [done|].
    split; by intros ? [= <-] ?.
Qed.

Lemma X18_witness :
  (initLocalStream true true
     (Refused {| name := "NotFoundError"; message := "Requested device not found" |})
     (Granted [{| kind := Audio; enabled := true |}])
     (Some [{| kind := Video; enabled := true |}])).1.2
  = Rejected
      (error "No camera or microphone found. Please connect a device and try again.").
Proof.
  destruct (X18_initLocalStream true true
              (Refused {| name := "NotFoundError";
                          message := "Requested device not found" |})
              (Granted [{| kind := Audio; enabled := true |}])
              (Some [{| kind := Video; enabled := true |}]))
    as (_ & _ & _ & _ & Hmapped).
  destruct (Hmapped _ eq_refl) as [text Htext].
  - unfold mapped. simpl. tauto.
  - rewrite Htext. by injection Htext as <-.
Defined.

(** X19. What the meeting room does with the outcome.  It emits
    join-room exactly when it ends up with a local stream, and announces
    video only when that stream has a video track.  The audio-only retry
    is decided by the lower-case word camera in the error message: of the
    four replaced errors, a missing device is retried, and the refusal of
    permission and the device in use are not, as their messages start
    with a capital letter; then no join-room is emitted at all.  After a
    retry the client joins with its video announced as off. *)
Theorem X19_setupLocalStream (first fallback retry : Attempt) :
  let localStream := (setupLocalStream first fallback retry).1 in
  let join := (setupLocalStream first fallback retry).2 in
  (is_Some join <-> is_Some localStream)
  /\ (join = Some true ->
      exists stream,
        localStream = Some stream /\ Exists (fun t => kind t = Video) stream)
  /\ (forall e, first = Refused e ->
        name e = "NotAllowedError" \/ name e = "NotReadableError"
        \/ name e = "AbortError" ->
        localStream = None /\ join = None)
  /\ (forall e, first = Refused e -> name e = "NotFoundError" ->
        match retry with
        | Granted stream =>
            localStream = Some stream /\ join = Some false
        | Refused _ => localStream = None /\ join = None
        end).
Proof.
  intros localStream join. unfold localStream, join, setupLocalStream.
  destruct (initLocalStream_shape true true first fallback None)
    as [Hres Hrej].
  split; [|split; [|split]].
  - destruct (initLocalStream true true first fallback None)
      as [[ls [stream|e]] stopped]; cbn [fst snd] in *.
    + rewrite (proj1 (Hres stream) eq_refl). split; by eexists.
    + assert (ls = None) as -> by (by eapply Hrej).
      destruct (includes "camera" (message e));
        [|by split; intros [? [=]]].
      destruct (initLocalStream_shape false true retry retry None)
        as [Hres' Hrej'].
      destruct (initLocalStream false true retry retry None)
        as [[ls' [stream'|e']] stopped']; cbn [fst snd] in *.
      * rewrite (proj1 (Hres' stream') eq_refl). split; by eexists.
      * assert (ls' = None) as -> by (by eapply Hrej').
        by split; intros [? [=]].
  - destruct (initLocalStream true true first fallback None)
      as [[ls [stream|e]] stopped]; cbn [fst snd] in *.
    + intros [= Hvideo]. exists stream.
      split; [by apply Hres|]. by apply bool_decide_eq_true in Hvideo.
    + destruct (includes "camera" (message e)); [|done].
      by destruct (initLocalStream false true retry retry ls)
        as [[ls' [stream'|e']] stopped'].
  - intros e -> Hname. unfold initLocalStream.
    destruct Hname as [Hn|[Hn|Hn]]; rewrite Hn; by vm_compute.
  - intros e -> Hname.
    assert (initLocalStream true true (Refused e) fallback None
            = (None,
               Rejected (error "No camera or microphone found. Please connect a device and try again."),
               [])) as ->
      by (unfold initLocalStream; by rewrite Hname).
    cbn [message error].
    assert (includes "camera"
              "No camera or microphone found. Please connect a device and try again."
            = true) as -> by (by vm_compute).
    destruct retry as [stream|e']; [done|].
    unfold initLocalStream. cbn [andb fst snd].
    by repeat destruct (decide _).
Qed.

Lemma X19_witness :
  (setupLocalStream
     (Refused {| name := "NotAllowedError"; message := "Permission denied" |})
     (Granted [{| kind := Audio; enabled := true |}])
     (Granted [{| kind := Audio; enabled := true |}])).2 = None.
Proof.
  destruct (X19_setupLocalStream
              (Refused {| name := "NotAllowedError";
                          message := "Permission denied" |})
              (Granted [{| kind := Audio; enabled := true |}])
              (Granted [{| kind := Audio; enabled := true |}]))
    as (_ & _ & Hdenied & _).
  destruct (Hdenied _ eq_refl) as [_ Hjoin]; [by left|apply Hjoin].
Defined.

End LocalMediaFacts.

(** ** More on the registry *)

Module ServerMore.
Import Server ServerFacts.

(** X20. Whatever events the server has handled since it started: no
    room is stored without a participant, every room is stored under its
    own id, and the binding table has one entry per socket, stored under
    the socket id that the entry itself records. *)
Theorem X20_registry_shape (ops : list Op) :
  rooms_wf (run ops init) /\ users_wf (run ops init).
Proof.
  split.
  - apply run_rooms_wf, init_rooms_wf.
  - apply reachable_users_wf, run_reachable_registry, reachable_init.
Qed.

Lemma without_joiner userId (us : list User.t) (new : User.t) :
  userId ∉ User.id <$> us -> User.id new = userId ->
  without userId (us ++ [new]) = us.
Proof.
  intros Hout Hnew. unfold without.
  rewrite filter_app, filter_cons, filter_nil, decide_False, app_nil_r
    by (by intros ?).
  induction us as [|u us IH]; [done|].
  rewrite fmap_cons in Hout. apply not_elem_of_cons in Hout as [Hne Hout].
  rewrite filter_cons, decide_True by done. by rewrite IH.
Qed.

Lemma rooms_after_round_trip (m : gmap string Room.t) R (new : User.t) :
  (forall room, m !! R = Some room -> Room.users room <> []) ->
  User.id new ∉ User.id <$>
    match m !! R with Some room => Room.users room | None => [] end ->
  let room0 :=
    match m !! R with
    | Some room => room
    | None => {| Room.id := R; Room.users := []; Room.messages := [] |}
    end in
  let remaining := without (User.id new) (Room.users room0 ++ [new]) in
  (if decide (length remaining = 0)
   then delete R
          (<[R := {| Room.id := Room.id room0;
                     Room.users := Room.users room0 ++ [new];
                     Room.messages := Room.messages room0 |}]> m)
   else <[R := {| Room.id := Room.id room0; Room.users := remaining;
                  Room.messages := Room.messages room0 |}]>
          (<[R := {| Room.id := Room.id room0;
                     Room.users := Room.users room0 ++ [new];
                     Room.messages := Room.messages room0 |}]> m))
  = m.
Proof.
  intros Hfull Hnew room0 remaining. unfold remaining, room0.
  destruct (m !! R) as [room|] eqn:Hroom.
  - rewrite without_joiner by done.
    rewrite decide_False
      by (intros Hlen%nil_length_inv; by apply (Hfull room)).
    rewrite insert_insert_eq. apply insert_id. rewrite Hroom.
    by destruct room.
  - rewrite without_joiner by done. cbn [Room.users length].
    rewrite decide_True by done. by apply delete_insert_id.
Qed.

(** X21. A participant joins a room on a transport that is not bound
    and is in no group, under an id that is not empty and not on the
    room's roster, and then leaves it, or the transport disconnects.
    Either way the server is back in the state it was in before the join:
    rooms, rosters, histories, bindings and groups.  For the disconnect
    the room id must not be the empty string. *)
Theorem X21_join_undone (st : State) (s roomId userId name uuid : string) :
  rooms_wf st ->
  JsMap.get s (users st) = None ->
  (forall R, (R, s) ∉ joined st) ->
  userId <> "" ->
  userId ∉ User.id <$> roster roomId st ->
  let st1 := (join_room s roomId (Some userId) name uuid st).1 in
  (leave_room s roomId userId st1).1 = st
  /\ (roomId <> "" -> (disconnect s st1).1 = st).
Proof.
  intros Hwf Hfree Hout Hid Hnew st1.
  assert (join_id (Some userId) uuid = userId) as Hjoin
    by (unfold join_id; by rewrite decide_False).
  assert (forall room, rooms st !! roomId = Some room -> Room.users room <> [])
    as Hfull by (intros room Hroom; by apply (Hwf _ _ Hroom)).
  assert (({[(roomId, s)]} ∪ joined st) ∖ {[(roomId, s)]} = joined st) as Hj1.
  { apply set_eq. intros x.
    rewrite elem_of_difference, elem_of_union, elem_of_singleton.
    split; [tauto|]. intros Hx. split; [by right|].
    intros ->. by apply (Hout roomId). }
  assert (filter (fun p : string * string => p.2 <> s)
            ({[(roomId, s)]} ∪ joined st) = joined st) as Hj2.
  { apply set_eq. intros [R t].
    rewrite elem_of_filter, elem_of_union, elem_of_singleton. simpl.
    split; [intros [Hne [[= _ ?]|?]]; done|].
    intros Hx. split; [|by right]. intros ->. by apply (Hout R). }
  unfold roster in Hnew. unfold st1, join_room. rewrite Hjoin.
  split; [|intros HR].
  - unfold leave_room. cbn [fst rooms users joined].
    rewrite lookup_insert_eq. cbn [fst rooms users joined Room.users Room.id
                                   Room.messages].
    pose proof (rooms_after_round_trip (rooms st) roomId
               {| User.id := userId; User.socketId := s; User.name := name;
                  User.roomId := roomId; User.audioEnabled := None;
                  User.videoEnabled := None; User.isScreenSharing := None |}
               Hfull Hnew) as Hrooms.
    cbn zeta in Hrooms. cbn [User.id] in Hrooms.
    rewrite Hj1, WebRTCMore.delete_set_absent, Hrooms by done.
    by destruct st.
  - unfold disconnect. cbn [fst rooms users joined].
    rewrite JsMapFacts.get_set_eq. cbn [User.roomId User.id].
    rewrite decide_False by done.
    rewrite lookup_insert_eq. cbn zeta.
    cbn [Room.users Room.id Room.messages].
    pose proof (rooms_after_round_trip (rooms st) roomId
               {| User.id := userId; User.socketId := s; User.name := name;
                  User.roomId := roomId; User.audioEnabled := None;
                  User.videoEnabled := None; User.isScreenSharing := None |}
               Hfull Hnew) as Hrooms.
    cbn zeta in Hrooms. cbn [User.id] in Hrooms.
    destruct (decide _); cbn [fst];
      rewrite Hj2, WebRTCMore.delete_set_absent, Hrooms by done;
      by destruct st.
Qed.

Lemma X21_witness :
  (leave_room "s2" "abc-def-ghi" "bob"
     (join_room "s2" "abc-def-ghi" (Some "bob") "Bob" "u2" alice_alone).1).1
  = alice_alone.
Proof.
  destruct (X21_join_undone alice_alone "s2" "abc-def-ghi" "bob" "Bob" "u2")
    as [Hleave _].
  - apply run_rooms_wf, init_rooms_wf.
  - reflexivity.
  - intros R HR. unfold alice_alone, run in HR. simpl in HR.
    apply elem_of_union in HR as [HR|HR].
    + by apply elem_of_singleton in HR.
    + by apply elem_of_empty in HR.
  - done.
  - unfold alice_alone, run, roster. simpl. rewrite lookup_insert_eq. simpl.
    by intros [=]%list_elem_of_singleton.
  - apply Hleave.
Defined.

(** X22. The disconnect of a transport bound to a participant whose
    room id is not the empty string and is in the registry does to the
    rooms and to the binding table what a leave-room of that participant
    from that room on that transport does, and takes the transport out of
    every group, not just the room's.  It announces the leave as
    leave-room does as long as someone stays on the roster; when the
    roster empties, leave-room still emits to the room and the disconnect
    emits nothing.  The disconnect of a transport that is not bound, or
    is bound with the empty string as room id, changes no room and no
    binding and emits nothing. *)
Theorem X22_disconnect_is_leave (st : State) (s : string) :
  match resolveParticipantByTransport s st with
  | Some user =>
      if decide (User.roomId user = "") then
        rooms (disconnect s st).1 = rooms st
        /\ users (disconnect s st).1 = users st
        /\ (disconnect s st).2 = []
      else
        is_Some (rooms st !! User.roomId user) ->
        let left := leave_room s (User.roomId user) (User.id user) st in
        rooms (disconnect s st).1 = rooms left.1
        /\ users (disconnect s st).1 = users left.1
        /\ (forall R, (R, s) ∉ joined (disconnect s st).1)
        /\ (forall R t, t <> s ->
              ((R, t) ∈ joined (disconnect s st).1 <-> (R, t) ∈ joined left.1))
        /\ (disconnect s st).2
           = (if decide (roster (User.roomId user) left.1 = []) then []
              else left.2)
        /\ left.2
           = [ToRoom (User.roomId user)
                (UserLeft (User.id user) (roster (User.roomId user) left.1))]
  | None =>
      rooms (disconnect s st).1 = rooms st
      /\ users (disconnect s st).1 = users st
      /\ (disconnect s st).2 = []
  end.
Proof.
  unfold resolveParticipantByTransport, disconnect.
  destruct (JsMap.get s (users st)) as [user|] eqn:Huser; [|done].
  destruct (decide (User.roomId user = "")) as [Hempty|Hfull]; [done|].
  intros [room Hroom].
  assert (forall R, (R, s) ∉ filter (fun p : string * string => p.2 <> s)
                               (joined st)) as Hnone.
  { intros R [Hne _]%elem_of_filter. by apply Hne. }
  assert (forall R t, t <> s ->
            ((R, t) ∈ filter (fun p : string * string => p.2 <> s) (joined st)
             <-> (R, t) ∈ joined st ∖ {[(User.roomId user, s)]})) as Hsame.
  { intros R t Hne.
    rewrite elem_of_filter, elem_of_difference, elem_of_singleton. simpl.
    split; [intros [_ ?]; split; [done|by intros [= _ ?]]|].
    by intros [? _]. }
  unfold leave_room, roster. rewrite Hroom. cbn zeta.
  cbn [fst snd rooms users joined Room.users].
  destruct (decide (length (without (User.id user) (Room.users room)) = 0))
    as [Hlen|Hlen]; cbn [fst snd rooms users joined].
  - rewrite lookup_delete_eq, decide_True by done.
    apply nil_length_inv in Hlen. rewrite Hlen. done.
  - rewrite lookup_insert_eq. cbn [Room.users].
    rewrite decide_False by (by intros Hnil; rewrite Hnil in Hlen).
    done.
Qed.

Lemma X22_witness :
  (disconnect "s2" alice_and_bob).2
  = [ToRoom "abc-def-ghi"
       (UserLeft "bob"
          (roster "abc-def-ghi"
             (leave_room "s2" "abc-def-ghi" "bob" alice_and_bob).1))].
Proof.
  pose proof (X22_disconnect_is_leave alice_and_bob "s2") as H.
  change (resolveParticipantByTransport "s2" alice_and_bob)
    with (Some {| User.id := "bob"; User.socketId := "s2"; User.name := "Bob";
                  User.roomId := "abc-def-ghi"; User.audioEnabled := None;
                  User.videoEnabled := None; User.isScreenSharing := None |})
    in H.
  cbn [User.roomId User.id] in H.
  rewrite decide_False in H by done.
  destruct H as (_ & _ & _ & _ & Hemit & Hleft).
  - unfold alice_and_bob, run. simpl. rewrite lookup_insert_eq. by eexists.
  - rewrite Hemit, <- Hleft.
    apply decide_False. intros Hnil. vm_compute in Hnil. discriminate.
Defined.

(** X23. An event that is about another room leaves a room as it is:
    its roster and its history are unchanged, it is neither created nor
    deleted, and nothing is emitted to the Socket.IO room of its name.
    The room an event is about is the room of its payload, for a
    disconnect the room of the participant bound to the socket, and for a
    signal the room named by the socket id of the target, to which the
    relay is emitted. *)
Theorem X23_rooms_are_isolated (st : State) (op : Op) (R : string) :
  room_of op st <> Some R ->
  rooms (step op st).1 !! R = rooms st !! R
  /\ Forall (fun em => ~ emits_to R em) (step op st).2.
Proof.
  destruct op as [s roomId id name uuid|s roomId userId|s sig to
                 |s roomId userId updates|s roomId message|s];
    cbn [step room_of]; intros Hother.
  - assert (roomId <> R) as Hne by congruence.
    unfold join_room; cbn [fst snd rooms].
    rewrite lookup_insert_ne by done. split; [done|].
    apply Forall_cons. split; [done|].
    apply Forall_cons. split; [by intros []|]. by apply Forall_nil.
  - assert (roomId <> R) as Hne by congruence.
    unfold leave_room.
    destruct (rooms st !! roomId) as [room|]; cbn [fst snd rooms];
      [|split; [done|by apply Forall_nil]].
    split.
    + destruct (decide _);
        [by rewrite lookup_delete_ne|by rewrite lookup_insert_ne].
    + apply Forall_cons. split; [done|]. by apply Forall_nil.
  - rewrite signal_state. split; [done|]. unfold signal.
    destruct (JsMap.get s (users st)); [|by apply Forall_nil].
    destruct (list_find _ _) as [[k target]|]; [|by apply Forall_nil].
    cbn [snd fmap option_fmap option_map] in *.
    apply Forall_cons. split; [|by apply Forall_nil].
    cbn [emits_to]. congruence.
  - assert (roomId <> R) as Hne by congruence.
    unfold update_media.
    destruct (rooms st !! roomId) as [room|];
      [|split; [done|by apply Forall_nil]].
    destruct (list_find _ _) as [[k u]|];
      [|split; [done|by apply Forall_nil]].
    cbn [fst snd rooms]. rewrite lookup_insert_ne by done.
    split; [done|]. apply Forall_cons. split; [done|]. by apply Forall_nil.
  - assert (roomId <> R) as Hne by congruence.
    unfold send_message.
    destruct (rooms st !! roomId) as [room|]; cbn [fst snd rooms];
      [|split; [done|by apply Forall_nil]].
    destruct (normalize message) as [stored|]; cbn [fst snd rooms];
      [|split; [done|by apply Forall_nil]].
    rewrite lookup_insert_ne by done.
    split; [done|]. apply Forall_cons. split; [done|]. by apply Forall_nil.
  - unfold resolveParticipantByTransport in Hother. unfold disconnect.
    destruct (JsMap.get s (users st)) as [user|];
      [|split; [done|by apply Forall_nil]].
    assert (User.roomId user <> R) as Hne by (simpl in Hother; congruence).
    destruct (decide (User.roomId user = "")) as [Hempty|Hfull];
      [split; [done|by apply Forall_nil]|].
    destruct (rooms st !! User.roomId user) as [room|];
      [|split; [done|by apply Forall_nil]].
    cbn zeta. destruct (decide _) as [Hlen|Hlen]; cbn [fst snd rooms].
    + rewrite lookup_delete_ne by done.
      split; [done|by apply Forall_nil].
    + rewrite lookup_insert_ne by done. split; [done|].
      apply Forall_cons. split; [done|]. by apply Forall_nil.
Qed.

Lemma X23_witness :
  Forall (fun em => ~ emits_to "s1" em)
    (step (SignalTo "s1" "offer" "bob") alice_and_bob).2.
Proof.
  apply (X23_rooms_are_isolated alice_and_bob
           (SignalTo "s1" "offer" "bob") "s1").
  vm_compute. by intros [=].
Defined.

End ServerMore.
